(** * LocalShare: signaling relay, signaling client, WebRTC manager and
      chunked file transfer

    A shallow embedding of the TypeScript sources

    - [server/src/services/roomService.ts]   (class [RoomService]),
    - [src/lib/webRTC/manager/signaling.ts]  (class [SignalingManager]),
    - [src/lib/webRTC/manager/webRTC.ts]     (class [WebRTCManager]),
    - [src/lib/webRTC/manager/file-transfer.ts] (class [FileTransferManager]),

    followed by the properties proved about them.

    Conventions of the embedding.

    - A JavaScript [number] that holds a size, an index or a counter is an
      integer of [Z]; floating point results (percentages, speeds) are left
      out of the records that carry them.
    - A JavaScript [Map] is an insertion-ordered association list
      ([JsMap]): [forEach] and [values()] traverse it in insertion order and
      the order of the emitted messages depends on it.
    - A method that mutates [this] becomes a function on the record of the
      fields; a method that can throw, or that calls listeners or the
      channel, lives in the monad [Js.M], whose world carries the fields and
      the trace of observable effects.
    - [Date.now()], [Math.random()] and [uuid] are arguments of the
      functions that call them.
    - Listeners registered with [on] do not call back into the manager that
      invokes them. *)

From Stdlib Require Import String List ZArith Lia Bool Arith Ascii.
From Stdlib Require Import Permutation Sorting.Sorted.
From Stdlib Require HexString DecimalString.
Import ListNotations.

Local Open Scope string_scope.
Local Open Scope list_scope.
Local Open Scope Z_scope.

(** String concatenation, as in a template string. *)
Infix "+++" := String.append (right associativity, at level 60).

Set Implicit Arguments.

(** The indices [i, i+1, ..., i+n-1] that a counting loop visits. *)
Definition indices (i : Z) (n : nat) : list Z :=
  map (fun k => i + Z.of_nat k) (seq 0 n).

(* ================================================================== *)
(** * Keys with a decidable equality *)

Class EqKey (K : Type) := {
  keyb : K -> K -> bool;
  keyb_spec : forall a b, keyb a b = true <-> a = b
}.

#[export] Instance string_EqKey : EqKey string :=
  {| keyb := String.eqb; keyb_spec := String.eqb_eq |}.

#[export] Instance Z_EqKey : EqKey Z :=
  {| keyb := Z.eqb; keyb_spec := Z.eqb_eq |}.

(* ================================================================== *)
(** * [Map]: insertion-ordered finite maps *)

Module JsMap.
Section Defs.
Context {K V : Type} `{EqKey K}.

Definition t := list (K * V).

Definition empty : t := [].

(** [m.get(k)] *)
Fixpoint get (k : K) (m : t) : option V :=
  match m with
  | [] => None
  | (k', v) :: m' => if keyb k k' then Some v else get k m'
  end.

(** [m.has(k)] *)
Definition has (k : K) (m : t) : bool :=
  match get k m with Some _ => true | None => false end.

(** [m.set(k, v)]: an existing key keeps its position, a new key goes
    last. *)
Fixpoint set (k : K) (v : V) (m : t) : t :=
  match m with
  | [] => [(k, v)]
  | (k', v') :: m' =>
      if keyb k k' then (k', v) :: m' else (k', v') :: set k v m'
  end.

(** [m.delete(k)] (a map holds a key at most once; every entry under [k]
    goes). *)
Definition delete (k : K) (m : t) : t :=
  filter (fun p => negb (keyb k (fst p))) m.

(** Mutation of the object stored under [k] (the map holds references;
    every entry under [k] is changed). *)
Definition update (k : K) (f : V -> V) (m : t) : t :=
  map (fun p => if keyb k (fst p) then (fst p, f (snd p)) else p) m.

Definition keys (m : t) : list K := map fst m.
Definition values (m : t) : list V := map snd m.
Definition size (m : t) : Z := Z.of_nat (List.length m).

(** The keys of a [Map] are pairwise different. *)
Definition wf (m : t) : Prop := NoDup (keys m).
End Defs.
Arguments t : clear implicits.
End JsMap.

(* ================================================================== *)
(** * Calls that may throw *)

Module Js.
(** How a call ends: normally with a value, or with a thrown error (the
    error is kept as the string [String(error)]). *)
Inductive completion (A : Type) : Type :=
| Normal (a : A)
| Thrown (e : string).
Arguments Thrown {A} e.

(** A call in a world [W] (fields of [this] and trace of effects). *)
Definition M (W A : Type) : Type := W -> completion A * W.

Definition ret {W A} (a : A) : M W A := fun w => (Normal a, w).

Definition bind {W A B} (c : M W A) (k : A -> M W B) : M W B :=
  fun w =>
    match c w with
    | (Normal a, w') => k a w'
    | (Thrown e, w') => (Thrown e, w')
    end.

Definition throw {W A} (e : string) : M W A := fun w => (Thrown e, w).

(** [try { c } catch (error) { h error }] *)
Definition tryCatch {W A} (c : M W A) (h : string -> M W A) : M W A :=
  fun w =>
    match c w with
    | (Normal a, w') => (Normal a, w')
    | (Thrown e, w') => h e w'
    end.

Definition gets {W A} (f : W -> A) : M W A := fun w => (Normal (f w), w).
Definition modify {W} (f : W -> W) : M W unit := fun w => (Normal tt, f w).

(** [xs.forEach(body)]: an error thrown by [body] leaves the loop. *)
Fixpoint forEach {W A} (xs : list A) (body : A -> M W unit) : M W unit :=
  match xs with
  | [] => ret tt
  | x :: xs' => bind (body x) (fun _ => forEach xs' body)
  end.

(** [new Error(msg)] as it prints in a template string. *)
Definition Error (msg : string) : string := "Error: " +++ msg.
End Js.

Declare Scope js_scope.
Delimit Scope js_scope with js.
Notation "x <- c ;; k" := (Js.bind c (fun x => k))
  (at level 61, c at next level, right associativity) : js_scope.
Notation "c ;; k" := (Js.bind c (fun _ => k))
  (at level 61, right associativity) : js_scope.

(* ================================================================== *)
(** * Event listeners and [emit]

    The three managers keep [eventListeners : Map<event, Function[]>] and
    share the text of [on], [off] and [emit] up to the prefix of the
    message that [emit] prints when a listener throws. *)

Module Emitter.
Section Defs.
(** [E]: the events (name and arguments) of one manager. *)
Variable E : Type.
Variable event_name : E -> string.

(** A registered function: its identity (what [indexOf] compares) and
    what a call with the arguments of an event does: return ([None]) or
    throw ([Some error]). *)
Record Listener := {
  lid : nat;
  call : E -> option string
}.

(** What a run of [emit] shows: the listeners called, in order, and the
    lines printed by [console.error]. *)
Inductive Obs :=
| Called (l : nat) (ev : E)
| ConsoleError (msg : string) (err : string).

Definition Listeners := JsMap.t string (list Listener).

(** [this.eventListeners.get(event) || []] *)
Definition listenersOf (name : string) (ls : Listeners) : list Listener :=
  match JsMap.get name ls with Some l => l | None => [] end.

(** [initializeEventMaps] *)
Definition initializeEventMaps (eventTypes : list string) : Listeners :=
  fold_left (fun m ty => JsMap.set ty [] m) eventTypes JsMap.empty.

(** [on(event, listener)] *)
Definition on (name : string) (l : Listener) (ls : Listeners) : Listeners :=
  JsMap.set name (listenersOf name ls ++ [l]) ls.

(** [listeners.indexOf(listener)] with [splice(index, 1)] *)
Fixpoint removeFirst (i : nat) (l : list Listener) : list Listener :=
  match l with
  | [] => []
  | x :: l' => if Nat.eqb (lid x) i then l' else x :: removeFirst i l'
  end.

(** [off(event, listener)]: the array stored in the map is spliced in
    place; for an event without entry the spliced array is a fresh [[]]. *)
Definition off (name : string) (l : Listener) (ls : Listeners) : Listeners :=
  JsMap.update name (removeFirst (lid l)) ls.

(** [(listener as any)(...args)] *)
Definition invoke (l : Listener) (ev : E) : Js.M (list Obs) unit :=
  fun tr =>
    match call l ev with
    | None => (Js.Normal tt, tr ++ [Called (lid l) ev])
    | Some err => (Js.Thrown err, tr ++ [Called (lid l) ev])
    end.

Definition console_error (msg err : string) : Js.M (list Obs) unit :=
  Js.modify (fun tr => tr ++ [ConsoleError msg err]).

(** [emit(event, ...args)] with the message prefix of the manager. *)
Definition emit (prefix : string) (ls : Listeners) (ev : E)
  : Js.M (list Obs) unit :=
  let listeners := listenersOf (event_name ev) ls in
  Js.forEach listeners (fun listener =>
    Js.tryCatch
      (invoke listener ev)
      (fun error =>
         console_error (prefix +++ event_name ev +++ ":") error)).

(** What one listener contributes to a run of [emit]: its call, and the
    line printed when it throws. *)
Definition reaction (prefix : string) (ev : E) (l : Listener) : list Obs :=
  match call l ev with
  | None => [Called (lid l) ev]
  | Some err =>
      [Called (lid l) ev;
       ConsoleError (prefix +++ event_name ev +++ ":") err]
  end.

(** All of a run of [emit]. *)
Definition reactions (prefix : string) (ls : Listeners) (ev : E)
  : list Obs :=
  flat_map (reaction prefix ev) (listenersOf (event_name ev) ls).

(** The listeners called in a run, in order. *)
Definition calls (obs : list Obs) : list nat :=
  flat_map (fun o => match o with
                     | Called l _ => [l]
                     | ConsoleError _ _ => []
                     end) obs.
End Defs.
Arguments Called {E} l ev.
Arguments ConsoleError {E} msg err.
End Emitter.

(* ================================================================== *)
(** * [FileTransferManager] (file-transfer.ts) *)

Module FileTransfer.

Definition byte := Byte.byte.

(** The value of [view[i]] for a [Uint8Array]. *)
Definition byte_val (b : byte) : Z := Z.of_N (Byte.to_N b).

(** A [File]: name, MIME type and content. *)
Record File := {
  name : string;
  type : string;
  bytes : list byte
}.

(** [file.size] *)
Definition size (f : File) : Z := Z.of_nat (List.length (bytes f)).

(** [blob.slice(start, end)] for [0 <= start]: the bytes from [start] up to
    [end], both clamped to the size of the blob. *)
Definition slice (l : list byte) (start end_ : Z) : list byte :=
  firstn (Z.to_nat (end_ - start)) (skipn (Z.to_nat start) l).

(** [Math.ceil(a / b)] for integers [0 <= a] and [0 < b]. (For [b = 0]
    JavaScript gives [Infinity] or [NaN], which this model does not
    represent.) *)
Definition Math_ceil_div (a b : Z) : Z :=
  if a mod b =? 0 then a / b else a / b + 1.

Inductive FileTransferStatus :=
| PENDING | PREPARING | TRANSFERRING | PAUSED | COMPLETED | FAILED
| CANCELLED.

Definition status_eqb (a b : FileTransferStatus) : bool :=
  match a, b with
  | PENDING, PENDING | PREPARING, PREPARING | TRANSFERRING, TRANSFERRING
  | PAUSED, PAUSED | COMPLETED, COMPLETED | FAILED, FAILED
  | CANCELLED, CANCELLED => true
  | _, _ => false
  end.

Record FileChunk := {
  chunk_id : string;
  index : Z;
  data : list byte;
  chunk_size : Z;
  checksum : option string
}.

Record FileTransferConfig := {
  chunkSize : Z;
  maxConcurrentTransfers : Z;
  enableChecksum : bool;
  retryAttempts : Z;
  retryDelay : Z
}.

Definition DEFAULT_CONFIG : FileTransferConfig := {|
  chunkSize := 64 * 1024;
  maxConcurrentTransfers := 3;
  enableChecksum := true;
  retryAttempts := 3;
  retryDelay := 1000
|}.

Record TransferringFile := {
  id : string;
  file : File;
  chunks : list FileChunk;
  receivedChunks : JsMap.t Z FileChunk;
  totalChunks : Z;
  status : FileTransferStatus;
  startTime : Z;
  lastProgressTime : Z;
  transferredSize : Z;
  retryCount : Z
}.

Definition set_status (s : FileTransferStatus) (t : TransferringFile)
  : TransferringFile :=
  {| id := id t; file := file t; chunks := chunks t;
     receivedChunks := receivedChunks t; totalChunks := totalChunks t;
     status := s; startTime := startTime t;
     lastProgressTime := lastProgressTime t;
     transferredSize := transferredSize t; retryCount := retryCount t |}.

Definition set_chunks (cs : list FileChunk) (t : TransferringFile)
  : TransferringFile :=
  {| id := id t; file := file t; chunks := cs;
     receivedChunks := receivedChunks t; totalChunks := totalChunks t;
     status := status t; startTime := startTime t;
     lastProgressTime := lastProgressTime t;
     transferredSize := transferredSize t; retryCount := retryCount t |}.

Definition set_transferredSize (n : Z) (t : TransferringFile)
  : TransferringFile :=
  {| id := id t; file := file t; chunks := chunks t;
     receivedChunks := receivedChunks t; totalChunks := totalChunks t;
     status := status t; startTime := startTime t;
     lastProgressTime := lastProgressTime t;
     transferredSize := n; retryCount := retryCount t |}.

(** ** Checksums *)

(** [crypto.subtle] of the environment: absent ([None]), or a digest that
    yields the hexadecimal SHA-256 of the data, or fails ([None]). *)
Definition Crypto := option (list byte -> option string).

(** [n.toString(16)] *)
Definition toString16 (n : Z) : string :=
  match n with
  | Z0 => "0"
  | Zpos p => HexString.Raw.of_pos p ""
  | Zneg p => "-" +++ HexString.Raw.of_pos p ""
  end.

(** [n.toString()] for an integer. *)
Definition toString10 (n : Z) : string :=
  DecimalString.NilZero.string_of_int (Z.to_int n).

(** The loop of the fallback: [checksum = (checksum + view[i]) % 0xffffffff]. *)
Definition fallbackChecksum (d : list byte) : Z :=
  fold_left (fun checksum b => (checksum + byte_val b) mod 4294967295) d 0.

(** [calculateChecksum(data)] *)
Definition calculateChecksum (crypto : Crypto) (d : list byte) : string :=
  match crypto with
  | Some digest =>
      match digest d with
      | Some hex => hex
      | None => toString16 (fallbackChecksum d)
      end
  | None => toString16 (fallbackChecksum d)
  end.

(** ** Preparing the chunks of a file *)

(** The body of the loop of [prepareFileChunks] for index [i]. *)
Definition makeChunk (crypto : Crypto) (cfg : FileTransferConfig)
    (transferFile : TransferringFile) (i : Z) : FileChunk :=
  let start := i * chunkSize cfg in
  let end_ := Z.min (start + chunkSize cfg) (size (file transferFile)) in
  let arrayBuffer := slice (bytes (file transferFile)) start end_ in
  {| chunk_id := id transferFile +++ "-" +++ toString10 i;
     index := i;
     data := arrayBuffer;
     chunk_size := Z.of_nat (List.length arrayBuffer);
     checksum :=
       if enableChecksum cfg
       then Some (calculateChecksum crypto arrayBuffer)
       else None |}.

(** [for (let i = ...; i < totalChunks; i++) { ...; chunks.push(chunk) }]
    with [n] iterations left. *)
Fixpoint prepareLoop (crypto : Crypto) (cfg : FileTransferConfig)
    (transferFile : TransferringFile) (n : nat) (i : Z)
    (chunks : list FileChunk) : list FileChunk :=
  match n with
  | O => chunks
  | S n' =>
      prepareLoop crypto cfg transferFile n' (i + 1)
        (chunks ++ [makeChunk crypto cfg transferFile i])
  end.

(** [prepareFileChunks(transferFile)] *)
Definition prepareFileChunks (crypto : Crypto) (cfg : FileTransferConfig)
    (transferFile : TransferringFile) : TransferringFile :=
  set_chunks
    (prepareLoop crypto cfg transferFile
       (Z.to_nat (totalChunks transferFile)) 0 [])
    transferFile.

(** The record that [sendFile] creates. *)
Definition newSendingFile (cfg : FileTransferConfig) (fileId : string)
    (now : Z) (f : File) : TransferringFile :=
  {| id := fileId; file := f; chunks := [];
     receivedChunks := JsMap.empty;
     totalChunks := Math_ceil_div (size f) (chunkSize cfg);
     status := PREPARING; startTime := now; lastProgressTime := now;
     transferredSize := 0; retryCount := 0 |}.

(** ** Rebuilding a file from the received chunks *)

(** [chunks.sort((a, b) => a.index - b.index)]: the sort of an array is
    stable, so the result is the one of a stable insertion sort. *)
Fixpoint insertByIndex (c : FileChunk) (l : list FileChunk)
  : list FileChunk :=
  match l with
  | [] => [c]
  | x :: l' =>
      if index c <=? index x then c :: x :: l' else x :: insertByIndex c l'
  end.

Fixpoint sortByIndex (l : list FileChunk) : list FileChunk :=
  match l with
  | [] => []
  | c :: l' => insertByIndex c (sortByIndex l')
  end.

(** [view.set(source, offset)]: a [RangeError] when the source does not
    fit. *)
Definition view_set (target source : list byte) (offset : Z)
  : option (list byte) :=
  if (offset <? 0)
     || (Z.of_nat (List.length target)
         <? offset + Z.of_nat (List.length source))
  then None
  else Some (firstn (Z.to_nat offset) target ++ source
             ++ skipn (Z.to_nat offset + List.length source) target).

(** [chunks.forEach(chunk => { combinedView.set(...); offset += chunk.size })] *)
Fixpoint copyChunks (chunks : list FileChunk) (combinedView : list byte)
    (offset : Z) : Js.completion (list byte) :=
  match chunks with
  | [] => Js.Normal combinedView
  | chunk :: rest =>
      match view_set combinedView (data chunk) offset with
      | None => Js.Thrown "RangeError: offset is out of bounds"
      | Some view' => copyChunks rest view' (offset + chunk_size chunk)
      end
  end.

(** [reconstructFile(transferFile)] *)
Definition reconstructFile (transferFile : TransferringFile)
  : Js.completion File :=
  let chunks := sortByIndex (JsMap.values (receivedChunks transferFile)) in
  let totalSize := fold_left (fun sum chunk => sum + chunk_size chunk) chunks 0 in
  if totalSize <? 0 then Js.Thrown "RangeError: Invalid array buffer length"
  else
    match copyChunks chunks (repeat Byte.x00 (Z.to_nat totalSize)) 0 with
    | Js.Normal combinedBuffer =>
        Js.Normal {| name := name (file transferFile);
                     type := type (file transferFile);
                     bytes := combinedBuffer |}
    | Js.Thrown e => Js.Thrown e
    end.

(** ** Messages on the data channel *)

(** The control messages (the JSON objects, by their [type] field). *)
Inductive ControlMessage :=
| FileInfo (fileId fileName : string) (fileSize : Z) (fileType : string)
    (totalChunks_ chunkSize_ : Z) (enableChecksum_ : bool)
| ChunkRequest (fileId : string) (chunkIndex : Z)
| ChunkHeader (fileId chunkId : string) (chunkIndex chunkSize_ : Z)
    (checksum_ : option string)
| ChunkAck (fileId : string) (chunkIndex : Z)
| TransferComplete (fileId : string)
| TransferError (fileId error : string)
| OtherMessage (type_ : string).

(** What [dataChannel.send] is given. *)
Inductive Payload :=
| PText (m : ControlMessage)      (* JSON.stringify(message) *)
| PBinary (d : list byte).        (* an ArrayBuffer *)

(** What [onmessage] receives in [event.data]. *)
Inductive Inbound :=
| InText (m : ControlMessage)     (* a string that JSON.parse accepts *)
| InMalformed (raw : string)      (* a string that JSON.parse rejects *)
| InBinary (d : list byte)        (* an ArrayBuffer *)
| InOther.                        (* a Blob, ... *)

Inductive ReadyState := RSconnecting | RSopen | RSclosing | RSclosed.

(** The data channel: its [readyState], its [bufferedAmount] (which
    file-transfer.ts never reads) and whether [send] throws. *)
Record RTCDataChannel := {
  readyState : ReadyState;
  bufferedAmount : Z;
  sendThrows : option string
}.

Definition isOpen (ch : RTCDataChannel) : bool :=
  match readyState ch with RSopen => true | _ => false end.

(** ** Events *)

(** [TransferProgress] without its floating point fields. *)
Record TransferProgress := {
  p_fileId : string;
  p_fileName : string;
  p_totalSize : Z;
  p_transferredSize : Z;
  p_status : FileTransferStatus
}.

Inductive Event :=
| Progress (p : TransferProgress)
| Completed (fileId : string) (f : File)
| Failed (fileId : string) (error : string)
| Cancelled (fileId : string)
| ChunkReceived (fileId : string) (chunkIndex : Z)
| ChunkSent (fileId : string) (chunkIndex : Z).

Definition event_name (ev : Event) : string :=
  match ev with
  | Progress _ => "progress"
  | Completed _ _ => "completed"
  | Failed _ _ => "failed"
  | Cancelled _ => "cancelled"
  | ChunkReceived _ _ => "chunk-received"
  | ChunkSent _ _ => "chunk-sent"
  end.

Definition eventTypes : list string :=
  ["progress"; "completed"; "failed"; "cancelled"; "chunk-received";
   "chunk-sent"].

(** The observable effects of the manager, in the order they happen. *)
Inductive Effect :=
| EEmit (ev : Event)                    (* [emit] is called *)
| EObs (o : Emitter.Obs Event)          (* what [emit] does *)
| ESend (p : Payload)                   (* [dataChannel.send] succeeded *)
| EConsole (msg : string).              (* console.log / console.error *)

(** ** The fields of the manager *)

Record Manager := {
  dataChannel : option RTCDataChannel;
  config : FileTransferConfig;
  eventListeners : Emitter.Listeners Event;
  sendingFiles : JsMap.t string TransferringFile;
  receivingFiles : JsMap.t string TransferringFile;
  transferQueue : list string;
  activeTransfers : Z
}.

Definition set_dataChannel (c : option RTCDataChannel) (m : Manager) :=
  {| dataChannel := c; config := config m;
     eventListeners := eventListeners m; sendingFiles := sendingFiles m;
     receivingFiles := receivingFiles m; transferQueue := transferQueue m;
     activeTransfers := activeTransfers m |}.

Definition set_eventListeners (l : Emitter.Listeners Event) (m : Manager) :=
  {| dataChannel := dataChannel m; config := config m;
     eventListeners := l; sendingFiles := sendingFiles m;
     receivingFiles := receivingFiles m; transferQueue := transferQueue m;
     activeTransfers := activeTransfers m |}.

Definition set_sendingFiles (s : JsMap.t string TransferringFile)
    (m : Manager) :=
  {| dataChannel := dataChannel m; config := config m;
     eventListeners := eventListeners m; sendingFiles := s;
     receivingFiles := receivingFiles m; transferQueue := transferQueue m;
     activeTransfers := activeTransfers m |}.

Definition set_receivingFiles (r : JsMap.t string TransferringFile)
    (m : Manager) :=
  {| dataChannel := dataChannel m; config := config m;
     eventListeners := eventListeners m; sendingFiles := sendingFiles m;
     receivingFiles := r; transferQueue := transferQueue m;
     activeTransfers := activeTransfers m |}.

Definition set_transferQueue (q : list string) (m : Manager) :=
  {| dataChannel := dataChannel m; config := config m;
     eventListeners := eventListeners m; sendingFiles := sendingFiles m;
     receivingFiles := receivingFiles m; transferQueue := q;
     activeTransfers := activeTransfers m |}.

Definition set_activeTransfers (n : Z) (m : Manager) :=
  {| dataChannel := dataChannel m; config := config m;
     eventListeners := eventListeners m; sendingFiles := sendingFiles m;
     receivingFiles := receivingFiles m; transferQueue := transferQueue m;
     activeTransfers := n |}.

(** [new FileTransferManager(config)] with the merged configuration. *)
Definition new (cfg : FileTransferConfig) : Manager :=
  {| dataChannel := None; config := cfg;
     eventListeners := Emitter.initializeEventMaps Event eventTypes;
     sendingFiles := JsMap.empty; receivingFiles := JsMap.empty;
     transferQueue := []; activeTransfers := 0 |}.

(** [on] and [off] *)
Definition on (event : string) (l : Emitter.Listener Event) (m : Manager) :=
  set_eventListeners (Emitter.on event l (eventListeners m)) m.

Definition off (event : string) (l : Emitter.Listener Event) (m : Manager) :=
  set_eventListeners (Emitter.off event l (eventListeners m)) m.

(** The world of a method call: the fields and the effects so far. *)
Record World := {
  mgr : Manager;
  trace : list Effect
}.

Definition M := Js.M World.

Definition getM : M Manager := Js.gets mgr.

Definition modifyM (f : Manager -> Manager) : M unit :=
  Js.modify (fun w => {| mgr := f (mgr w); trace := trace w |}).

Definition log (e : Effect) : M unit :=
  Js.modify (fun w => {| mgr := mgr w; trace := trace w ++ [e] |}).

Definition console (msg : string) : M unit := log (EConsole msg).

(** [emit(event, ...args)] *)
Definition emit (ev : Event) : M unit :=
  fun w =>
    let '(r, obs) :=
      Emitter.emit event_name "Error in file transfer event listener for "
        (eventListeners (mgr w)) ev [] in
    (r, {| mgr := mgr w;
           trace := trace w ++ EEmit ev :: map EObs obs |}).

(** [this.dataChannel.send(payload)] *)
Definition channel_send (ch : RTCDataChannel) (p : Payload) : M unit :=
  match sendThrows ch with
  | Some e => Js.throw e
  | None => log (ESend p)
  end.

Local Open Scope js_scope.

(** [sendControlMessage(message)] *)
Definition sendControlMessage (message : ControlMessage) : M unit :=
  m <- getM ;;
  match dataChannel m with
  | Some ch =>
      if isOpen ch then
        Js.tryCatch
          (channel_send ch (PText message))
          (fun error =>
             console "Failed to send control message:" ;; Js.throw error)
      else Js.throw (Js.Error "Data channel is not open")
  | None => Js.throw (Js.Error "Data channel is not open")
  end.

(** [sendFileInfo(transferFile)] *)
Definition sendFileInfo (transferFile : TransferringFile) : M unit :=
  m <- getM ;;
  sendControlMessage
    (FileInfo (id transferFile) (name (file transferFile))
       (size (file transferFile)) (type (file transferFile))
       (totalChunks transferFile) (chunkSize (config m))
       (enableChecksum (config m))).

(** [startTransfer(fileId)] *)
Definition startTransfer (fileId : string) (m : Manager) : Manager :=
  match JsMap.get fileId (sendingFiles m) with
  | None => m
  | Some _ =>
      set_activeTransfers (activeTransfers m + 1)
        (set_sendingFiles
           (JsMap.update fileId (set_status TRANSFERRING) (sendingFiles m)) m)
  end.

(** A string is truthy when it is not empty. *)
Definition truthy (s : string) : bool := negb (String.eqb s "").

(** The [while] loop of [processTransferQueue]; [queue] is the content of
    [this.transferQueue], which [shift] shortens at each turn. *)
Fixpoint processQueue (queue : list string) (m : Manager) : Manager :=
  match queue with
  | [] => m
  | fileId :: rest =>
      if activeTransfers m <? maxConcurrentTransfers (config m) then
        let m1 := set_transferQueue rest m in
        processQueue rest (if truthy fileId then startTransfer fileId m1 else m1)
      else m
  end.

(** [processTransferQueue()] *)
Definition processTransferQueue (m : Manager) : Manager :=
  processQueue (transferQueue m) m.

(** [sendFile(file)]; [fileId] is the result of [generateFileId()] and [now]
    the one of [Date.now()]. The awaits of [prepareFileChunks] are taken in
    one step. *)
Definition sendFile (crypto : Crypto) (fileId : string) (now : Z) (f : File)
  : M string :=
  Js.tryCatch
    (m <- getM ;;
     let transferFile := newSendingFile (config m) fileId now f in
     modifyM (fun m =>
       set_sendingFiles (JsMap.set fileId transferFile (sendingFiles m)) m) ;;
     modifyM (fun m =>
       set_sendingFiles
         (JsMap.update fileId (prepareFileChunks crypto (config m))
            (sendingFiles m)) m) ;;
     sendFileInfo transferFile ;;
     modifyM (fun m => set_transferQueue (transferQueue m ++ [fileId]) m) ;;
     modifyM processTransferQueue ;;
     Js.ret fileId)
    (fun error =>
       modifyM (fun m =>
         set_sendingFiles (JsMap.delete fileId (sendingFiles m)) m) ;;
       Js.throw (Js.Error ("Failed to send file: " +++ error))).

(** [handleFileInfo(message)] *)
Definition handleFileInfo (now : Z) (fileId fileName fileType : string)
    (totalChunks_ : Z) : M unit :=
  let transferFile :=
    {| id := fileId;
       file := {| name := fileName; type := fileType; bytes := [] |};
       chunks := []; receivedChunks := JsMap.empty;
       totalChunks := totalChunks_; status := PENDING;
       startTime := now; lastProgressTime := now;
       transferredSize := 0; retryCount := 0 |} in
  modifyM (fun m =>
    set_receivingFiles (JsMap.set fileId transferFile (receivingFiles m)) m) ;;
  sendControlMessage (ChunkRequest fileId 0).

(** [handleTransferError(error)] *)
Definition handleTransferError (error : string) : M unit :=
  console "Transfer error:".

(** [calculateProgress(transferFile)] *)
Definition calculateProgress (transferFile : TransferringFile)
  : TransferProgress :=
  {| p_fileId := id transferFile;
     p_fileName := name (file transferFile);
     p_totalSize := size (file transferFile);
     p_transferredSize := transferredSize transferFile;
     p_status := status transferFile |}.

(** [updateSendProgress(fileId, chunkSize)] *)
Definition updateSendProgress (fileId : string) (chunkSize_ : Z) : M unit :=
  m <- getM ;;
  match JsMap.get fileId (sendingFiles m) with
  | None => Js.ret tt
  | Some transferFile =>
      let transferFile' :=
        set_transferredSize (transferredSize transferFile + chunkSize_)
          transferFile in
      modifyM (fun m =>
        set_sendingFiles
          (JsMap.update fileId (fun _ => transferFile') (sendingFiles m)) m) ;;
      emit (Progress (calculateProgress transferFile'))
  end.

(** [sendFileChunk(chunk, fileId)] *)
Definition sendFileChunk (chunk : FileChunk) (fileId : string) : M unit :=
  m <- getM ;;
  match dataChannel m with
  | Some ch =>
      if isOpen ch then
        Js.tryCatch
          (channel_send ch
             (PText (ChunkHeader fileId (chunk_id chunk) (index chunk)
                       (chunk_size chunk) (checksum chunk))) ;;
           channel_send ch (PBinary (data chunk)) ;;
           emit (ChunkSent fileId (index chunk)) ;;
           updateSendProgress fileId (chunk_size chunk))
          (fun error =>
             console "Failed to send file chunk:" ;;
             handleTransferError
               ("Failed to send chunk " +++ toString10 (index chunk)))
      else console "Data channel is not open"
  | None => console "Data channel is not open"
  end.

(** [array[i]] *)
Definition at_index {A} (l : list A) (i : Z) : option A :=
  if i <? 0 then None else nth_error l (Z.to_nat i).

(** [handleChunkRequest(message)] *)
Definition handleChunkRequest (fileId : string) (chunkIndex : Z) : M unit :=
  m <- getM ;;
  match JsMap.get fileId (sendingFiles m) with
  | None => console "Transfer file not found:"
  | Some transferFile =>
      match at_index (chunks transferFile) chunkIndex with
      | None => console "Chunk not found:"
      | Some chunk => sendFileChunk chunk fileId
      end
  end.

(** [handleFileChunk(data)] *)
Definition handleFileChunk (d : list byte) : M unit :=
  console "Received file chunk:".

(** [completeTransfer(fileId, isSender)] *)
Definition completeTransfer (fileId : string) (isSender : bool) : M unit :=
  m <- getM ;;
  let found :=
    if isSender then JsMap.get fileId (sendingFiles m)
    else JsMap.get fileId (receivingFiles m) in
  match found with
  | None => Js.ret tt
  | Some transferFile =>
      let transferFile := set_status COMPLETED transferFile in
      (if isSender then
         modifyM (fun m =>
           set_sendingFiles (JsMap.delete fileId (sendingFiles m)) m) ;;
         sendControlMessage (TransferComplete fileId)
       else
         f <- (fun w => (reconstructFile transferFile, w)) ;;
         modifyM (fun m =>
           set_receivingFiles (JsMap.delete fileId (receivingFiles m)) m) ;;
         emit (Completed fileId f)) ;;
      modifyM (fun m => set_activeTransfers (activeTransfers m - 1) m) ;;
      modifyM processTransferQueue
  end.

(** [handleChunkAck(message)] *)
Definition handleChunkAck (fileId : string) (chunkIndex : Z) : M unit :=
  m <- getM ;;
  match JsMap.get fileId (sendingFiles m) with
  | None => Js.ret tt
  | Some transferFile =>
      let nextChunkIndex := chunkIndex + 1 in
      if nextChunkIndex <? totalChunks transferFile then
        sendControlMessage (ChunkRequest fileId nextChunkIndex)
      else completeTransfer fileId true
  end.

(** [handleTransferComplete(message)] *)
Definition handleTransferComplete (fileId : string) : M unit :=
  completeTransfer fileId false.

(** [handleControlMessage(message)] *)
Definition handleControlMessage (now : Z) (message : ControlMessage)
  : M unit :=
  match message with
  | FileInfo fileId fileName _ fileType totalChunks_ _ _ =>
      handleFileInfo now fileId fileName fileType totalChunks_
  | ChunkRequest fileId chunkIndex => handleChunkRequest fileId chunkIndex
  | ChunkAck fileId chunkIndex => handleChunkAck fileId chunkIndex
  | TransferComplete fileId => handleTransferComplete fileId
  | TransferError _ error => handleTransferError error
  | ChunkHeader _ _ _ _ _ | OtherMessage _ =>
      console "Unknown control message type:"
  end.

(** [handleDataChannelMessage(data)] *)
Definition handleDataChannelMessage (now : Z) (d : Inbound) : M unit :=
  Js.tryCatch
    (match d with
     | InText message => handleControlMessage now message
     | InMalformed _ => Js.throw "SyntaxError: Unexpected token"
     | InBinary buf => handleFileChunk buf
     | InOther => Js.ret tt
     end)
    (fun error => console "Error handling data channel message:").

(** The two [forEach] loops of [handleDataChannelClose]. *)
Definition failAll (which : Manager -> JsMap.t string TransferringFile)
    (store : JsMap.t string TransferringFile -> Manager -> Manager)
  : M unit :=
  m <- getM ;;
  Js.forEach (JsMap.keys (which m)) (fun fileId =>
    modifyM (fun m =>
      store (JsMap.update fileId (set_status FAILED) (which m)) m) ;;
    emit (Failed fileId (Js.Error "Data channel closed"))).

Definition markAllFailed : M unit :=
  failAll sendingFiles set_sendingFiles ;;
  failAll receivingFiles set_receivingFiles.

(** The four resets that end [handleDataChannelClose]. *)
Definition clearTransfers (m : Manager) : Manager :=
  set_activeTransfers 0
    (set_transferQueue []
       (set_receivingFiles JsMap.empty (set_sendingFiles JsMap.empty m))).

(** [handleDataChannelClose()] *)
Definition handleDataChannelClose : M unit :=
  markAllFailed ;;
  modifyM clearTransfers.

(** [queue.indexOf(fileId)] with [splice(queueIndex, 1)] *)
Fixpoint removeFirst (fileId : string) (queue : list string) : list string :=
  match queue with
  | [] => []
  | x :: rest =>
      if String.eqb x fileId then rest else x :: removeFirst fileId rest
  end.

(** [cancelTransfer(fileId)] *)
Definition cancelTransfer (fileId : string) : M unit :=
  m <- getM ;;
  let sendingFile := JsMap.get fileId (sendingFiles m) in
  let receivingFile := JsMap.get fileId (receivingFiles m) in
  match sendingFile with
  | Some _ =>
      modifyM (fun m =>
        set_sendingFiles
          (JsMap.delete fileId
             (JsMap.update fileId (set_status CANCELLED) (sendingFiles m))) m) ;;
      emit (Cancelled fileId)
  | None => Js.ret tt
  end ;;
  match receivingFile with
  | Some _ =>
      modifyM (fun m =>
        set_receivingFiles
          (JsMap.delete fileId
             (JsMap.update fileId (set_status CANCELLED) (receivingFiles m)))
          m) ;;
      emit (Cancelled fileId)
  | None => Js.ret tt
  end ;;
  modifyM (fun m =>
    set_transferQueue (removeFirst fileId (transferQueue m)) m) ;;
  modifyM (fun m =>
    set_activeTransfers (Z.max 0 (activeTransfers m - 1)) m) ;;
  modifyM processTransferQueue.

(** [this.sendingFiles.get(fileId) || this.receivingFiles.get(fileId)],
    then a mutation of the object found. *)
Definition updateTransfer (fileId : string)
    (f : TransferringFile -> TransferringFile) (m : Manager) : Manager :=
  match JsMap.get fileId (sendingFiles m) with
  | Some _ => set_sendingFiles (JsMap.update fileId f (sendingFiles m)) m
  | None =>
      set_receivingFiles (JsMap.update fileId f (receivingFiles m)) m
  end.

Definition findTransfer (fileId : string) (m : Manager)
  : option TransferringFile :=
  match JsMap.get fileId (sendingFiles m) with
  | Some t => Some t
  | None => JsMap.get fileId (receivingFiles m)
  end.

(** [pauseTransfer(fileId)] *)
Definition pauseTransfer (fileId : string) (m : Manager) : Manager :=
  match findTransfer fileId m with
  | Some transferFile =>
      if status_eqb (status transferFile) TRANSFERRING
      then updateTransfer fileId (set_status PAUSED) m
      else m
  | None => m
  end.

(** [resumeTransfer(fileId)] *)
Definition resumeTransfer (fileId : string) (m : Manager) : Manager :=
  match findTransfer fileId m with
  | Some transferFile =>
      if status_eqb (status transferFile) PAUSED then
        let m1 := updateTransfer fileId (set_status TRANSFERRING) m in
        if JsMap.has fileId (sendingFiles m1) then
          processTransferQueue
            (set_transferQueue (transferQueue m1 ++ [fileId]) m1)
        else m1
      else m
  | None => m
  end.

(** [setDataChannel(dataChannel)]; the three handlers that
    [setupDataChannelHandlers] installs are [channelEvent] below. *)
Definition setDataChannel (ch : RTCDataChannel) (m : Manager) : Manager :=
  set_dataChannel (Some ch) m.

(** [Partial<FileTransferConfig>] *)
Record PartialConfig := {
  opt_chunkSize : option Z;
  opt_maxConcurrentTransfers : option Z;
  opt_enableChecksum : option bool;
  opt_retryAttempts : option Z;
  opt_retryDelay : option Z
}.

(** [{ ...config, ...partial }] *)
Definition mergeConfig (c : FileTransferConfig) (p : PartialConfig)
  : FileTransferConfig :=
  let pick {A} (o : option A) (d : A) :=
    match o with Some v => v | None => d end in
  {| chunkSize := pick (opt_chunkSize p) (chunkSize c);
     maxConcurrentTransfers :=
       pick (opt_maxConcurrentTransfers p) (maxConcurrentTransfers c);
     enableChecksum := pick (opt_enableChecksum p) (enableChecksum c);
     retryAttempts := pick (opt_retryAttempts p) (retryAttempts c);
     retryDelay := pick (opt_retryDelay p) (retryDelay c) |}.

(** [updateConfig(config)] *)
Definition updateConfig (p : PartialConfig) (m : Manager) : Manager :=
  {| dataChannel := dataChannel m; config := mergeConfig (config m) p;
     eventListeners := eventListeners m; sendingFiles := sendingFiles m;
     receivingFiles := receivingFiles m; transferQueue := transferQueue m;
     activeTransfers := activeTransfers m |}.

(** [destroy()]: each loop visits the keys that its table holds when it
    starts; [cancelTransfer] removes the key visited and adds none. *)
Definition destroy : M unit :=
  m <- getM ;;
  Js.forEach (JsMap.keys (sendingFiles m)) cancelTransfer ;;
  m <- getM ;;
  Js.forEach (JsMap.keys (receivingFiles m)) cancelTransfer ;;
  modifyM (fun m =>
    set_activeTransfers 0
      (set_transferQueue []
         (set_dataChannel None (set_eventListeners JsMap.empty m)))).

Inductive ChannelEvent :=
| OnMessage (d : Inbound)
| OnError
| OnClose.

(** [dataChannel.onmessage], [onerror] and [onclose]. *)
Definition channelEvent (now : Z) (e : ChannelEvent) : M unit :=
  match e with
  | OnMessage d => handleDataChannelMessage now d
  | OnError =>
      console "Data channel error:" ;;
      handleTransferError "Data channel error"
  | OnClose => console "Data channel closed" ;; handleDataChannelClose
  end.

(** The events that [emit] was called with, in order. *)
Definition emitted (tr : list Effect) : list Event :=
  flat_map (fun e => match e with EEmit ev => [ev] | _ => [] end) tr.

(** The payloads handed to the channel, in order. *)
Definition sent (tr : list Effect) : list Payload :=
  flat_map (fun e => match e with ESend p => [p] | _ => [] end) tr.

(** The sum of the bytes of a buffer. *)
Definition byteSum (d : list byte) : Z :=
  fold_right (fun b s => byte_val b + s) 0 d.

(** Reading a hexadecimal string back (the inverse of [toString16] on
    the naturals). *)
Definition parseHex (s : string) : N := HexString.Raw.to_N s 0.

(** Chunks in the order of their indices, none twice. *)
Definition indexLt (a b : FileChunk) : Prop := index a < index b.

(** The order a sort by [a.index - b.index] leaves an array in. *)
Definition indexLe (a b : FileChunk) : Prop := index a <= index b.

(** A chunk whose [size] field is the length of its data. *)
Definition sized (c : FileChunk) : Prop :=
  chunk_size c = Z.of_nat (List.length (data c)).

(** The control messages and chunks that arrive when the peer's sends are
    delivered, in order. *)
Definition deliver (ps : list Payload) : list Inbound :=
  map (fun p => match p with
                | PText m => InText m
                | PBinary d => InBinary d
                end) ps.

(** The handling of a sequence of arrivals. *)
Fixpoint receive (now : Z) (ins : list Inbound) (w : World) : World :=
  match ins with
  | [] => w
  | d :: rest => receive now rest (snd (channelEvent now (OnMessage d) w))
  end.

(** What a call [emit(ev)] adds to the trace. *)
Definition told (m : Manager) (ev : Event) : list Effect :=
  EEmit ev
  :: map EObs
       (Emitter.reactions event_name
          "Error in file transfer event listener for " (eventListeners m) ev).

(** A table of transfers after the loop of [failAll] over the keys [ks]. *)
Definition failed_keys (ks : list string)
    (s : JsMap.t string TransferringFile) : JsMap.t string TransferringFile :=
  fold_left (fun s k => JsMap.update k (set_status FAILED) s) ks s.

(** What the queue leaves alone in a sending file. *)
Definition content (t : TransferringFile) :=
  (chunks t, totalChunks t, file t, id t).

Definition contentOf (k : string) (m : Manager) :=
  option_map content (JsMap.get k (sendingFiles m)).

(** The sending files that are in state [TRANSFERRING]. *)
Definition transferring (m : Manager) : list string :=
  JsMap.keys
    (filter (fun p => status_eqb (status (snd p)) TRANSFERRING)
       (sendingFiles m)).

(** A [completed] event that reports a file without bytes, or an event of
    another kind. *)
Definition hollow (ev : Event) : Prop :=
  match ev with Completed _ f => bytes f = [] | _ => True end.

(** No receiving transfer holds a chunk, and no file reported so far has
    a byte. *)
Definition storesNothing (w : World) : Prop :=
  (forall k t, In (k, t) (receivingFiles (mgr w)) ->
     receivedChunks t = JsMap.empty)
  /\ Forall hollow (emitted (trace w)).

(** What happens to a manager: a call of a public method that changes it,
    or an event of its channel. *)
Inductive Call :=
| CallOn (event : string) (l : Emitter.Listener Event)
| CallOff (event : string) (l : Emitter.Listener Event)
| CallSetDataChannel (ch : RTCDataChannel)
| CallSendFile (crypto : Crypto) (fileId : string) (now : Z) (f : File)
| CallPause (fileId : string)
| CallResume (fileId : string)
| CallCancel (fileId : string)
| CallUpdateConfig (p : PartialConfig)
| CallDestroy
| CallChannel (now : Z) (e : ChannelEvent).

(** A change of the fields, as a change of the world. *)
Definition lift (f : Manager -> Manager) (w : World) : World :=
  {| mgr := f (mgr w); trace := trace w |}.

(** The world after a call, returned or thrown. *)
Definition perform (c : Call) (w : World) : World :=
  match c with
  | CallOn event l => lift (on event l) w
  | CallOff event l => lift (off event l) w
  | CallSetDataChannel ch => lift (setDataChannel ch) w
  | CallSendFile crypto fileId now f => snd (sendFile crypto fileId now f w)
  | CallPause fileId => lift (pauseTransfer fileId) w
  | CallResume fileId => lift (resumeTransfer fileId) w
  | CallCancel fileId => snd (cancelTransfer fileId w)
  | CallUpdateConfig p => lift (updateConfig p) w
  | CallDestroy => snd (destroy w)
  | CallChannel now e => snd (channelEvent now e w)
  end.

(** The world after a sequence of calls. *)
Definition performAll (cs : list Call) (w : World) : World :=
  fold_left (fun w c => perform c w) cs w.

(** A computation that keeps [storesNothing]. *)
Definition keeps {A} (c : M A) : Prop :=
  forall w, storesNothing w -> storesNothing (snd (c w)).

(** A change of the fields that adds no receiving file and no chunk to
    one. *)
Definition gentle (f : Manager -> Manager) : Prop :=
  forall m k t, In (k, t) (receivingFiles (f m)) ->
    exists t0, In (k, t0) (receivingFiles m)
               /\ receivedChunks t = receivedChunks t0.

(** The ids of a queue that [processTransferQueue] starts: the ones that
    are not empty and name a sending file. *)
Definition startable (m : Manager) (ids : list string) : list string :=
  filter (fun fileId => truthy fileId && JsMap.has fileId (sendingFiles m))
    ids.

End FileTransfer.

(* ================================================================== *)
(** * [SignalingManager] (signaling.ts) *)

Module Signaling.

Inductive SignalingState := DISCONNECTED | CONNECTING | CONNECTED | ERROR.

Definition state_eqb (a b : SignalingState) : bool :=
  match a, b with
  | DISCONNECTED, DISCONNECTED | CONNECTING, CONNECTING
  | CONNECTED, CONNECTED | ERROR, ERROR => true
  | _, _ => false
  end.

(** The messages the client sends (the fields that it fills). *)
Record SignalingMessage := {
  msg_type : string;
  msg_from : option string;
  msg_peerId : option string
}.

(** The events of [SignalingEvents]; session descriptions and candidates
    are opaque strings. *)
Inductive Event :=
| StateChange (s : SignalingState)
| Message (m : SignalingMessage)
| PeerJoined (peerId : string)
| PeerLeft (peerId : string)
| Offer (offer peerId : string)
| Answer (answer peerId : string)
| IceCandidate (candidate peerId : string)
| ErrorEvent (error : string).

Definition event_name (ev : Event) : string :=
  match ev with
  | StateChange _ => "state-change"
  | Message _ => "message"
  | PeerJoined _ => "peer-joined"
  | PeerLeft _ => "peer-left"
  | Offer _ _ => "offer"
  | Answer _ _ => "answer"
  | IceCandidate _ _ => "ice-candidate"
  | ErrorEvent _ => "error"
  end.

Definition eventTypes : list string :=
  ["state-change"; "message"; "peer-joined"; "peer-left"; "offer"; "answer";
   "ice-candidate"; "error"].

Inductive Effect :=
| EEmit (ev : Event)                   (* [emit] is called *)
| EObs (o : Emitter.Obs Event)         (* what [emit] does *)
| ENewWebSocket (userId : option string)  (* new WebSocket(url) *)
| EWsSend (m : SignalingMessage)       (* ws.send(JSON.stringify(m)) *)
| EWsClose (code : Z)                  (* ws.close(code, reason) *)
| ESetTimeout (delay : Z)              (* setTimeout(reconnect, delay) *)
| ESetInterval (ms : Z)                (* setInterval(ping, ms) *)
| EClearInterval
| EConsole (msg : string).

Record Manager := {
  ws : bool;                            (* this.ws !== null *)
  urlValid : bool;                      (* new URL(signalingServerUrl) succeeds *)
  webSocketSupported : bool;            (* typeof WebSocket !== 'undefined' *)
  currentUserId : option string;
  currentRoomId : option string;
  state : SignalingState;
  eventListeners : Emitter.Listeners Event;
  reconnectAttempts : Z;
  maxReconnectAttempts : Z;
  reconnectDelay : Z;
  heartbeatInterval : bool;             (* this.heartbeatInterval !== null *)
  heartbeatTimeout : Z
}.

(** [new SignalingManager(config)]: the initial values of the fields. *)
Definition new (urlOk supported : bool) : Manager :=
  {| ws := false; urlValid := urlOk; webSocketSupported := supported;
     currentUserId := None; currentRoomId := None;
     state := DISCONNECTED;
     eventListeners := Emitter.initializeEventMaps Event eventTypes;
     reconnectAttempts := 0; maxReconnectAttempts := 5;
     reconnectDelay := 1000;
     heartbeatInterval := false; heartbeatTimeout := 30000 |}.

Definition set_ws (b : bool) (m : Manager) :=
  {| ws := b; urlValid := urlValid m;
     webSocketSupported := webSocketSupported m;
     currentUserId := currentUserId m; currentRoomId := currentRoomId m;
     state := state m; eventListeners := eventListeners m;
     reconnectAttempts := reconnectAttempts m;
     maxReconnectAttempts := maxReconnectAttempts m;
     reconnectDelay := reconnectDelay m;
     heartbeatInterval := heartbeatInterval m;
     heartbeatTimeout := heartbeatTimeout m |}.

Definition set_currentUserId (u : option string) (m : Manager) :=
  {| ws := ws m; urlValid := urlValid m;
     webSocketSupported := webSocketSupported m;
     currentUserId := u; currentRoomId := currentRoomId m;
     state := state m; eventListeners := eventListeners m;
     reconnectAttempts := reconnectAttempts m;
     maxReconnectAttempts := maxReconnectAttempts m;
     reconnectDelay := reconnectDelay m;
     heartbeatInterval := heartbeatInterval m;
     heartbeatTimeout := heartbeatTimeout m |}.

Definition set_currentRoomId (r : option string) (m : Manager) :=
  {| ws := ws m; urlValid := urlValid m;
     webSocketSupported := webSocketSupported m;
     currentUserId := currentUserId m; currentRoomId := r;
     state := state m; eventListeners := eventListeners m;
     reconnectAttempts := reconnectAttempts m;
     maxReconnectAttempts := maxReconnectAttempts m;
     reconnectDelay := reconnectDelay m;
     heartbeatInterval := heartbeatInterval m;
     heartbeatTimeout := heartbeatTimeout m |}.

Definition set_state (s : SignalingState) (m : Manager) :=
  {| ws := ws m; urlValid := urlValid m;
     webSocketSupported := webSocketSupported m;
     currentUserId := currentUserId m; currentRoomId := currentRoomId m;
     state := s; eventListeners := eventListeners m;
     reconnectAttempts := reconnectAttempts m;
     maxReconnectAttempts := maxReconnectAttempts m;
     reconnectDelay := reconnectDelay m;
     heartbeatInterval := heartbeatInterval m;
     heartbeatTimeout := heartbeatTimeout m |}.

Definition set_eventListeners (l : Emitter.Listeners Event) (m : Manager) :=
  {| ws := ws m; urlValid := urlValid m;
     webSocketSupported := webSocketSupported m;
     currentUserId := currentUserId m; currentRoomId := currentRoomId m;
     state := state m; eventListeners := l;
     reconnectAttempts := reconnectAttempts m;
     maxReconnectAttempts := maxReconnectAttempts m;
     reconnectDelay := reconnectDelay m;
     heartbeatInterval := heartbeatInterval m;
     heartbeatTimeout := heartbeatTimeout m |}.

Definition set_reconnectAttempts (n : Z) (m : Manager) :=
  {| ws := ws m; urlValid := urlValid m;
     webSocketSupported := webSocketSupported m;
     currentUserId := currentUserId m; currentRoomId := currentRoomId m;
     state := state m; eventListeners := eventListeners m;
     reconnectAttempts := n;
     maxReconnectAttempts := maxReconnectAttempts m;
     reconnectDelay := reconnectDelay m;
     heartbeatInterval := heartbeatInterval m;
     heartbeatTimeout := heartbeatTimeout m |}.

Definition set_heartbeatInterval (b : bool) (m : Manager) :=
  {| ws := ws m; urlValid := urlValid m;
     webSocketSupported := webSocketSupported m;
     currentUserId := currentUserId m; currentRoomId := currentRoomId m;
     state := state m; eventListeners := eventListeners m;
     reconnectAttempts := reconnectAttempts m;
     maxReconnectAttempts := maxReconnectAttempts m;
     reconnectDelay := reconnectDelay m;
     heartbeatInterval := b;
     heartbeatTimeout := heartbeatTimeout m |}.

(** [setReconnectConfig(maxAttempts, delay)] *)
Definition setReconnectConfig (maxAttempts delay : Z) (m : Manager) :=
  {| ws := ws m; urlValid := urlValid m;
     webSocketSupported := webSocketSupported m;
     currentUserId := currentUserId m; currentRoomId := currentRoomId m;
     state := state m; eventListeners := eventListeners m;
     reconnectAttempts := reconnectAttempts m;
     maxReconnectAttempts := maxAttempts;
     reconnectDelay := delay;
     heartbeatInterval := heartbeatInterval m;
     heartbeatTimeout := heartbeatTimeout m |}.

Definition on (event : string) (l : Emitter.Listener Event) (m : Manager) :=
  set_eventListeners (Emitter.on event l (eventListeners m)) m.

Definition off (event : string) (l : Emitter.Listener Event) (m : Manager) :=
  set_eventListeners (Emitter.off event l (eventListeners m)) m.

Record World := {
  mgr : Manager;
  trace : list Effect
}.

Definition M := Js.M World.

Definition getM : M Manager := Js.gets mgr.

Definition modifyM (f : Manager -> Manager) : M unit :=
  Js.modify (fun w => {| mgr := f (mgr w); trace := trace w |}).

Definition log (e : Effect) : M unit :=
  Js.modify (fun w => {| mgr := mgr w; trace := trace w ++ [e] |}).

Definition console (msg : string) : M unit := log (EConsole msg).

(** [emit(event, ...args)] *)
Definition emit (ev : Event) : M unit :=
  fun w =>
    let '(r, obs) :=
      Emitter.emit event_name "Error in signaling event listener for "
        (eventListeners (mgr w)) ev [] in
    (r, {| mgr := mgr w;
           trace := trace w ++ EEmit ev :: map EObs obs |}).

Local Open Scope js_scope.

(** [setState(newState)] *)
Definition setState (newState : SignalingState) : M unit :=
  m <- getM ;;
  if state_eqb (state m) newState then Js.ret tt
  else modifyM (set_state newState) ;; emit (StateChange newState).

(** [stopHeartbeat()] *)
Definition stopHeartbeat : M unit :=
  m <- getM ;;
  if heartbeatInterval m then
    log EClearInterval ;; modifyM (set_heartbeatInterval false)
  else Js.ret tt.

(** [startHeartbeat()] *)
Definition startHeartbeat : M unit :=
  stopHeartbeat ;;
  m <- getM ;;
  log (ESetInterval (heartbeatTimeout m)) ;;
  modifyM (set_heartbeatInterval true).

(** The executor of the promise of [createWebSocketConnection()]: when the
    URL is accepted a socket is created and its four handlers are set;
    otherwise the promise is rejected at once (see [connectFailed]). *)
Definition createWebSocketConnection : M unit :=
  m <- getM ;;
  if urlValid m then
    log (ENewWebSocket (currentUserId m)) ;; modifyM (set_ws true)
  else Js.ret tt.

(** [connect(userId)] up to its [await]. *)
Definition connect (userId : string) : M unit :=
  m <- getM ;;
  match state m with
  | CONNECTED | CONNECTING => Js.ret tt
  | _ =>
      if webSocketSupported m then
        modifyM (set_currentUserId (Some userId)) ;;
        setState CONNECTING ;;
        createWebSocketConnection
      else
        Js.throw (Js.Error "WebSocket is not supported in this environment")
  end.

(** The [catch] block of [connect], run when the promise of
    [createWebSocketConnection] is rejected. *)
Definition connectFailed (error : string) : M unit :=
  setState ERROR ;;
  emit (ErrorEvent
          (Js.Error ("Failed to connect to signaling server: " +++ error))) ;;
  Js.throw error.

(** [attemptReconnect()] *)
Definition attemptReconnect : M unit :=
  m <- getM ;;
  if maxReconnectAttempts m <=? reconnectAttempts m then
    emit (ErrorEvent (Js.Error "Max reconnection attempts reached"))
  else
    modifyM (fun m => set_reconnectAttempts (reconnectAttempts m + 1) m) ;;
    m <- getM ;;
    let delay := reconnectDelay m * 2 ^ (reconnectAttempts m - 1) in
    console "Attempting to reconnect" ;;
    log (ESetTimeout delay).

(** [ws.onopen] *)
Definition onopen : M unit :=
  console "Signaling server connected" ;;
  setState CONNECTED ;;
  modifyM (set_reconnectAttempts 0) ;;
  startHeartbeat.

(** [ws.onclose] *)
Definition onclose (code : Z) : M unit :=
  console "Signaling server disconnected:" ;;
  setState DISCONNECTED ;;
  stopHeartbeat ;;
  m <- getM ;;
  if negb (code =? 1000)
     && (reconnectAttempts m <? maxReconnectAttempts m)
  then attemptReconnect
  else Js.ret tt.

(** [ws.onerror]; the call of [reject] is the input [ConnectRejected]. *)
Definition onerror : M unit :=
  console "Signaling server error:" ;;
  emit (ErrorEvent (Js.Error "WebSocket connection error")).

(** The callback that [attemptReconnect] gives to [setTimeout]. *)
Definition reconnectTimer : M unit :=
  m <- getM ;;
  match currentUserId m with
  | Some userId =>
      Js.tryCatch (connect userId) (fun error => console "Reconnection failed:")
  | None => Js.ret tt
  end.

(** [sendMessage(message)]; [wsOpen] is
    [this.ws.readyState === WebSocket.OPEN], and [send] on an open socket
    does not throw. *)
Definition sendMessage (wsOpen : bool) (message : SignalingMessage)
  : M bool :=
  m <- getM ;;
  if ws m && wsOpen then log (EWsSend message) ;; Js.ret true
  else console "WebSocket is not connected" ;; Js.ret false.

(** [joinRoom(roomId)] *)
Definition joinRoom (wsOpen : bool) (roomId : string) : M bool :=
  m <- getM ;;
  if state_eqb (state m) CONNECTED then
    success <- sendMessage wsOpen
      {| msg_type := "join"; msg_from := currentUserId m;
         msg_peerId := Some roomId |} ;;
    (if success : bool then modifyM (set_currentRoomId (Some roomId))
     else Js.ret tt) ;;
    Js.ret success
  else
    emit (ErrorEvent (Js.Error "Not connected to signaling server")) ;;
    Js.ret false.

(** [leaveRoom()] *)
Definition leaveRoom (wsOpen : bool) : M bool :=
  m <- getM ;;
  match currentRoomId m with
  | None => Js.ret true
  | Some roomId =>
      success <- sendMessage wsOpen
        {| msg_type := "peer-left"; msg_from := currentUserId m;
           msg_peerId := Some roomId |} ;;
      (if success : bool then modifyM (set_currentRoomId None)
       else Js.ret tt) ;;
      Js.ret success
  end.

(** [disconnect()] *)
Definition disconnect (wsOpen : bool) : M unit :=
  stopHeartbeat ;;
  m <- getM ;;
  (if ws m then
     (match currentRoomId m with
      | Some _ => _ <- leaveRoom wsOpen ;; Js.ret tt
      | None => Js.ret tt
      end) ;;
     log (EWsClose 1000) ;;
     modifyM (set_ws false)
   else Js.ret tt) ;;
  setState DISCONNECTED ;;
  modifyM (set_currentUserId None) ;;
  modifyM (set_currentRoomId None) ;;
  modifyM (set_reconnectAttempts 0).

(** What can happen to a manager: a call of its interface, a callback of a
    socket it created, the rejection of a pending [connect], or the firing
    of a reconnection timer. *)
Inductive Input :=
| CallConnect (userId : string)
| CallJoinRoom (wsOpen : bool) (roomId : string)
| CallDisconnect (wsOpen : bool)
| WsOpen
| WsClose (code : Z)
| WsError
| ConnectRejected (error : string)
| ReconnectTimer.

Definition handle (i : Input) : M unit :=
  match i with
  | CallConnect userId => connect userId
  | CallJoinRoom wsOpen roomId => _ <- joinRoom wsOpen roomId ;; Js.ret tt
  | CallDisconnect wsOpen => disconnect wsOpen
  | WsOpen => onopen
  | WsClose code => onclose code
  | WsError => onerror
  | ConnectRejected error => connectFailed error
  | ReconnectTimer => reconnectTimer
  end.

(** One input, from the fields [m]: the fields afterwards and the effects
    of the step. *)
Definition step (i : Input) (m : Manager) : Manager * list Effect :=
  let w := snd (handle i {| mgr := m; trace := [] |}) in
  (mgr w, trace w).

(** The delays given to [setTimeout]. *)
Definition timeouts (tr : list Effect) : list Z :=
  flat_map (fun e => match e with ESetTimeout d => [d] | _ => [] end) tr.

(** A run: the fields after the inputs, and the delays of the
    reconnections scheduled since the attempt counter was last zero. *)
Fixpoint run (ins : list Input) (m : Manager) (streak : list Z)
  : Manager * list Z :=
  match ins with
  | [] => (m, streak)
  | i :: rest =>
      let '(m', tr) := step i m in
      run rest m'
        (if reconnectAttempts m' =? 0 then [] else streak ++ timeouts tr)
  end.

(** The delays of attempts [1..n] under base delay [d]:
    [d * 2^0, ..., d * 2^(n-1)]. *)
Definition backoff (d : Z) (n : nat) : list Z :=
  map (fun k => d * 2 ^ (Z.of_nat k)) (seq 0 n).

(** What a call [emit(ev)] adds to the trace. *)
Definition told (m : Manager) (ev : Event) : list Effect :=
  EEmit ev
  :: map EObs
       (Emitter.reactions event_name
          "Error in signaling event listener for " (eventListeners m) ev).

(** ** The rest of the interface, and what a run shows *)

Definition set_heartbeatTimeout (t : Z) (m : Manager) :=
  {| ws := ws m; urlValid := urlValid m;
     webSocketSupported := webSocketSupported m;
     currentUserId := currentUserId m; currentRoomId := currentRoomId m;
     state := state m; eventListeners := eventListeners m;
     reconnectAttempts := reconnectAttempts m;
     maxReconnectAttempts := maxReconnectAttempts m;
     reconnectDelay := reconnectDelay m;
     heartbeatInterval := heartbeatInterval m;
     heartbeatTimeout := t |}.

(** [setHeartbeatTimeout(timeout)] *)
Definition setHeartbeatTimeout (timeout : Z) : M unit :=
  modifyM (set_heartbeatTimeout timeout) ;;
  m <- getM ;;
  if heartbeatInterval m then startHeartbeat else Js.ret tt.

(** The callback that [startHeartbeat] gives to [setInterval]. *)
Definition heartbeatTick (wsOpen : bool) : M unit :=
  m <- getM ;;
  if ws m && wsOpen then
    log (EWsSend {| msg_type := "ping"; msg_from := None;
                    msg_peerId := None |})
  else Js.ret tt.

(** [destroy()] *)
Definition destroy (wsOpen : bool) : M unit :=
  disconnect wsOpen ;;
  modifyM (set_eventListeners JsMap.empty).

(** The inputs of [Input], the other calls of the interface, and the
    firing of the heartbeat timer. *)
Inductive Action :=
| Do (i : Input)
| CallLeaveRoom (wsOpen : bool)
| CallSetReconnectConfig (maxAttempts delay : Z)
| CallSetHeartbeatTimeout (timeout : Z)
| CallOn (event : string) (l : Emitter.Listener Event)
| CallOff (event : string) (l : Emitter.Listener Event)
| CallDestroy (wsOpen : bool)
| HeartbeatTimer (wsOpen : bool).

Definition act (a : Action) : M unit :=
  match a with
  | Do i => handle i
  | CallLeaveRoom wsOpen => _ <- leaveRoom wsOpen ;; Js.ret tt
  | CallSetReconnectConfig maxAttempts delay =>
      modifyM (setReconnectConfig maxAttempts delay)
  | CallSetHeartbeatTimeout timeout => setHeartbeatTimeout timeout
  | CallOn event l => modifyM (on event l)
  | CallOff event l => modifyM (off event l)
  | CallDestroy wsOpen => destroy wsOpen
  | HeartbeatTimer wsOpen => heartbeatTick wsOpen
  end.

(** The world after a sequence of actions, each returned or thrown. *)
Definition runActions (acts : list Action) (w : World) : World :=
  fold_left (fun w a => snd (act a w)) acts w.

(** The states that [state-change] events announced, in order. *)
Definition stateChanges (tr : list Effect) : list SignalingState :=
  flat_map (fun e => match e with
                     | EEmit (StateChange s) => [s]
                     | _ => []
                     end) tr.

(** The events that [emit] was called with, in order. *)
Definition emitted (tr : list Effect) : list Event :=
  flat_map (fun e => match e with EEmit ev => [ev] | _ => [] end) tr.

(** The messages handed to the socket, in order. *)
Definition wsSends (tr : list Effect) : list SignalingMessage :=
  flat_map (fun e => match e with EWsSend m => [m] | _ => [] end) tr.

(** The sockets created and the sockets closed by the manager. *)
Definition socketsOpened (tr : list Effect) : list (option string) :=
  flat_map (fun e => match e with ENewWebSocket u => [u] | _ => [] end) tr.

Definition socketsClosed (tr : list Effect) : list Z :=
  flat_map (fun e => match e with EWsClose c => [c] | _ => [] end) tr.

(** No state is announced twice in a row, nor is [prev] announced
    first. *)
Fixpoint alternates (prev : SignalingState) (l : list SignalingState)
  : bool :=
  match l with
  | [] => true
  | s :: rest => negb (state_eqb prev s) && alternates s rest
  end.

(** The heartbeat timers of a trace, from [live] (whether an interval is
    running): [None] when an interval is set while one is running or
    cleared while none is; otherwise whether one is running at the end. *)
Fixpoint timers (live : bool) (tr : list Effect) : option bool :=
  match tr with
  | [] => Some live
  | ESetInterval _ :: rest => if live then None else timers true rest
  | EClearInterval :: rest => if live then timers false rest else None
  | _ :: rest => timers live rest
  end.

(** What every run keeps: the announced states alternate and end in the
    current state, and the heartbeat timers are as the field
    [heartbeatInterval] says. *)
Definition steady (w : World) : Prop :=
  alternates DISCONNECTED (stateChanges (trace w)) = true
  /\ last (stateChanges (trace w)) DISCONNECTED = state (mgr w)
  /\ timers false (trace w) = Some (heartbeatInterval (mgr w)).

(** A computation that keeps [steady]. *)
Definition keeps {A} (c : M A) : Prop :=
  forall w, steady w -> steady (snd (c w)).

(** A change of the fields that leaves [state] and [heartbeatInterval]
    alone. *)
Definition quiet (f : Manager -> Manager) : Prop :=
  forall m, state (f m) = state m
            /\ heartbeatInterval (f m) = heartbeatInterval m.

End Signaling.

(* ================================================================== *)
(** * [WebRTCManager] (webRTC.ts): [emit] and [sendFileInChunks] *)

Module WebRTC.

Definition byte := Byte.byte.

Inductive FileTransferStatus :=
| PENDING | PREPARING | TRANSFERRING | PAUSED | COMPLETED | FAILED
| CANCELLED.

(** [FileTransfer]; [progress] is the fraction
    [progress_num / progress_den] (a percentage). *)
Record FileTransfer := {
  ft_id : string;
  fileName : string;
  fileSize : Z;
  progress_num : Z;
  progress_den : Z;
  status : FileTransferStatus;
  sender : string;
  receiver : string
}.

Definition set_status (s : FileTransferStatus) (t : FileTransfer) :=
  {| ft_id := ft_id t; fileName := fileName t; fileSize := fileSize t;
     progress_num := progress_num t; progress_den := progress_den t;
     status := s; sender := sender t; receiver := receiver t |}.

Definition set_progress (num den : Z) (t : FileTransfer) :=
  {| ft_id := ft_id t; fileName := fileName t; fileSize := fileSize t;
     progress_num := num; progress_den := den;
     status := status t; sender := sender t; receiver := receiver t |}.

(** The events of [WebRTCEvents]; connection states, messages and streams
    are opaque strings. *)
Inductive Event :=
| ConnectionStateChange (state peerId : string)
| PeerConnected (peerId : string)
| PeerDisconnected (peerId : string)
| MessageReceived (message peerId : string)
| FileTransferProgress (t : FileTransfer)
| MediaStreamReceived (stream peerId : string)
| DataChannelOpen (peerId : string)
| ErrorEvent (error : string) (peerId : option string).

Definition event_name (ev : Event) : string :=
  match ev with
  | ConnectionStateChange _ _ => "connection-state-change"
  | PeerConnected _ => "peer-connected"
  | PeerDisconnected _ => "peer-disconnected"
  | MessageReceived _ _ => "message-received"
  | FileTransferProgress _ => "file-transfer-progress"
  | MediaStreamReceived _ _ => "media-stream-received"
  | DataChannelOpen _ => "data-channel-open"
  | ErrorEvent _ _ => "error"
  end.

(** [emit(event, ...args)] *)
Definition emit (ls : Emitter.Listeners Event) (ev : Event)
  : Js.M (list (Emitter.Obs Event)) unit :=
  Emitter.emit event_name "Error in event listener for " ls ev.

(** ** Sending a file in chunks *)

Definition CHUNK_SIZE : Z := 16384.

(** The limit on [dataChannel.bufferedAmount]. *)
Definition BUFFER_LIMIT : Z := 16777216.

(** What [sendFileInChunks] does to the channel and to the listeners, in
    order. *)
Inductive Action :=
| ReadBuffered (v : Z)        (* [dataChannel.bufferedAmount] is read as [v] *)
| Sleep (ms : Z)              (* [await] of a 10 ms timer *)
| Send (d : list byte)        (* [dataChannel.send(arrayBuffer)] *)
| Emit (ev : Event).          (* [this.emit(...)] *)

(** The channel is its sequence of readings: [env t] is the value of
    [bufferedAmount] at the [t]-th read. The readings are whatever the
    browser reports: they may depend on the data sent so far. *)
Definition Channel := nat -> Z.

(** [while (dataChannel.bufferedAmount > 16777216) { await ... }] with at
    most [fuel] reads; the result is the number of reads made so far when
    the loop is left, or [None] when the fuel runs out first. *)
Fixpoint waitForBuffer (fuel : nat) (env : Channel) (t : nat)
  : option nat * list Action :=
  match fuel with
  | O => (None, [])
  | S fuel' =>
      let v := env t in
      if v >? BUFFER_LIMIT then
        let '(r, tr) := waitForBuffer fuel' env (S t) in
        (r, ReadBuffered v :: Sleep 10 :: tr)
      else (Some (S t), [ReadBuffered v])
  end.

(** [file.slice(start, end)] then [arrayBuffer()]. *)
Definition chunkAt (content : list byte) (i : Z) : list byte :=
  let start := i * CHUNK_SIZE in
  let end_ := Z.min (start + CHUNK_SIZE) (Z.of_nat (List.length content)) in
  FileTransfer.slice content start end_.

(** The update of the progress after a chunk. *)
Definition progressStep (fileTransfer : option FileTransfer)
    (sentChunks totalChunks : Z) : option FileTransfer * list Action :=
  match fileTransfer with
  | Some t =>
      let t' := set_progress (sentChunks * 100) totalChunks t in
      (Some t', [Emit (FileTransferProgress t')])
  | None => (None, [])
  end.

(** The [for] loop of [sendFileInChunks] with [n] iterations left: the
    result tells whether the loop ended, the record of the transfer and
    the number of reads of [bufferedAmount]. Each wait has [fuel] reads. *)
Fixpoint sendLoop (fuel : nat) (env : Channel) (content : list byte)
    (totalChunks : Z) (n : nat) (i sentChunks : Z)
    (fileTransfer : option FileTransfer) (t : nat)
  : bool * option FileTransfer * list Action :=
  match n with
  | O => (true, fileTransfer, [])
  | S n' =>
      let arrayBuffer := chunkAt content i in
      match waitForBuffer fuel env t with
      | (None, tr) => (false, fileTransfer, tr)
      | (Some t', tr) =>
          let sentChunks := sentChunks + 1 in
          let '(fileTransfer', tr1) :=
            progressStep fileTransfer sentChunks totalChunks in
          let '(done, fileTransfer'', tr2) :=
            sendLoop fuel env content totalChunks n' (i + 1) sentChunks
              fileTransfer' t' in
          (done, fileTransfer'', tr ++ Send arrayBuffer :: tr1 ++ tr2)
      end
  end.

(** [sendFileInChunks(dataChannel, file, transferId)]; [fileTransfer] is
    [this.fileTransfers.get(transferId)]. The channel stays open: [send]
    does not throw. *)
Definition sendFileInChunks (fuel : nat) (env : Channel)
    (content : list byte) (fileTransfer : option FileTransfer)
  : bool * option FileTransfer * list Action :=
  let totalChunks :=
    FileTransfer.Math_ceil_div (Z.of_nat (List.length content)) CHUNK_SIZE in
  let fileTransfer := option_map (set_status TRANSFERRING) fileTransfer in
  let '(done, fileTransfer, tr) :=
    sendLoop fuel env content totalChunks (Z.to_nat totalChunks) 0 0
      fileTransfer 0%nat in
  if done : bool then
    match fileTransfer with
    | Some t =>
        let t' := set_progress 100 1 (set_status COMPLETED t) in
        (true, Some t', tr ++ [Emit (FileTransferProgress t')])
    | None => (true, None, tr)
    end
  else (false, fileTransfer, tr).

(** The chunks of a file, in index order. *)
Definition fileChunks (content : list byte) : list (list byte) :=
  map (chunkAt content)
    (indices 0
       (Z.to_nat
          (FileTransfer.Math_ceil_div (Z.of_nat (List.length content))
             CHUNK_SIZE))).

(** The data handed to the channel, in order. *)
Definition sends (tr : list Action) : list (list byte) :=
  flat_map (fun a => match a with Send d => [d] | _ => [] end) tr.

(** Every [Send] comes directly after a read of [bufferedAmount] that did
    not exceed the limit; [last] is the value read by the action just
    before, if that was a read. *)
Fixpoint sendsGuarded (last : option Z) (tr : list Action) : bool :=
  match tr with
  | [] => true
  | ReadBuffered v :: rest => sendsGuarded (Some v) rest
  | Send _ :: rest =>
      match last with
      | Some v => (v <=? BUFFER_LIMIT) && sendsGuarded None rest
      | None => false
      end
  | _ :: rest => sendsGuarded None rest
  end.

(** The events that [sendFileInChunks] emits, in order. *)
Definition emits (tr : list Action) : list Event :=
  flat_map (fun a => match a with Emit ev => [ev] | _ => [] end) tr.

End WebRTC.

(* ================================================================== *)
(** * [WebRTCManager]: peers, messages and files (webRTC.ts) *)

Module Peers.

(** [ConnectionState] *)
Inductive ConnectionState :=
| DISCONNECTED | CONNECTING | CONNECTED | FAILED | CLOSED.

(** The value of a member of [ConnectionState]. *)
Definition stateValue (s : ConnectionState) : string :=
  match s with
  | DISCONNECTED => "disconnected"
  | CONNECTING => "connecting"
  | CONNECTED => "connected"
  | FAILED => "failed"
  | CLOSED => "closed"
  end.

(** [mapConnectionState(state)] *)
Definition mapConnectionState (state : string) : ConnectionState :=
  if String.eqb state "connecting" then CONNECTING
  else if String.eqb state "connected" then CONNECTED
  else if String.eqb state "disconnected" then DISCONNECTED
  else if String.eqb state "failed" then FAILED
  else if String.eqb state "closed" then CLOSED
  else DISCONNECTED.

(** An [RTCDataChannel] object, named by a number. *)
Definition DataChannel := nat.

(** What a channel is like when a call is made: whether its [readyState]
    is ['open'], and the error that [send] throws, if it throws. *)
Record ChannelNow := {
  isOpen : bool;
  sendThrows : option string
}.

(** The channels as the browser has them during a call. *)
Definition Browser := DataChannel -> ChannelNow.

(** [Peer]: its id, its data channel and whether it has a media stream;
    the connection is named by the id. *)
Record Peer := {
  id : string;
  dataChannel : option DataChannel;
  mediaStream : bool
}.

(** [Message] *)
Record Message := {
  msg_type : string;
  content : string;
  sender : string;
  timestamp : Z;
  msg_id : string;
  from : string;
  fileName : string;
  fileSize : Z
}.

Record Manager := {
  peers : JsMap.t string Peer;
  localStream : bool;                    (* this.localStream !== null *)
  eventListeners : Emitter.Listeners WebRTC.Event;
  fileTransfers : JsMap.t string WebRTC.FileTransfer
}.

(** [new WebRTCManager(config)] *)
Definition new : Manager :=
  {| peers := JsMap.empty; localStream := false;
     eventListeners :=
       Emitter.initializeEventMaps WebRTC.Event
         ["connection-state-change"; "peer-connected"; "peer-disconnected";
          "message-received"; "file-transfer-progress";
          "media-stream-received"; "data-channel-open"; "error"];
     fileTransfers := JsMap.empty |}.

Definition set_peers (p : JsMap.t string Peer) (m : Manager) :=
  {| peers := p; localStream := localStream m;
     eventListeners := eventListeners m; fileTransfers := fileTransfers m |}.

Definition set_localStream (b : bool) (m : Manager) :=
  {| peers := peers m; localStream := b;
     eventListeners := eventListeners m; fileTransfers := fileTransfers m |}.

Definition set_eventListeners (l : Emitter.Listeners WebRTC.Event)
    (m : Manager) :=
  {| peers := peers m; localStream := localStream m;
     eventListeners := l; fileTransfers := fileTransfers m |}.

Definition set_fileTransfers (f : JsMap.t string WebRTC.FileTransfer)
    (m : Manager) :=
  {| peers := peers m; localStream := localStream m;
     eventListeners := eventListeners m; fileTransfers := f |}.

(** What the manager does, in order. *)
Inductive Effect :=
| EEmit (ev : WebRTC.Event)                 (* [emit] is called *)
| EObs (o : Emitter.Obs WebRTC.Event)       (* what [emit] does *)
| ESendText (peerId : string) (m : Message) (* dataChannel.send(JSON) *)
| EChannel (peerId : string) (a : WebRTC.Action)
                                   (* a step of [sendFileInChunks] *)
| ECloseChannel (peerId : string)           (* peer.dataChannel.close() *)
| ECloseConnection (peerId : string)        (* peer.connection.close() *)
| EStopStream (peerId : string)             (* the tracks of the peer *)
| EStopLocalStream                          (* the local tracks *)
| EAddTracks (peerId : string)              (* connection.addTrack(...) *)
| EConsole (msg : string).

Record World := {
  mgr : Manager;
  trace : list Effect
}.

Definition M := Js.M World.

Definition getM : M Manager := Js.gets mgr.

Definition modifyM (f : Manager -> Manager) : M unit :=
  Js.modify (fun w => {| mgr := f (mgr w); trace := trace w |}).

Definition log (e : Effect) : M unit :=
  Js.modify (fun w => {| mgr := mgr w; trace := trace w ++ [e] |}).

(** What a call [emit(ev)] adds to the trace. *)
Definition told (m : Manager) (ev : WebRTC.Event) : list Effect :=
  EEmit ev
  :: map EObs
       (Emitter.reactions WebRTC.event_name "Error in event listener for "
          (eventListeners m) ev).

(** [emit(event, ...args)] *)
Definition emit (ev : WebRTC.Event) : M unit :=
  fun w =>
    let '(r, obs) := WebRTC.emit (eventListeners (mgr w)) ev [] in
    (r, {| mgr := mgr w; trace := trace w ++ EEmit ev :: map EObs obs |}).

Local Open Scope js_scope.

(** [createPeerConnection(peerId)]; [supported] tells whether the browser
    has [RTCPeerConnection]. The handlers of the connection are
    [onconnectionstatechange] and [ondatachannel] below. *)
Definition createPeerConnection (supported : bool) (peerId : string)
  : M Peer :=
  if supported then
    let peer := {| id := peerId; dataChannel := None;
                   mediaStream := false |} in
    m <- getM ;;
    (if localStream m then log (EAddTracks peerId) else Js.ret tt) ;;
    modifyM (fun m => set_peers (JsMap.set peerId peer (peers m)) m) ;;
    Js.ret peer
  else
    let error :=
      Js.Error "RTCPeerConnection is not supported in this browser" in
    emit (WebRTC.ErrorEvent
            (Js.Error ("Failed to create peer connection: " +++ error))
            (Some peerId)) ;;
    Js.throw error.

(** [peer.dataChannel = dataChannel] on the peer stored under [peerId]. *)
Definition set_dataChannel (c : option DataChannel) (p : Peer) : Peer :=
  {| id := id p; dataChannel := c; mediaStream := mediaStream p |}.

(** [createDataChannel(peerId, label)]; [created] is the result of
    [peer.connection.createDataChannel], a channel or an error. *)
Definition createDataChannel (created : DataChannel + string)
    (peerId : string) : M (option DataChannel) :=
  m <- getM ;;
  match JsMap.get peerId (peers m) with
  | None =>
      emit (WebRTC.ErrorEvent (Js.Error "Peer not found") (Some peerId)) ;;
      Js.ret None
  | Some _ =>
      match created with
      | inl ch =>
          modifyM (fun m =>
            set_peers
              (JsMap.update peerId (set_dataChannel (Some ch)) (peers m))
              m) ;;
          Js.ret (Some ch)
      | inr error =>
          emit (WebRTC.ErrorEvent
                  (Js.Error ("Failed to create data channel: " +++ error))
                  (Some peerId)) ;;
          Js.ret None
      end
  end.

(** [peer?.dataChannel] when it is there and its [readyState] is
    ['open']. *)
Definition openChannel (br : Browser) (peerId : string) (m : Manager)
  : option DataChannel :=
  match JsMap.get peerId (peers m) with
  | Some peer =>
      match dataChannel peer with
      | Some ch => if isOpen (br ch) then Some ch else None
      | None => None
      end
  | None => None
  end.

(** [sendMessage(peerId, content)]; [now] is [Date.now()]. *)
Definition sendMessage (br : Browser) (now : Z) (peerId content_ : string)
  : M bool :=
  m <- getM ;;
  match openChannel br peerId m with
  | None =>
      emit (WebRTC.ErrorEvent (Js.Error "Data channel not available")
              (Some peerId)) ;;
      Js.ret false
  | Some ch =>
      let message :=
        {| msg_type := "text"; content := content_; sender := "local";
           timestamp := now; msg_id := ""; from := ""; fileName := "";
           fileSize := 0 |} in
      match sendThrows (br ch) with
      | None => log (ESendText peerId message) ;; Js.ret true
      | Some error =>
          emit (WebRTC.ErrorEvent
                  (Js.Error ("Failed to send message: " +++ error))
                  (Some peerId)) ;;
          Js.ret false
      end
  end.

(** The steps of [sendFileInChunks] as effects of the manager. *)
Definition channelSteps (m : Manager) (peerId : string)
    (tr : list WebRTC.Action) : list Effect :=
  flat_map (fun a => match a with
                     | WebRTC.Emit ev => told m ev
                     | _ => [EChannel peerId a]
                     end) tr.

(** What a call of [sendFile] comes to: it returns the id of the
    transfer or [null], or it is still waiting for the buffer when the
    fuel is used up. *)
Inductive SendResult :=
| Returned (transferId : option string)
| Waiting.

(** [sendFile(peerId, file)]; [transferId] is the result of
    [generateTransferId()], [now] the one of [Date.now()]; [env] gives the
    readings of [bufferedAmount] and [fuel] bounds each wait. The
    channel is as [br] has it for the whole call. *)
Definition sendFile (br : Browser) (fuel : nat) (env : WebRTC.Channel)
    (transferId : string) (now : Z) (peerId : string)
    (file : FileTransfer.File) : M SendResult :=
  m <- getM ;;
  match openChannel br peerId m with
  | None =>
      emit (WebRTC.ErrorEvent (Js.Error "Data channel not available")
              (Some peerId)) ;;
      Js.ret (Returned None)
  | Some ch =>
      let fileTransfer :=
        {| WebRTC.ft_id := transferId;
           WebRTC.fileName := FileTransfer.name file;
           WebRTC.fileSize := FileTransfer.size file;
           WebRTC.progress_num := 0; WebRTC.progress_den := 1;
           WebRTC.status := WebRTC.PENDING;
           WebRTC.sender := "local"; WebRTC.receiver := peerId |} in
      let fileInfo :=
        {| msg_type := "file"; content := transferId; sender := "local";
           timestamp := now; msg_id := ""; from := "";
           fileName := FileTransfer.name file;
           fileSize := FileTransfer.size file |} in
      modifyM (fun m =>
        set_fileTransfers
          (JsMap.set transferId fileTransfer (fileTransfers m)) m) ;;
      match sendThrows (br ch) with
      | Some error =>
          emit (WebRTC.ErrorEvent
                  (Js.Error ("Failed to send file: " +++ error))
                  (Some peerId)) ;;
          Js.ret (Returned None)
      | None =>
          log (ESendText peerId fileInfo) ;;
          m <- getM ;;
          let '(done, fileTransfer', tr) :=
            WebRTC.sendFileInChunks fuel env (FileTransfer.bytes file)
              (JsMap.get transferId (fileTransfers m)) in
          Js.modify (fun w =>
            {| mgr :=
                 match fileTransfer' with
                 | Some t =>
                     set_fileTransfers
                       (JsMap.update transferId (fun _ => t)
                          (fileTransfers (mgr w)))
                       (mgr w)
                 | None => mgr w
                 end;
               trace := trace w ++ channelSteps (mgr w) peerId tr |}) ;;
          Js.ret (if done : bool then Returned (Some transferId)
                  else Waiting)
      end
  end.

(** [removePeer(peerId)] *)
Definition removePeer (peerId : string) : M unit :=
  m <- getM ;;
  match JsMap.get peerId (peers m) with
  | None => Js.ret tt
  | Some peer =>
      (match dataChannel peer with
       | Some _ => log (ECloseChannel peerId)
       | None => Js.ret tt
       end) ;;
      log (ECloseConnection peerId) ;;
      (if mediaStream peer then log (EStopStream peerId) else Js.ret tt) ;;
      modifyM (fun m => set_peers (JsMap.delete peerId (peers m)) m)
  end.

(** [closeAllConnections()]: the loop visits the peers that the table
    holds when it starts; [removePeer] removes the peer visited. *)
Definition closeAllConnections : M unit :=
  m <- getM ;;
  Js.forEach (JsMap.keys (peers m)) removePeer ;;
  m <- getM ;;
  if localStream m then
    log EStopLocalStream ;; modifyM (set_localStream false)
  else Js.ret tt.

(** [connection.onconnectionstatechange] of the connection created for
    [peerId]; [state] is [connection.connectionState]. *)
Definition onconnectionstatechange (peerId state : string) : M unit :=
  let s := mapConnectionState state in
  emit (WebRTC.ConnectionStateChange (stateValue s) peerId) ;;
  match s with
  | CONNECTED => emit (WebRTC.PeerConnected peerId)
  | CLOSED | FAILED =>
      emit (WebRTC.PeerDisconnected peerId) ;; removePeer peerId
  | _ => Js.ret tt
  end.

(** [getPeer(peerId)] *)
Definition getPeer (peerId : string) (m : Manager) : option Peer :=
  JsMap.get peerId (peers m).

(** [destroy()] *)
Definition destroy : M unit :=
  closeAllConnections ;;
  modifyM (set_eventListeners JsMap.empty) ;;
  modifyM (set_fileTransfers JsMap.empty).

(** The events that [emit] was called with, in order. *)
Definition emitted (tr : list Effect) : list WebRTC.Event :=
  flat_map (fun e => match e with EEmit ev => [ev] | _ => [] end) tr.

(** The text messages handed to a channel, with the peer, in order. *)
Definition texts (tr : list Effect) : list (string * Message) :=
  flat_map (fun e => match e with
                     | ESendText p m => [(p, m)]
                     | _ => []
                     end) tr.

(** The chunks handed to a channel, in order. *)
Definition chunksSent (tr : list Effect) : list (list WebRTC.byte) :=
  flat_map (fun e => match e with
                     | EChannel _ (WebRTC.Send d) => [d]
                     | _ => []
                     end) tr.

(** The connections closed, in order. *)
Definition closed (tr : list Effect) : list string :=
  flat_map (fun e => match e with
                     | ECloseConnection p => [p]
                     | _ => []
                     end) tr.

End Peers.

(* ================================================================== *)
(** * [RoomService] of the relay (roomService.ts) *)

Module RoomService.

(** A connected client; [ws] names its socket. *)
Record Client := {
  id : string;
  ws : nat;
  roomId : string
}.

Record Room := {
  room_id : string;
  name : string;
  clients : JsMap.t string Client
}.

Inductive MessageType := JOIN | LEAVE | SIGNAL | ERROR.

Record SignalingMessage := {
  type : MessageType;
  from : string;
  to : string;
  msg_roomId : string
}.

Record Service := {
  rooms : JsMap.t string Room;
  all_clients : JsMap.t string Client      (* this.clients *)
}.

(** A call [sendToClient(client, message)], that is
    [client.ws.send(JSON.stringify(message))]. *)
Definition Sent : Type := Client * SignalingMessage.

(** [new RoomService()] *)
Definition new : Service :=
  {| rooms := JsMap.empty; all_clients := JsMap.empty |}.

Definition set_clients (c : JsMap.t string Client) (r : Room) : Room :=
  {| room_id := room_id r; name := name r; clients := c |}.

(** [createRoom(name)]; [uuid] is the result of [uuidv4()]. *)
Definition createRoom (uuid : string) (name_ : string) (s : Service)
  : Service * Room :=
  let room := {| room_id := uuid; name := name_; clients := JsMap.empty |} in
  ({| rooms := JsMap.set uuid room (rooms s);
      all_clients := all_clients s |}, room).

Definition getRoom (roomId_ : string) (s : Service) : option Room :=
  JsMap.get roomId_ (rooms s).

Definition deleteRoom (roomId_ : string) (s : Service) : Service * bool :=
  ({| rooms := JsMap.delete roomId_ (rooms s);
      all_clients := all_clients s |},
   JsMap.has roomId_ (rooms s)).

Definition getAllRooms (s : Service) : list Room := JsMap.values (rooms s).

Definition addClientToRoom (roomId_ : string) (client : Client)
    (s : Service) : Service * bool :=
  match JsMap.get roomId_ (rooms s) with
  | None => (s, false)
  | Some _ =>
      ({| rooms :=
            JsMap.update roomId_
              (fun room =>
                 set_clients (JsMap.set (id client) client (clients room))
                   room)
              (rooms s);
          all_clients := JsMap.set (id client) client (all_clients s) |},
       true)
  end.

Definition removeClientFromRoom (roomId_ clientId : string) (s : Service)
  : Service * bool :=
  match JsMap.get roomId_ (rooms s) with
  | None => (s, false)
  | Some _ =>
      ({| rooms :=
            JsMap.update roomId_
              (fun room =>
                 set_clients (JsMap.delete clientId (clients room)) room)
              (rooms s);
          all_clients := JsMap.delete clientId (all_clients s) |},
       true)
  end.

Definition getRoomClients (roomId_ : string) (s : Service) : list Client :=
  match JsMap.get roomId_ (rooms s) with
  | None => []
  | Some room => JsMap.values (clients room)
  end.

(** [hasRoom(roomId)] *)
Definition hasRoom (roomId_ : string) (s : Service) : bool :=
  JsMap.has roomId_ (rooms s).

Definition hasClientInRoom (roomId_ clientId : string) (s : Service)
  : bool :=
  match JsMap.get roomId_ (rooms s) with
  | None => false
  | Some room => JsMap.has clientId (clients room)
  end.

Definition getClient (clientId : string) (s : Service) : option Client :=
  JsMap.get clientId (all_clients s).

(** The two notifications that [joinRoom] sends for one other member. *)
Definition joinNotices (roomId_ : string) (client otherClient : Client)
  : list Sent :=
  if negb (String.eqb (id otherClient) (id client)) then
    [ (otherClient,
       {| type := JOIN; from := id client; to := id otherClient;
          msg_roomId := roomId_ |});
      (client,
       {| type := JOIN; from := id otherClient; to := id client;
          msg_roomId := roomId_ |}) ]
  else [].

(** [joinRoom(roomId, client)]: the state afterwards and the messages
    sent, in order. The room found under [roomId] is mutated in place, so
    it keeps its position in [this.rooms]. *)
Definition joinRoom (roomId_ : string) (client : Client) (s : Service)
  : Service * list Sent :=
  let room :=
    match JsMap.get roomId_ (rooms s) with
    | Some room => room
    | None =>
        {| room_id := roomId_; name := "default"; clients := JsMap.empty |}
    end in
  let room := set_clients (JsMap.set (id client) client (clients room)) room in
  ({| rooms := JsMap.set roomId_ room (rooms s);
      all_clients := JsMap.set (id client) client (all_clients s) |},
   flat_map (joinNotices roomId_ client) (JsMap.values (clients room))).

(** [leaveRoom(clientId)] *)
Definition leaveRoom (clientId : string) (s : Service)
  : Service * list Sent :=
  match JsMap.get clientId (all_clients s) with
  | None => (s, [])
  | Some client =>
      match JsMap.get (roomId client) (rooms s) with
      | None => (s, [])
      | Some room =>
          let room' :=
            set_clients (JsMap.delete clientId (clients room)) room in
          let rooms1 :=
            JsMap.update (roomId client) (fun _ => room') (rooms s) in
          let out :=
            map (fun otherClient =>
                   (otherClient,
                    {| type := LEAVE; from := clientId;
                       to := id otherClient;
                       msg_roomId := roomId client |}))
                (JsMap.values (clients room')) in
          ({| rooms :=
                if JsMap.size (clients room') =? 0
                then JsMap.delete (room_id room') rooms1
                else rooms1;
              all_clients := JsMap.delete clientId (all_clients s) |},
           out)
      end
  end.

(** The two operations of the relay on the room table. *)
Inductive Op :=
| Join (roomId_ : string) (client : Client)
| Leave (clientId : string).

Definition apply (o : Op) (s : Service) : Service :=
  match o with
  | Join roomId_ client => fst (joinRoom roomId_ client s)
  | Leave clientId => fst (leaveRoom clientId s)
  end.

Definition runOps (ops : list Op) (s : Service) : Service :=
  fold_left (fun s o => apply o s) ops s.

Definition client_eqb (a b : Client) : bool :=
  String.eqb (id a) (id b) && Nat.eqb (ws a) (ws b)
  && String.eqb (roomId a) (roomId b).

(** The messages of a list of sends whose recipient is [c]. *)
Definition receivedBy (c : Client) (out : list Sent)
  : list SignalingMessage :=
  flat_map (fun p => if client_eqb (fst p) c then [snd p] else []) out.

(** The members other than the client that joins. *)
Definition isOther (client m : Client) : bool :=
  negb (String.eqb (id m) (id client)).

(** The notification "[a] joined", addressed to [b]. *)
Definition joinMsg (roomId_ a b : string) : SignalingMessage :=
  {| type := JOIN; from := a; to := b; msg_roomId := roomId_ |}.

(** The members of a room are stored under their own id. *)
Definition keyed (m : JsMap.t string Client) : Prop :=
  Forall (fun p => fst p = id (snd p)) m.

(** What holds of every room that the operations build: the members are
    stored under their own id, once. *)
Definition wf_room (r : Room) : Prop :=
  JsMap.wf (clients r) /\ keyed (clients r).

Definition wf (s : Service) : Prop :=
  forall k r, In (k, r) (rooms s) -> wf_room r.

(** What the joins and leaves keep true of the room table: a room is
    stored under its own id and has a member. *)
Definition occupied (s : Service) : Prop :=
  forall k r, In (k, r) (rooms s) ->
    room_id r = k /\ clients r <> [] /\ wf_room r.

(** The notification "[a] left", addressed to [b]. *)
Definition leaveMsg (roomId_ a b : string) : SignalingMessage :=
  {| type := LEAVE; from := a; to := b; msg_roomId := roomId_ |}.

End RoomService.

(* ================================================================== *)
(** * [SignalingService], [UserService] and the WebSocket handler of the
      relay (signalingService.ts, userService.ts, wsHandlers.ts) *)

Module SignalingService.
Import RoomService.

(** [SERVER_CONFIG.DEFAULT_ROOM_ID] *)
Definition DEFAULT_ROOM_ID : string := "default".

(** The [type] of a message received: a member of [MessageType], or any
    other value. *)
Inductive TypeField :=
| Known (t : MessageType)
| Unknown (s : string).

(** A message as [JSON.parse] returns it: [type], the fields [from], [to]
    and [roomId] when present, and the rest of the object ([offer],
    [answer], [candidate], ...) as the text that carries it. *)
Record Incoming := {
  in_type : TypeField;
  in_from : option string;
  in_to : option string;
  in_roomId : option string;
  in_body : string
}.

(** What [ws.send] is given: a notification built by [RoomService], or a
    message passed on as it came. *)
Inductive Wire :=
| Notice (m : SignalingMessage)
| Relayed (m : Incoming).

(** What the relay does, in order. *)
Inductive Effect :=
| ESend (c : Client) (w : Wire)       (* c.ws.send(JSON.stringify(w)) *)
| EWarnUnknownType                    (* console.warn *)
| EErrorMissingTo                     (* console.error *)
| EErrorSendFailed (error : string)   (* console.error in a catch block *)
| EErrorBroadcastFailed (clientId error : string).

(** The calls of [ws.send] that went through. *)
Definition sends (tr : list Effect) : list (Client * Wire) :=
  flat_map (fun e => match e with ESend c w => [(c, w)] | _ => [] end) tr.

(** [!message.to] is false: the field holds a string that is not empty. *)
Definition addressee (message : Incoming) : option string :=
  match in_to message with
  | Some to_ => if String.eqb to_ "" then None else Some to_
  | None => None
  end.

(** A socket whose [send] throws: its error. *)
Definition Sockets := nat -> option string.

(** The calls of [sendToClient] that [RoomService] makes, in order, over
    sockets that can throw: the calls that went through, and the error
    that ended them, if any. *)
Fixpoint sendAll (net : Sockets) (out : list Sent)
  : list Effect * option string :=
  match out with
  | [] => ([], None)
  | (c, m) :: rest =>
      match net (ws c) with
      | Some error => ([], Some error)
      | None =>
          let '(tr, r) := sendAll net rest in
          (ESend c (Notice m) :: tr, r)
      end
  end.

(** The result of a handler: the service, what was done, and the error
    thrown, if any. *)
Definition Outcome : Type := Service * list Effect * option string.

(** [handleJoin(client)]: [joinRoom] changes the tables, then sends. *)
Definition handleJoin (net : Sockets) (client : Client) (s : Service)
  : Outcome :=
  let '(s', out) := joinRoom DEFAULT_ROOM_ID client s in
  let '(tr, r) := sendAll net out in
  (s', tr, r).

(** [handleWebRTCMessage(message)] *)
Definition handleWebRTCMessage (net : Sockets) (message : Incoming)
    (s : Service) : Outcome :=
  match addressee message with
  | None => (s, [EErrorMissingTo], None)
  | Some to_ =>
      match getClient to_ s with
      | Some targetClient =>
          match net (ws targetClient) with
          | None => (s, [ESend targetClient (Relayed message)], None)
          | Some error => (s, [], Some error)
          end
      | None => (s, [], None)
      end
  end.

(** [handleMessage(client, message)] *)
Definition handleMessage (net : Sockets) (client : Client)
    (message : Incoming) (s : Service) : Outcome :=
  match in_type message with
  | Known JOIN => handleJoin net client s
  | Known SIGNAL => handleWebRTCMessage net message s
  | _ => (s, [EWarnUnknownType], None)
  end.

(** [handleSignalingMessage(message, clients)] *)
Definition handleSignalingMessage (net : Sockets) (message : Incoming)
    (clients_ : JsMap.t string Client) : bool * list Effect :=
  match in_to message with
  | None => (false, [])
  | Some to_ =>
      match JsMap.get to_ clients_ with
      | None => (false, [])
      | Some targetClient =>
          match net (ws targetClient) with
          | None => (true, [ESend targetClient (Relayed message)])
          | Some error => (false, [EErrorSendFailed error])
          end
      end
  end.

(** The body of the loop of [broadcastToRoom] for one client. *)
Definition broadcastTo (net : Sockets) (roomId_ : string)
    (message : Incoming) (excludeClientId : option string)
    (client : Client) : list Effect :=
  if String.eqb (roomId client) roomId_
     && negb (match excludeClientId with
              | Some x => String.eqb (id client) x
              | None => false
              end)
  then
    match net (ws client) with
    | None => [ESend client (Relayed message)]
    | Some error => [EErrorBroadcastFailed (id client) error]
    end
  else [].

(** [broadcastToRoom(roomId, message, clients, excludeClientId)] *)
Definition broadcastToRoom (net : Sockets) (roomId_ : string)
    (message : Incoming) (clients_ : JsMap.t string Client)
    (excludeClientId : option string) : list Effect :=
  flat_map (broadcastTo net roomId_ message excludeClientId)
    (JsMap.values clients_).

(** [createErrorMessage], [createJoinMessage] and [createLeaveMessage] *)
Definition createErrorMessage (from_ to_ roomId_ : string)
  : SignalingMessage :=
  {| type := ERROR; from := from_; to := to_; msg_roomId := roomId_ |}.

Definition createJoinMessage (from_ to_ roomId_ : string)
  : SignalingMessage :=
  {| type := JOIN; from := from_; to := to_; msg_roomId := roomId_ |}.

Definition createLeaveMessage (from_ to_ roomId_ : string)
  : SignalingMessage :=
  {| type := LEAVE; from := from_; to := to_; msg_roomId := roomId_ |}.

(** The target of a broadcast: in the room, and not the one left out. *)
Definition isTarget (roomId_ : string) (excludeClientId : option string)
    (client : Client) : bool :=
  String.eqb (roomId client) roomId_
  && negb (match excludeClientId with
           | Some x => String.eqb (id client) x
           | None => false
           end).

(** The clients for which a broadcast logged a failure. *)
Definition broadcastFailures (tr : list Effect) : list string :=
  flat_map (fun e => match e with
                     | EErrorBroadcastFailed clientId _ => [clientId]
                     | _ => []
                     end) tr.

(** [send] on the socket of [c] goes through. *)
Definition accepts (net : Sockets) (c : Client) : bool :=
  match net (ws c) with None => true | Some _ => false end.

End SignalingService.

Module UserService.

Record User := {
  user_id : string;
  username : string;
  user_roomId : option string;
  user_ws : option nat
}.

Record RegisterRequest := {
  req_username : string;
  req_roomId : string
}.

Definition Users := JsMap.t string User.

(** [register(request)]; [uuid] is the result of [uuidv4()]. *)
Definition register (uuid : string) (request : RegisterRequest)
    (users : Users) : Users * User :=
  let user := {| user_id := uuid; username := req_username request;
                 user_roomId := Some (req_roomId request);
                 user_ws := None |} in
  (JsMap.set uuid user users, user).

Definition getUser (userId : string) (users : Users) : option User :=
  JsMap.get userId users.

Definition deleteUser (userId : string) (users : Users) : Users * bool :=
  (JsMap.delete userId users, JsMap.has userId users).

Definition getAllUsers (users : Users) : list User := JsMap.values users.

(** [updateUserWebSocket(userId, ws)] *)
Definition updateUserWebSocket (userId : string) (ws_ : nat) (users : Users)
  : Users * bool :=
  match JsMap.get userId users with
  | None => (users, false)
  | Some _ =>
      (JsMap.update userId
         (fun user =>
            {| user_id := user_id user; username := username user;
               user_roomId := user_roomId user; user_ws := Some ws_ |})
         users, true)
  end.

(** [updateUserRoom(userId, roomId)] *)
Definition updateUserRoom (userId : string) (roomId_ : option string)
    (users : Users) : Users * bool :=
  match JsMap.get userId users with
  | None => (users, false)
  | Some _ =>
      (JsMap.update userId
         (fun user =>
            {| user_id := user_id user; username := username user;
               user_roomId := roomId_; user_ws := user_ws user |})
         users, true)
  end.

End UserService.

Module WsHandlers.
Import RoomService.

(** [WebSocketCloseCode] as [config/constants] has it, the module that the
    handlers import. *)
Definition MISSING_USER_ID : Z := 4400.
Definition USER_NOT_FOUND : Z := 4401.

(** What [handleConnection] does with a socket: it closes it, or it keeps
    it with the client it built for it. *)
Inductive Admission :=
| Closed (code : Z)
| Accepted (client : Client).

(** [handleConnection(ws, req)] up to the registration of the handlers of
    the socket; [userId] is [req.query.userId]. *)
Definition handleConnection (users : UserService.Users) (ws_ : nat)
    (userId : option string) : Admission :=
  match userId with
  | None => Closed MISSING_USER_ID
  | Some uid =>
      if String.eqb uid "" then Closed MISSING_USER_ID
      else
        match UserService.getUser uid users with
        | None => Closed USER_NOT_FOUND
        | Some user =>
            Accepted {| id := UserService.user_id user; ws := ws_;
                        roomId := SignalingService.DEFAULT_ROOM_ID |}
        end
  end.

(** The text that arrives on a socket, as [JSON.parse] sees it: rejected,
    [null] (reading [message.type] throws), or a value with fields. *)
Inductive Data :=
| DMalformed
| DNull
| DMessage (m : SignalingService.Incoming).

Inductive Effect :=
| Relay (e : SignalingService.Effect)
| EErrorHandling.                       (* console.error in the catch *)

(** The handler of ['message'] that [handleConnection] registers for
    [client]. *)
Definition onMessage (net : SignalingService.Sockets) (client : Client)
    (data : Data) (s : Service) : Service * list Effect :=
  match data with
  | DMessage message =>
      match SignalingService.handleMessage net client message s with
      | (s', tr, None) => (s', map Relay tr)
      | (s', tr, Some _) => (s', map Relay tr ++ [EErrorHandling])
      end
  | DMalformed | DNull => (s, [EErrorHandling])
  end.

(** The handler of ['close']: its body is empty. *)
Definition onClose (client : Client) (s : Service) : Service := s.

(** What happens on the sockets that were accepted. *)
Inductive SocketEvent :=
| Message (client : Client) (data : Data)
| Close (client : Client).

Definition socketEvent (net : SignalingService.Sockets) (e : SocketEvent)
    (s : Service) : Service :=
  match e with
  | Message client data => fst (onMessage net client data s)
  | Close client => onClose client s
  end.

(** The relay after a sequence of events; the sockets may behave
    differently at each event. *)
Definition runSockets (es : list (SignalingService.Sockets * SocketEvent))
    (s : Service) : Service :=
  fold_left (fun s e => socketEvent (fst e) (snd e) s) es s.

(** The sends of a handler that went through. *)
Definition delivered (tr : list Effect)
  : list (Client * SignalingService.Wire) :=
  flat_map (fun e => match e with
                     | Relay (SignalingService.ESend c w) => [(c, w)]
                     | _ => []
                     end) tr.

End WsHandlers.

(* ================================================================== *)
(** * Concrete runs *)

Module Examples.
Import FileTransfer.

Definition openChannel : RTCDataChannel :=
  {| readyState := RSopen; bufferedAmount := 0; sendThrows := None |}.

(** A configuration with chunks of four bytes. *)
Definition smallChunks : FileTransferConfig :=
  {| chunkSize := 4; maxConcurrentTransfers := 3; enableChecksum := true;
     retryAttempts := 3; retryDelay := 1000 |}.

(** A manager with an open channel and no transfer. *)
Definition ready (cfg : FileTransferConfig) : World :=
  {| mgr := setDataChannel openChannel (new cfg); trace := [] |}.

(** A file of ten bytes. *)
Definition original : File :=
  {| name := "a.bin"; type := "application/octet-stream";
     bytes := [Byte.x01; Byte.x02; Byte.x03; Byte.x04; Byte.x05; Byte.x06;
               Byte.x07; Byte.x08; Byte.x09; Byte.x0a] |}.

Definition note (n : string) : File :=
  {| name := n; type := "text/plain"; bytes := [Byte.x68; Byte.x69] |}.

(** Four calls of [sendFile] under the default configuration: three
    transfers start, the fourth waits in the queue. *)
Definition fourSends : World :=
  let w1 := snd (sendFile None "file_a" 1 (note "a.txt") (ready DEFAULT_CONFIG)) in
  let w2 := snd (sendFile None "file_b" 2 (note "b.txt") w1) in
  let w3 := snd (sendFile None "file_c" 3 (note "c.txt") w2) in
  snd (sendFile None "file_d" 4 (note "d.txt") w3).

(** The sender after [sendFile(original)]. *)
Definition senderStarted : World :=
  snd (sendFile None "file_1" 100 original (ready smallChunks)).

(** The receiver after the messages of [senderStarted] arrived. *)
Definition receiverInformed : World :=
  receive 200 (deliver (sent (trace senderStarted))) (ready smallChunks).

(** The sender after the receiver's messages arrived: it answers the
    request for the first chunk. *)
Definition senderAnswered : World :=
  receive 300 (deliver (sent (trace receiverInformed)))
    {| mgr := mgr senderStarted; trace := [] |}.

(** The receiver after the first chunk arrived. *)
Definition receiverAfterChunk : World :=
  receive 400 (deliver (sent (trace senderAnswered)))
    {| mgr := mgr receiverInformed; trace := [] |}.

(** The first chunk of [original], and the same with its last byte
    changed. *)
Definition firstChunk : list byte := [Byte.x01; Byte.x02; Byte.x03; Byte.x04].
Definition corrupted : list byte := [Byte.x01; Byte.x02; Byte.x03; Byte.x05].

(** Two clients of the relay. *)
Definition u1 : RoomService.Client :=
  {| RoomService.id := "u1"; RoomService.ws := 1; RoomService.roomId := "r1" |}.
Definition u2 : RoomService.Client :=
  {| RoomService.id := "u2"; RoomService.ws := 2; RoomService.roomId := "r1" |}.

End Examples.

(** Examples for the receiving side, the relay, the signaling manager and
    the peers. *)
Module ReceiverExamples.
Import FileTransfer.
(** A receiving file that holds the three chunks of [Examples.original],
    stored in the order 2, 0, 1. *)
Definition storedOutOfOrder : TransferringFile :=
  let cs :=
    chunks (prepareFileChunks None Examples.smallChunks
              (newSendingFile Examples.smallChunks "file_1" 100
                 Examples.original)) in
  let put (i : Z) (m : JsMap.t Z FileChunk) :=
    match at_index cs i with
    | Some c => JsMap.set i c m
    | None => m
    end in
  {| id := "file_1";
     file := {| name := "a.bin"; type := "application/octet-stream";
                bytes := [] |};
     chunks := []; receivedChunks := put 1 (put 0 (put 2 JsMap.empty));
     totalChunks := 3; status := TRANSFERRING; startTime := 200;
     lastProgressTime := 200; transferredSize := 0; retryCount := 0 |}.
End ReceiverExamples.

Module RelayExamples.
Import RoomService SignalingService.
(** The relay after [u1] and [u2] joined room [r1]. *)
Definition twoInRoom : Service :=
  runOps [Join "r1" Examples.u1; Join "r1" Examples.u2] new.
(** An offer for [u2]. *)
Definition offerForU2 : Incoming :=
  {| in_type := Known SIGNAL; in_from := Some "u1"; in_to := Some "u2";
     in_roomId := None; in_body := "offer" |}.
(** Sockets that all accept what is sent. *)
Definition healthy : Sockets := fun _ => None.
End RelayExamples.

Module SignalingExamples.
Import Signaling.

(** A manager just made, with a valid URL and WebSocket support. *)
Definition fresh : World := {| mgr := new true true; trace := [] |}.

(** The manager after [connect("u1")] and the opening of the socket. *)
Definition connected : World :=
  Eval vm_compute in snd (onopen (snd (connect "u1" fresh))).
End SignalingExamples.

Module PeerExamples.
Import WebRTC.

(** A channel whose buffer is never above the limit. *)
Definition idle : Channel := fun _ => 0.

(** A transfer record as [sendFile] creates it. *)
Definition pending : FileTransfer :=
  {| ft_id := "t1"; fileName := "a.bin"; fileSize := 3;
     progress_num := 0; progress_den := 1; status := PENDING;
     sender := "local"; receiver := "p1" |}.

(** A file of two chunks: one byte more than a chunk holds. *)
Definition twoChunks : list byte := repeat Byte.x00 (Z.to_nat 16385).

(** A manager with the peer [p1], which has the data channel 1, and the
    peer [p2], which has none. *)
Definition twoPeers : Peers.World :=
  let w0 := {| Peers.mgr := Peers.new; Peers.trace := [] |} in
  let w1 := snd (Peers.createPeerConnection true "p1" w0) in
  let w2 := snd (Peers.createPeerConnection true "p2" w1) in
  snd (Peers.createDataChannel (inl 1%nat) "p1" w2).

(** Every channel is open and takes what is sent. *)
Definition allOpen : Peers.Browser :=
  fun _ => {| Peers.isOpen := true; Peers.sendThrows := None |}.

(** Every channel is open, and [send] throws. *)
Definition broken : Peers.Browser :=
  fun _ => {| Peers.isOpen := true;
              Peers.sendThrows := Some "InvalidStateError" |}.

(** A file of three bytes. *)
Definition small : FileTransfer.File :=
  {| FileTransfer.name := "a.bin";
     FileTransfer.type := "application/octet-stream";
     FileTransfer.bytes := [Byte.x01; Byte.x02; Byte.x03] |}.
End PeerExamples.

(* ================================================================== *)
(** * Properties *)

(** ** Facts about [JsMap] *)

Section KeyFacts.
Context {K : Type} `{EqKey K}.

Lemma keyb_refl (k : K) : keyb k k = true.
Proof. now apply keyb_spec. Qed.

Lemma keyb_false (a b : K) : keyb a b = false <-> a <> b.
Proof.
  split.
  - intros E ->. rewrite keyb_refl in E. discriminate.
  - intros N. destruct (keyb a b) eqn:E; [|reflexivity].
    apply keyb_spec in E. contradiction.
Qed.

Lemma keyb_reflect (a b : K) : reflect (a = b) (keyb a b).
Proof.
  destruct (keyb a b) eqn:E; constructor.
  - now apply keyb_spec.
  - now apply keyb_false.
Qed.
End KeyFacts.

Section JsMapFacts.
Context {K V : Type} `{EqKey K}.
Implicit Types (m : JsMap.t K V) (k : K) (v : V).

Lemma get_set_same k v m : JsMap.get k (JsMap.set k v m) = Some v.
Proof.
  induction m as [|[k' v'] m IH]; simpl.
  - now rewrite keyb_refl.
  - destruct (keyb_reflect k k') as [->|N]; simpl.
    + now rewrite keyb_refl.
    + destruct (keyb_reflect k k'); [contradiction|exact IH].
Qed.

Lemma get_update k k' (f : V -> V) m :
  JsMap.get k (JsMap.update k' f m)
  = if keyb k k' then option_map f (JsMap.get k m) else JsMap.get k m.
Proof.
  induction m as [|[k1 v1] m IH]; simpl.
  - now destruct (keyb k k').
  - destruct (keyb_reflect k' k1) as [->|N1]; simpl.
    + destruct (keyb_reflect k k1); [reflexivity|exact IH].
    + destruct (keyb_reflect k k1) as [->|N2]; [|exact IH].
      destruct (keyb_reflect k1 k'); [congruence|reflexivity].
Qed.

Lemma get_delete k k' m :
  JsMap.get k (JsMap.delete k' m)
  = if keyb k k' then None else JsMap.get k m.
Proof.
  induction m as [|[k1 v1] m IH]; simpl.
  - now destruct (keyb k k').
  - destruct (keyb_reflect k' k1) as [->|N1]; simpl.
    + rewrite IH. destruct (keyb_reflect k k1); reflexivity.
    + rewrite IH. destruct (keyb_reflect k k1) as [->|N2]; [|reflexivity].
      destruct (keyb_reflect k1 k'); [congruence|reflexivity].
Qed.

Lemma keys_update k (f : V -> V) m :
  JsMap.keys (JsMap.update k f m) = JsMap.keys m.
Proof.
  unfold JsMap.keys, JsMap.update. rewrite map_map. apply map_ext.
  intros [k1 v1]; simpl. now destruct (keyb k k1).
Qed.

Lemma get_In k v m : JsMap.get k m = Some v -> In (k, v) m.
Proof.
  induction m as [|[k1 v1] m IH]; simpl; [discriminate|].
  destruct (keyb_reflect k k1) as [->|N].
  - intros [= ->]. now left.
  - intros E. right. now apply IH.
Qed.

Lemma get_None_keys k m : JsMap.get k m = None <-> ~ In k (JsMap.keys m).
Proof.
  induction m as [|[k1 v1] m IH]; simpl.
  - tauto.
  - destruct (keyb_reflect k k1) as [->|N].
    + split; [discriminate|]. intros Hn. exfalso. apply Hn. now left.
    + rewrite IH. split; [intros Hn [E|Hin]; [congruence|tauto] | tauto].
Qed.

Lemma set_new k v m :
  JsMap.get k m = None -> JsMap.set k v m = m ++ [(k, v)].
Proof.
  induction m as [|[k1 v1] m IH]; simpl; [reflexivity|].
  destruct (keyb k k1); [discriminate|]. intros E. now rewrite IH.
Qed.

Lemma keys_set_old k v m :
  JsMap.get k m <> None -> JsMap.keys (JsMap.set k v m) = JsMap.keys m.
Proof.
  induction m as [|[k1 v1] m IH]; simpl; [congruence|].
  destruct (keyb k k1); simpl; [reflexivity|]. intros E. now rewrite IH.
Qed.

Lemma wf_set k v m : JsMap.wf m -> JsMap.wf (JsMap.set k v m).
Proof.
  intros Hwf. destruct (JsMap.get k m) eqn:E.
  - unfold JsMap.wf. rewrite keys_set_old by congruence. exact Hwf.
  - rewrite set_new by exact E. unfold JsMap.wf, JsMap.keys.
    rewrite map_app. simpl.
    apply NoDup_app; [exact Hwf | repeat constructor; simpl; tauto | ].
    apply get_None_keys in E.
    intros x Hx [<-|[]]. contradiction.
Qed.

Lemma wf_delete k m : JsMap.wf m -> JsMap.wf (JsMap.delete k m).
Proof.
  unfold JsMap.wf, JsMap.delete, JsMap.keys.
  induction m as [|[k1 v1] m IH]; simpl; [tauto|].
  intros Hnd. inversion Hnd as [|? ? Hni Hnd']; subst.
  destruct (keyb k k1); simpl; [now apply IH|].
  constructor; [|now apply IH].
  intros Hin. apply Hni. apply in_map_iff in Hin as ((k2, v2) & E & Hin).
  apply filter_In in Hin as [Hin _]. simpl in E. subst.
  change k1 with (fst (k1, v2)). now apply in_map.
Qed.

Lemma In_set_inv (p : K * V) k v m :
  In p (JsMap.set k v m) -> p = (k, v) \/ In p m.
Proof.
  induction m as [|[k1 v1] m IH]; cbn.
  - intros [<-|[]]. now left.
  - destruct (keyb_reflect k k1) as [->|N]; cbn.
    + intros [<-|Hin]; auto.
    + intros [<-|Hin]; auto. destruct (IH Hin); auto.
Qed.

Lemma In_update_inv k1 v1 k (f : V -> V) m :
  In (k1, v1) (JsMap.update k f m) ->
  exists v0, In (k1, v0) m /\ v1 = if keyb k k1 then f v0 else v0.
Proof.
  unfold JsMap.update. rewrite in_map_iff. intros ((k2, v2) & E & Hin).
  cbn [fst snd] in E.
  destruct (keyb k k2) eqn:Ek; injection E as <- <-;
    exists v2; rewrite Ek; auto.
Qed.

Lemma In_delete_inv k1 v1 k m :
  In (k1, v1) (JsMap.delete k m) -> In (k1, v1) m /\ k1 <> k.
Proof.
  unfold JsMap.delete. rewrite filter_In. cbn. intros [Hin E].
  split; [exact Hin|]. intros ->. rewrite keyb_refl in E. discriminate.
Qed.

Lemma set_not_nil k v m : JsMap.set k v m <> [].
Proof.
  destruct m as [|[k1 v1] m]; cbn; [|destruct (keyb k k1)]; discriminate.
Qed.
End JsMapFacts.

(** ** Ceilings, indices and slices *)

Section Slices.
Import FileTransfer.

Lemma Math_ceil_div_bounds a b :
  0 <= a -> 0 < b ->
  b * (Math_ceil_div a b - 1) < a <= b * Math_ceil_div a b \/
  (a = 0 /\ Math_ceil_div a b = 0).
Proof.
  intros Ha Hb. unfold Math_ceil_div.
  pose proof (Z.div_mod a b ltac:(lia)) as E.
  pose proof (Z.mod_pos_bound a b Hb) as B.
  destruct (Z.eqb_spec (a mod b) 0) as [H0|H0].
  - destruct (Z.eq_dec a 0) as [->|Hn].
    + right. split; [reflexivity|]. apply Z.div_0_l. lia.
    + left. nia.
  - left. nia.
Qed.

Lemma Math_ceil_div_nonneg a b : 0 <= a -> 0 < b -> 0 <= Math_ceil_div a b.
Proof.
  intros Ha Hb. unfold Math_ceil_div.
  pose proof (Z.div_pos a b Ha Hb).
  destruct (a mod b =? 0); lia.
Qed.

(** [Math_ceil_div a b] is the least [n] with [a <= b * n]. *)
Lemma Math_ceil_div_least a b n :
  0 <= a -> 0 < b -> 0 <= n -> a <= b * n -> Math_ceil_div a b <= n.
Proof.
  intros Ha Hb Hn H.
  destruct (Math_ceil_div_bounds Ha Hb) as [[L U]|[-> ->]]; [nia|lia].
Qed.

Lemma Math_ceil_div_covers a b :
  0 <= a -> 0 < b -> a <= Z.of_nat (Z.to_nat (Math_ceil_div a b)) * b.
Proof.
  intros Ha Hb. destruct (Math_ceil_div_bounds Ha Hb) as [[L U]|[Hz Hm]].
  - revert L U. generalize (Math_ceil_div a b). intros z L U.
    assert (0 <= z) by nia. rewrite Z2Nat.id by lia. lia.
  - rewrite Hm. cbn. lia.
Qed.

Lemma Math_ceil_div_pos a b :
  0 < a -> 0 < b -> (0 < Z.to_nat (Math_ceil_div a b))%nat.
Proof.
  intros Ha Hb.
  destruct (@Math_ceil_div_bounds a b ltac:(lia) Hb) as [[L U]|[Hz Hm]].
  - revert L U. generalize (Math_ceil_div a b). intros z L U.
    assert (0 < z) by nia. lia.
  - lia.
Qed.

Lemma indices_S i n : indices i (S n) = i :: indices (i + 1) n.
Proof.
  unfold indices. simpl. f_equal; [f_equal; lia|].
  rewrite <- seq_shift, map_map. apply map_ext. intros; lia.
Qed.

Lemma indices_snoc i n : indices i (S n) = indices i n ++ [i + Z.of_nat n].
Proof. unfold indices. now rewrite seq_S, map_app. Qed.

Lemma indices_length i n : List.length (indices i n) = n.
Proof. unfold indices. now rewrite length_map, length_seq. Qed.

Lemma indices_nth i n k :
  (k < n)%nat -> nth_error (indices i n) k = Some (i + Z.of_nat k).
Proof.
  intros Hk. unfold indices.
  rewrite nth_error_map, nth_error_seq.
  destruct (Nat.ltb_spec k n); [reflexivity|lia].
Qed.

Lemma indices_firstn i n k :
  (k <= n)%nat -> firstn k (indices i n) = indices i k.
Proof.
  revert i n. induction k as [|k IH]; intros i n Hk; [reflexivity|].
  destruct n as [|n]; [lia|].
  rewrite !indices_S. cbn [firstn]. f_equal. apply IH. lia.
Qed.

Lemma firstn_plus {A} (a k : nat) (l : list A) :
  firstn (a + k) l = firstn a l ++ firstn k (skipn a l).
Proof.
  revert l. induction a as [|a IH]; intros l; simpl; [reflexivity|].
  destruct l as [|x l]; simpl.
  - now rewrite firstn_nil.
  - now rewrite IH.
Qed.

Lemma slice_length l a b :
  0 <= a <= b -> b <= Z.of_nat (List.length l) ->
  Z.of_nat (List.length (slice l a b)) = b - a.
Proof.
  intros Hab Hb. unfold slice.
  rewrite length_firstn, length_skipn. lia.
Qed.

Lemma firstn_slice l a b :
  0 <= a <= b ->
  firstn (Z.to_nat a) l ++ slice l a b = firstn (Z.to_nat b) l.
Proof.
  intros Hab. unfold slice.
  rewrite <- firstn_plus. f_equal. lia.
Qed.

(** The slices of width [C] of a list, put end to end, are its first
    [n * C] elements. *)
Lemma slices_concat (l : list byte) C n :
  0 < C ->
  concat (map (fun i => slice l (i * C)
                          (Z.min (i * C + C) (Z.of_nat (List.length l))))
            (indices 0 n))
  = firstn (Z.to_nat (Z.min (Z.of_nat n * C) (Z.of_nat (List.length l)))) l.
Proof.
  intros HC. induction n as [|n IH].
  - cbn. rewrite Z.min_l by lia. reflexivity.
  - rewrite indices_snoc, map_app, concat_app, IH.
    cbn [map concat]. rewrite app_nil_r.
    set (sz := Z.of_nat (List.length l)).
    replace (0 + Z.of_nat n) with (Z.of_nat n) by lia.
    destruct (Z.le_gt_cases sz (Z.of_nat n * C)) as [Hge|Hlt].
    + rewrite !Z.min_r by nia.
      unfold slice. replace (Z.to_nat (sz - Z.of_nat n * C)) with 0%nat by lia.
      cbn [firstn]. now rewrite app_nil_r.
    + rewrite (Z.min_l (Z.of_nat n * C)) by lia.
      rewrite firstn_slice by lia. f_equal. lia.
Qed.
End Slices.

(** ** [emit] *)

Section EmitterFacts.
Variable E : Type.
Variable event_name : E -> string.
Variable prefix : string.

Lemma handled_run ev (l : Emitter.Listener E) tr :
  Js.tryCatch (Emitter.invoke l ev)
    (fun error =>
       Emitter.console_error (prefix +++ event_name ev +++ ":") error) tr
  = (Js.Normal tt, tr ++ Emitter.reaction event_name prefix ev l).
Proof.
  unfold Js.tryCatch, Emitter.invoke, Emitter.reaction.
  destruct (Emitter.call l ev) as [err|]; [|reflexivity].
  unfold Emitter.console_error, Js.modify.
  rewrite <- app_assoc. reflexivity.
Qed.

(** A run of [emit] ends normally, whatever the listeners do, and every
    listener of the event has reacted. *)
Lemma emit_run (ls : Emitter.Listeners E) ev tr :
  Emitter.emit event_name prefix ls ev tr
  = (Js.Normal tt, tr ++ Emitter.reactions event_name prefix ls ev).
Proof.
  unfold Emitter.emit, Emitter.reactions.
  generalize (Emitter.listenersOf (event_name ev) ls) as l.
  intros l. revert tr. induction l as [|x l IH]; intros tr; simpl.
  - now rewrite app_nil_r.
  - unfold Js.bind. rewrite handled_run, IH, <- app_assoc. reflexivity.
Qed.

Lemma calls_reactions (ls : Emitter.Listeners E) ev :
  Emitter.calls (Emitter.reactions event_name prefix ls ev)
  = map (@Emitter.lid E) (Emitter.listenersOf (event_name ev) ls).
Proof.
  unfold Emitter.reactions.
  induction (Emitter.listenersOf (event_name ev) ls) as [|l l' IH];
    simpl; [reflexivity|].
  unfold Emitter.calls in *. rewrite flat_map_app, IH.
  unfold Emitter.reaction. now destruct (Emitter.call l ev).
Qed.

Lemma thrown_is_logged (ls : Emitter.Listeners E) ev l err :
  In l (Emitter.listenersOf (event_name ev) ls) ->
  Emitter.call l ev = Some err ->
  In (Emitter.ConsoleError (prefix +++ event_name ev +++ ":") err)
    (Emitter.reactions event_name prefix ls ev).
Proof.
  intros Hin Hc. unfold Emitter.reactions. apply in_flat_map.
  exists l. split; [exact Hin|]. unfold Emitter.reaction. rewrite Hc.
  right. now left.
Qed.

Lemma listenersOf_on name l (ls : Emitter.Listeners E) :
  Emitter.listenersOf name (Emitter.on name l ls)
  = Emitter.listenersOf name ls ++ [l].
Proof.
  unfold Emitter.listenersOf at 1, Emitter.on. now rewrite get_set_same.
Qed.
End EmitterFacts.

(** ** File transfer: the chunks of a file *)

Section Chunking.
Import FileTransfer.

Lemma prepareLoop_map crypto cfg tf n i acc :
  prepareLoop crypto cfg tf n i acc
  = acc ++ map (makeChunk crypto cfg tf) (indices i n).
Proof.
  revert i acc. induction n as [|n IH]; intros i acc.
  - simpl. now rewrite app_nil_r.
  - rewrite indices_S. simpl. rewrite IH, <- app_assoc. reflexivity.
Qed.

Lemma chunks_prepared crypto cfg tf :
  chunks (prepareFileChunks crypto cfg tf)
  = map (makeChunk crypto cfg tf) (indices 0 (Z.to_nat (totalChunks tf))).
Proof. unfold prepareFileChunks. simpl. now rewrite prepareLoop_map. Qed.

Lemma concat_chunks crypto cfg tf n :
  0 < chunkSize cfg ->
  concat (map data (map (makeChunk crypto cfg tf) (indices 0 n)))
  = firstn (Z.to_nat (Z.min (Z.of_nat n * chunkSize cfg) (size (file tf))))
      (bytes (file tf)).
Proof.
  intros HC. rewrite map_map. unfold size.
  rewrite <- slices_concat by exact HC. reflexivity.
Qed.

Lemma sendControlMessage_open msg w ch :
  dataChannel (mgr w) = Some ch -> isOpen ch = true -> sendThrows ch = None ->
  sendControlMessage msg w
  = (Js.Normal tt,
     {| mgr := mgr w; trace := trace w ++ [ESend (PText msg)] |}).
Proof.
  intros Hc Ho Ht. unfold sendControlMessage, Js.bind, getM, Js.gets.
  rewrite Hc, Ho. unfold Js.tryCatch, channel_send. rewrite Ht. reflexivity.
Qed.

Lemma startTransfer_content k fileId m :
  contentOf k (startTransfer fileId m) = contentOf k m.
Proof.
  unfold startTransfer, contentOf.
  destruct (JsMap.get fileId (sendingFiles m)); [|reflexivity].
  cbn. rewrite get_update.
  destruct (keyb k fileId); [|reflexivity].
  now destruct (JsMap.get k (sendingFiles m)).
Qed.

Lemma processQueue_content k q m :
  contentOf k (processQueue q m) = contentOf k m.
Proof.
  revert m. induction q as [|fileId q IH]; intros m; simpl; [reflexivity|].
  destruct (activeTransfers m <? maxConcurrentTransfers (config m));
    [|reflexivity].
  rewrite IH. destruct (truthy fileId); [|reflexivity].
  now rewrite startTransfer_content.
Qed.

Ltac js_step :=
  cbn -[processTransferQueue prepareFileChunks newSendingFile
        sendControlMessage emit JsMap.update JsMap.set JsMap.get
        JsMap.delete JsMap.keys Z.add Z.sub Z.max Z.ltb].

(** Over an open channel [sendFile] returns the id and leaves the prepared
    chunks under it. *)
Lemma sendFile_stores crypto fileId now f w ch :
  dataChannel (mgr w) = Some ch -> isOpen ch = true -> sendThrows ch = None ->
  fst (sendFile crypto fileId now f w) = Js.Normal fileId
  /\ contentOf fileId (mgr (snd (sendFile crypto fileId now f w)))
     = Some (content
               (prepareFileChunks crypto (config (mgr w))
                  (newSendingFile (config (mgr w)) fileId now f))).
Proof.
  intros Hc Ho Ht.
  unfold sendFile, Js.tryCatch, Js.bind, getM, Js.gets, modifyM, Js.modify,
    sendFileInfo.
  js_step.
  rewrite (@sendControlMessage_open _ _ ch) by (cbn; assumption).
  js_step.
  split; [reflexivity|].
  unfold processTransferQueue. rewrite processQueue_content.
  unfold contentOf. js_step.
  rewrite get_update, keyb_refl, get_set_same. reflexivity.
Qed.

(** C1: a file of size [S] sent with [sendFile] under chunk size [C] is
    prepared as exactly [ceil(S / C)] chunks; chunk [i] holds the bytes
    from [i * C] up to [min((i + 1) * C, S)]; the last chunk has size
    [S mod C], or [C] when [C] divides [S]; put end to end the chunks are
    the file. *)
Theorem sendFile_chunks crypto cfg fileId now f :
  0 < chunkSize cfg ->
  let C := chunkSize cfg in
  let sz := size f in
  let tf := prepareFileChunks crypto cfg (newSendingFile cfg fileId now f) in
  totalChunks tf = Math_ceil_div sz C
  /\ (forall n, 0 <= n -> (sz <= C * n <-> totalChunks tf <= n))
  /\ Z.of_nat (List.length (chunks tf)) = totalChunks tf
  /\ (forall i, 0 <= i < totalChunks tf ->
        exists c, at_index (chunks tf) i = Some c /\ index c = i
          /\ data c = slice (bytes f) (i * C) (Z.min ((i + 1) * C) sz)
          /\ chunk_size c = Z.min ((i + 1) * C) sz - i * C)
  /\ (0 < sz ->
        exists c, at_index (chunks tf) (totalChunks tf - 1) = Some c
          /\ chunk_size c = if sz mod C =? 0 then C else sz mod C)
  /\ concat (map data (chunks tf)) = bytes f
  /\ (forall w ch,
        config (mgr w) = cfg -> dataChannel (mgr w) = Some ch ->
        isOpen ch = true -> sendThrows ch = None ->
        fst (sendFile crypto fileId now f w) = Js.Normal fileId
        /\ contentOf fileId (mgr (snd (sendFile crypto fileId now f w)))
           = Some (content tf)).
Proof.
  intros HC C sz tf. change (0 < C) in HC.
  assert (Hsz : 0 <= sz) by (unfold sz, size; lia).
  assert (Htot : totalChunks tf = Math_ceil_div sz C) by reflexivity.
  pose proof (Math_ceil_div_nonneg Hsz HC) as Hnn.
  pose proof (Math_ceil_div_bounds Hsz HC) as Hb.
  assert (Hch : chunks tf
                = map (makeChunk crypto cfg (newSendingFile cfg fileId now f))
                    (indices 0 (Z.to_nat (Math_ceil_div sz C)))).
  { unfold tf. rewrite chunks_prepared. reflexivity. }
  assert (Hat : forall i, 0 <= i < totalChunks tf ->
            exists c, at_index (chunks tf) i = Some c /\ index c = i
              /\ data c = slice (bytes f) (i * C) (Z.min ((i + 1) * C) sz)
              /\ chunk_size c = Z.min ((i + 1) * C) sz - i * C).
  { intros i Hi. rewrite Htot in Hi.
    exists (makeChunk crypto cfg (newSendingFile cfg fileId now f) i).
    assert (Hd : data (makeChunk crypto cfg (newSendingFile cfg fileId now f) i)
                 = slice (bytes f) (i * C) (Z.min ((i + 1) * C) sz)).
    { cbn. fold C. fold sz. do 2 f_equal. lia. }
    repeat split.
    - unfold at_index. destruct (Z.ltb_spec i 0); [lia|].
      rewrite Hch, nth_error_map, indices_nth by lia.
      cbn [option_map]. do 2 f_equal. lia.
    - exact Hd.
    - change (chunk_size
                (makeChunk crypto cfg (newSendingFile cfg fileId now f) i))
        with (Z.of_nat (List.length
                (data (makeChunk crypto cfg
                         (newSendingFile cfg fileId now f) i)))).
      rewrite Hd.
      assert (i * C < sz).
      { destruct Hb as [[L U]|[Hz Hm]]; [|lia].
        assert (i * C <= (Math_ceil_div sz C - 1) * C)
          by (apply Z.mul_le_mono_nonneg_r; lia).
        lia. }
      apply slice_length; unfold sz, size in *; lia. }
  split; [exact Htot|]. split; [|split; [|split; [|split; [|split]]]].
  - intros n Hn. split.
    + intros Hle. rewrite Htot. apply Math_ceil_div_least; assumption.
    + intros Hle. rewrite Htot in Hle. destruct Hb as [[_ U]|[Hz _]]; nia.
  - rewrite Hch, length_map, indices_length. rewrite Htot. lia.
  - exact Hat.
  - intros Hpos. destruct (Hat (totalChunks tf - 1)) as (c & Hc & _ & _ & Hs).
    { rewrite Htot. destruct Hb as [[L U]|[Hz _]]; [|lia].
      assert (0 < Math_ceil_div sz C) by nia. lia. }
    exists c. split; [exact Hc|]. rewrite Hs, Htot.
    unfold Math_ceil_div.
    pose proof (Z.div_mod sz C ltac:(lia)) as E.
    pose proof (Z.mod_pos_bound sz C HC) as B.
    destruct (Z.eqb_spec (sz mod C) 0) as [H0|H0]; nia.
  - rewrite Hch, concat_chunks by exact HC.
    change (size (file (newSendingFile cfg fileId now f))) with sz.
    change (bytes (file (newSendingFile cfg fileId now f))) with (bytes f).
    change (chunkSize cfg) with C.
    rewrite Z.min_r by (destruct Hb as [[L U]|[Hz _]]; nia).
    apply firstn_all2. unfold sz, size. lia.
  - intros w ch Hcfg Hc Ho Ht.
    destruct (sendFile_stores crypto fileId now f w Hc Ho Ht) as [H1 H2].
    rewrite Hcfg in H2. split; assumption.
Qed.

(** C1 at a file of ten bytes cut in chunks of four: three chunks, the
    last of two bytes. *)
Lemma sendFile_chunks_witness :
  let tf := prepareFileChunks None Examples.smallChunks
              (newSendingFile Examples.smallChunks "file_1" 100
                 Examples.original) in
  totalChunks tf = 3
  /\ Z.of_nat (List.length (chunks tf)) = 3
  /\ (exists c, at_index (chunks tf) 2 = Some c /\ chunk_size c = 2)
  /\ concat (map data (chunks tf)) = bytes Examples.original.
Proof.
  intros tf.
  destruct (@sendFile_chunks None Examples.smallChunks "file_1" 100
              Examples.original ltac:(reflexivity))
    as (Ht & _ & Hl & _ & Hlast & Hcat & _).
  fold tf in Ht, Hl, Hlast, Hcat.
  split; [exact Ht|]. split; [rewrite Hl; exact Ht|]. split; [|exact Hcat].
  destruct (Hlast ltac:(reflexivity)) as (c & Hc & Hs).
  exists c. split; [rewrite Ht in Hc; exact Hc | exact Hs].
Defined.
End Chunking.

(** ** File transfer: the end of the channel *)

Section ChannelClose.
Import FileTransfer.

Lemma ft_emit_run ev w :
  emit ev w
  = (Js.Normal tt, {| mgr := mgr w; trace := trace w ++ told (mgr w) ev |}).
Proof. unfold emit. rewrite emit_run. reflexivity. Qed.

Lemma emitted_app a b : emitted (a ++ b) = emitted a ++ emitted b.
Proof. apply flat_map_app. Qed.

Lemma sent_app a b : sent (a ++ b) = sent a ++ sent b.
Proof. apply flat_map_app. Qed.

Lemma emitted_EObs obs : emitted (map EObs obs) = [].
Proof. induction obs; simpl; auto. Qed.

Lemma sent_EObs obs : sent (map EObs obs) = [].
Proof. induction obs; simpl; auto. Qed.

Lemma emitted_told m ev : emitted (told m ev) = [ev].
Proof. unfold told. cbn. now rewrite emitted_EObs. Qed.

Lemma sent_told m ev : sent (told m ev) = [].
Proof. unfold told. cbn. now rewrite sent_EObs. Qed.

Section Loop.
Variable which : Manager -> JsMap.t string TransferringFile.
Variable store : JsMap.t string TransferringFile -> Manager -> Manager.
Hypothesis which_store : forall s m, which (store s m) = s.
Hypothesis store_store : forall s s' m, store s (store s' m) = store s m.

Let body (fileId : string) : M unit :=
  Js.bind
    (modifyM (fun m =>
       store (JsMap.update fileId (set_status FAILED) (which m)) m))
    (fun _ => emit (Failed fileId (Js.Error "Data channel closed"))).

(** The loop of [failAll] over the keys [ks]: every key is marked and
    announced once, nothing is sent. *)
Lemma failAll_loop ks : forall w,
  exists tr,
    Js.forEach ks body w
    = (Js.Normal tt,
       {| mgr := match ks with
                 | [] => mgr w
                 | _ => store (failed_keys ks (which (mgr w))) (mgr w)
                 end;
          trace := trace w ++ tr |})
    /\ emitted tr
       = map (fun k => Failed k (Js.Error "Data channel closed")) ks
    /\ sent tr = [].
Proof.
  induction ks as [|k ks IH]; intros w.
  - exists []. cbn. rewrite app_nil_r. destruct w; auto.
  - cbn [Js.forEach]. unfold Js.bind at 1. unfold body at 1.
    unfold Js.bind at 1, modifyM, Js.modify. rewrite ft_emit_run.
    cbn [mgr trace].
    match goal with |- context [Js.forEach ks body ?w1] =>
      destruct (IH w1) as (tr & E & He & Hs) end.
    rewrite E. cbn [mgr trace].
    eexists. split; [|split].
    + f_equal. f_equal.
      * destruct ks; [reflexivity|].
        rewrite which_store, store_store. reflexivity.
      * rewrite <- app_assoc. reflexivity.
    + rewrite emitted_app, emitted_told. cbn. now rewrite He.
    + rewrite sent_app, sent_told, Hs. reflexivity.
Qed.
End Loop.

Lemma failAll_run which store w :
  (forall s m, which (store s m) = s) ->
  (forall s s' m, store s (store s' m) = store s m) ->
  (forall m, store (which m) m = m) ->
  exists tr,
    failAll which store w
    = (Js.Normal tt,
       {| mgr := store (failed_keys (JsMap.keys (which (mgr w)))
                          (which (mgr w)))
                   (mgr w);
          trace := trace w ++ tr |})
    /\ emitted tr
       = map (fun k => Failed k (Js.Error "Data channel closed"))
           (JsMap.keys (which (mgr w)))
    /\ sent tr = [].
Proof.
  intros H1 H2 H3. unfold failAll, Js.bind at 1, getM, Js.gets.
  destruct (failAll_loop which store H1 H2 (JsMap.keys (which (mgr w))) w)
    as (tr & E & He & Hs).
  exists tr. split; [|split; assumption].
  etransitivity; [exact E|]. f_equal. f_equal.
  destruct (JsMap.keys (which (mgr w))) eqn:K; [|reflexivity].
  cbn. now rewrite H3.
Qed.

Lemma failed_keys_entry ks : forall s k t,
  In (k, t) (failed_keys ks s) ->
  exists t0, In (k, t0) s
    /\ (status t = FAILED \/ ~ In k ks /\ t = t0)
    /\ (status t0 = FAILED -> status t = FAILED).
Proof.
  induction ks as [|k1 ks IH]; intros s k t Hin.
  - exists t. cbn in Hin. tauto.
  - cbn [failed_keys fold_left] in Hin.
    destruct (IH _ _ _ Hin) as (t1 & Hin1 & Hor & Hp).
    destruct (In_update_inv _ _ _ _ _ Hin1) as (t0 & Hin0 & E).
    exists t0. split; [exact Hin0|].
    destruct (keyb_reflect k1 k) as [->|N]; subst t1.
    + assert (status t = FAILED) by (apply Hp; reflexivity). tauto.
    + split; [|exact Hp].
      destruct Hor as [?|[Hn ->]]; [tauto|]. right. split; [|reflexivity].
      intros [?|?]; [congruence|tauto].
Qed.

Lemma failed_keys_keys ks : forall s,
  JsMap.keys (failed_keys ks s) = JsMap.keys s.
Proof.
  induction ks as [|k ks IH]; intros s; [reflexivity|].
  change (JsMap.keys (failed_keys ks (JsMap.update k (set_status FAILED) s))
          = JsMap.keys s).
  now rewrite IH, keys_update.
Qed.

Lemma failed_keys_all s k t :
  In (k, t) (failed_keys (JsMap.keys s) s) -> status t = FAILED.
Proof.
  intros Hin.
  destruct (@failed_keys_entry _ _ _ _ Hin) as (t0 & Hin0 & Hor & _).
  destruct Hor as [?|[Hn _]]; [assumption|].
  exfalso. apply Hn. change k with (fst (k, t0)). now apply in_map.
Qed.

(** C8: when the data channel closes, every sending and every receiving
    transfer is marked [FAILED] and [failed] is emitted once for each, in
    the order of the tables; afterwards both tables and the queue are
    empty and the count of active transfers is zero; on a channel set
    afterwards a request for a chunk of any file sends nothing. *)
Theorem dataChannel_close_fails_every_transfer (w : World) :
  let closed := map (fun k => Failed k (Js.Error "Data channel closed")) in
  let w1 := snd (markAllFailed w) in
  let w2 := snd (handleDataChannelClose w) in
  fst (handleDataChannelClose w) = Js.Normal tt
  /\ JsMap.keys (sendingFiles (mgr w1)) = JsMap.keys (sendingFiles (mgr w))
  /\ JsMap.keys (receivingFiles (mgr w1))
     = JsMap.keys (receivingFiles (mgr w))
  /\ (forall k t,
        In (k, t) (sendingFiles (mgr w1) ++ receivingFiles (mgr w1)) ->
        status t = FAILED)
  /\ mgr w2 = clearTransfers (mgr w1)
  /\ emitted (trace w2)
     = emitted (trace w)
       ++ closed (JsMap.keys (sendingFiles (mgr w)))
       ++ closed (JsMap.keys (receivingFiles (mgr w)))
  /\ sent (trace w2) = sent (trace w)
  /\ sendingFiles (mgr w2) = JsMap.empty
  /\ receivingFiles (mgr w2) = JsMap.empty
  /\ transferQueue (mgr w2) = []
  /\ activeTransfers (mgr w2) = 0
  /\ forall ch now fileId chunkIndex,
       let w3 := {| mgr := setDataChannel ch (mgr w2); trace := trace w2 |} in
       let w4 :=
         snd (channelEvent now
                (OnMessage (InText (ChunkRequest fileId chunkIndex))) w3) in
       sent (trace w4) = sent (trace w2)
       /\ sendingFiles (mgr w4) = JsMap.empty
       /\ receivingFiles (mgr w4) = JsMap.empty.
Proof.
  intros closed w1 w2.
  destruct (@failAll_run sendingFiles set_sendingFiles w)
    as (tr1 & E1 & He1 & Hs1);
    try (intros; reflexivity); [intros []; reflexivity|].
  set (wa := snd (failAll sendingFiles set_sendingFiles w)).
  destruct (@failAll_run receivingFiles set_receivingFiles wa)
    as (tr2 & E2 & He2 & Hs2);
    try (intros; reflexivity); [intros []; reflexivity|].
  assert (Hwa : wa = {| mgr := set_sendingFiles
                          (failed_keys (JsMap.keys (sendingFiles (mgr w)))
                             (sendingFiles (mgr w))) (mgr w);
                        trace := trace w ++ tr1 |})
    by (unfold wa; now rewrite E1).
  assert (Hm : markAllFailed w
               = (Js.Normal tt,
                  snd (failAll receivingFiles set_receivingFiles wa))).
  { unfold markAllFailed, Js.bind. rewrite E1.
    replace (failAll receivingFiles set_receivingFiles
      {| mgr := set_sendingFiles
                  (failed_keys (JsMap.keys (sendingFiles (mgr w)))
                     (sendingFiles (mgr w))) (mgr w);
         trace := trace w ++ tr1 |})
      with (failAll receivingFiles set_receivingFiles wa)
      by (now rewrite Hwa).
    now rewrite E2. }
  assert (Hw1 : w1 = snd (failAll receivingFiles set_receivingFiles wa))
    by (unfold w1; now rewrite Hm).
  rewrite E2 in Hw1. cbn [snd] in Hw1.
  assert (Hc : handleDataChannelClose w
               = (Js.Normal tt,
                  {| mgr := clearTransfers (mgr w1); trace := trace w1 |})).
  { unfold handleDataChannelClose, Js.bind, w1. rewrite Hm. reflexivity. }
  assert (Hw2 : w2 = {| mgr := clearTransfers (mgr w1); trace := trace w1 |})
    by (unfold w2; now rewrite Hc).
  rewrite Hc. rewrite Hw2. cbn [fst mgr trace].
  assert (Hs : sendingFiles (mgr w1)
               = failed_keys (JsMap.keys (sendingFiles (mgr w)))
                   (sendingFiles (mgr w)))
    by (rewrite Hw1, Hwa; reflexivity).
  assert (Hr : receivingFiles (mgr w1)
               = failed_keys (JsMap.keys (receivingFiles (mgr w)))
                   (receivingFiles (mgr w)))
    by (rewrite Hw1, Hwa; reflexivity).
  assert (Ht : trace w1 = (trace w ++ tr1) ++ tr2)
    by (rewrite Hw1, Hwa; reflexivity).
  rewrite Hwa in He2. cbn [mgr receivingFiles set_sendingFiles] in He2.
  repeat split.
  - now rewrite Hs, failed_keys_keys.
  - now rewrite Hr, failed_keys_keys.
  - intros k t Hin. apply in_app_or in Hin as [Hin|Hin].
    + rewrite Hs in Hin. eapply failed_keys_all; eassumption.
    + rewrite Hr in Hin. eapply failed_keys_all; eassumption.
  - rewrite Ht, !emitted_app, He1, He2, <- app_assoc. reflexivity.
  - rewrite Ht, !sent_app, Hs1, Hs2, !app_nil_r. reflexivity.
  - cbn -[sent]. rewrite sent_app. cbn. apply app_nil_r.
Qed.

(** C8 at the sender of [Examples.fourSends]: four [failed] events, one
    for each file, and every file is marked. *)
Lemma dataChannel_close_fails_every_transfer_witness :
  emitted (trace (snd (handleDataChannelClose
                         {| mgr := mgr Examples.fourSends; trace := [] |})))
  = map (fun k => Failed k (Js.Error "Data channel closed"))
      ["file_a"; "file_b"; "file_c"; "file_d"]
  /\ option_map status
       (JsMap.get "file_d"
          (sendingFiles
             (mgr (snd (markAllFailed
                          {| mgr := mgr Examples.fourSends; trace := [] |})))))
     = Some FAILED.
Proof.
  destruct (dataChannel_close_fails_every_transfer
              {| mgr := mgr Examples.fourSends; trace := [] |})
    as (_ & _ & _ & Hall & _ & Hem & _).
  split; [rewrite Hem; reflexivity|].
  destruct (JsMap.get "file_d"
              (sendingFiles
                 (mgr (snd (markAllFailed
                              {| mgr := mgr Examples.fourSends;
                                 trace := [] |})))))
    as [t|] eqn:G; [|vm_compute in G; discriminate G].
  cbn [option_map]. f_equal. apply (Hall "file_d").
  apply in_or_app. left. now apply get_In.
Defined.
End ChannelClose.

(** ** File transfer: checksums *)

Section Checksums.
Import FileTransfer.

Lemma byte_val_range b : 0 <= byte_val b <= 255.
Proof.
  unfold byte_val. pose proof (Byte.to_N_bounded b). lia.
Qed.

Lemma byte_val_inj a b : byte_val a = byte_val b -> a = b.
Proof.
  unfold byte_val. intros E. apply N2Z.inj in E.
  pose proof (Byte.of_to_N a) as Ha. pose proof (Byte.of_to_N b) as Hb.
  rewrite E in Ha. rewrite Ha in Hb. now injection Hb.
Qed.

Lemma byteSum_app a b : byteSum (a ++ b) = byteSum a + byteSum b.
Proof.
  unfold byteSum.
  induction a as [|x a IH]; cbn [app fold_right]; [reflexivity|].
  rewrite IH. lia.
Qed.

Lemma fallback_fold d : forall acc,
  fold_left (fun checksum b => (checksum + byte_val b) mod 4294967295) d
    (acc mod 4294967295)
  = (acc + byteSum d) mod 4294967295.
Proof.
  induction d as [|b d IH]; intros acc; cbn [fold_left byteSum fold_right].
  - now rewrite Z.add_0_r.
  - rewrite Zplus_mod_idemp_l, IH. f_equal. unfold byteSum. lia.
Qed.

Lemma fallbackChecksum_sum d : fallbackChecksum d = byteSum d mod 4294967295.
Proof. unfold fallbackChecksum. exact (fallback_fold d 0). Qed.

(** The fallback checksum tells a buffer from the same buffer with one
    byte changed. *)
Lemma fallbackChecksum_detects pre post b b' :
  b <> b' ->
  fallbackChecksum (pre ++ b :: post) <> fallbackChecksum (pre ++ b' :: post).
Proof.
  intros Hne E. rewrite !fallbackChecksum_sum, !byteSum_app in E.
  change (byteSum (b :: post)) with (byte_val b + byteSum post) in E.
  change (byteSum (b' :: post)) with (byte_val b' + byteSum post) in E.
  assert (Hv : byte_val b <> byte_val b')
    by (intros Hv; apply Hne; now apply byte_val_inj).
  pose proof (byte_val_range b). pose proof (byte_val_range b').
  set (x := byteSum pre + (byte_val b + byteSum post)) in *.
  set (y := byteSum pre + (byte_val b' + byteSum post)) in *.
  assert (Hd : x - y = byte_val b - byte_val b') by (unfold x, y; lia).
  pose proof (Z.div_mod x 4294967295 ltac:(lia)).
  pose proof (Z.div_mod y 4294967295 ltac:(lia)).
  lia.
Qed.

Lemma parseHex_toString16 z : 0 <= z -> parseHex (toString16 z) = Z.to_N z.
Proof.
  intros Hz. destruct z as [|p|p]; [reflexivity| |lia].
  unfold parseHex, toString16. rewrite HexString.Raw.to_N_of_pos.
  reflexivity.
Qed.

(** So does [calculateChecksum] when it falls back on it. *)
Lemma calculateChecksum_detects pre post b b' :
  b <> b' ->
  calculateChecksum None (pre ++ b :: post)
  <> calculateChecksum None (pre ++ b' :: post).
Proof.
  intros Hne E. cbn [calculateChecksum] in E.
  apply (fallbackChecksum_detects pre post Hne).
  apply (f_equal parseHex) in E.
  assert (R : forall d, 0 <= fallbackChecksum d).
  { intros d. rewrite fallbackChecksum_sum. apply Z.mod_pos_bound. lia. }
  rewrite !parseHex_toString16 in E by apply R.
  apply Z2N.inj in E; auto.
Qed.
End Checksums.

(** ** File transfer: what [reconstructFile] does with stored chunks *)

Section Reassembly.
Import FileTransfer.

Lemma insertByIndex_perm c l : Permutation (insertByIndex c l) (c :: l).
Proof.
  induction l as [|x l IH]; cbn [insertByIndex]; [reflexivity|].
  destruct (index c <=? index x); [reflexivity|].
  rewrite IH. apply perm_swap.
Qed.

Lemma sortByIndex_perm l : Permutation (sortByIndex l) l.
Proof.
  induction l as [|c l IH]; cbn [sortByIndex]; [reflexivity|].
  rewrite insertByIndex_perm. now constructor.
Qed.

Lemma insertByIndex_sorted c l :
  StronglySorted indexLe l -> StronglySorted indexLe (insertByIndex c l).
Proof.
  induction 1 as [|x l Hs IH Hx]; cbn [insertByIndex].
  - repeat constructor.
  - destruct (Z.leb_spec (index c) (index x)) as [Hle|Hgt].
    + constructor; [now constructor|].
      constructor; [exact Hle|].
      eapply Forall_impl; [|exact Hx]. unfold indexLe. intros; lia.
    + constructor; [exact IH|].
      eapply Permutation_Forall; [symmetry; apply insertByIndex_perm|].
      constructor; [unfold indexLe; lia | exact Hx].
Qed.

Lemma sortByIndex_sorted l : StronglySorted indexLe (sortByIndex l).
Proof.
  induction l as [|c l IH]; cbn [sortByIndex];
    [constructor | now apply insertByIndex_sorted].
Qed.

(** Chunks with pairwise different indices have one sorted order. *)
Lemma sorted_unique cs : forall q,
  StronglySorted indexLt cs -> StronglySorted indexLe q ->
  Permutation q cs -> q = cs.
Proof.
  induction cs as [|c cs IH]; intros q Hcs Hq HP.
  - now apply Permutation_sym, Permutation_nil in HP.
  - destruct q as [|x q]; [apply Permutation_nil in HP; discriminate|].
    apply StronglySorted_inv in Hcs. destruct Hcs as [Hcs Hc].
    apply StronglySorted_inv in Hq. destruct Hq as [Hq Hx].
    assert (Ex : x = c).
    { assert (Ix : In x (c :: cs))
        by (eapply Permutation_in; [exact HP | now left]).
      assert (Ic : In c (x :: q))
        by (eapply Permutation_in; [symmetry; exact HP | now left]).
      destruct Ix as [->|Ix]; [reflexivity|].
      destruct Ic as [->|Ic]; [reflexivity|].
      rewrite Forall_forall in Hc, Hx.
      specialize (Hc _ Ix). specialize (Hx _ Ic).
      unfold indexLt, indexLe in *. lia. }
    subst x. f_equal. apply IH; auto.
    eapply Permutation_cons_inv; exact HP.
Qed.

Lemma sortByIndex_arrivals p cs :
  StronglySorted indexLt cs -> Permutation p cs -> sortByIndex p = cs.
Proof.
  intros Hcs HP. apply sorted_unique; auto using sortByIndex_sorted.
  now rewrite sortByIndex_perm.
Qed.

Lemma totalSize_sized cs : forall a,
  Forall sized cs ->
  fold_left (fun sum chunk => sum + chunk_size chunk) cs a
  = a + Z.of_nat (List.length (concat (map data cs))).
Proof.
  induction cs as [|c cs IH]; intros a HF; cbn [fold_left map concat].
  - cbn. lia.
  - inversion HF as [|? ? Hc HF']; subst.
    rewrite IH by exact HF'. rewrite length_app, Hc. lia.
Qed.

Lemma skipn_zeros {A} (x : A) k : forall n,
  skipn k (repeat x n) = repeat x (n - k).
Proof.
  induction k as [|k IH]; intros [|n]; cbn [skipn repeat Nat.sub];
    try reflexivity.
  apply IH.
Qed.

Lemma view_set_fill done src n :
  (List.length src <= n)%nat ->
  view_set (done ++ repeat Byte.x00 n) src (Z.of_nat (List.length done))
  = Some ((done ++ src) ++ repeat Byte.x00 (n - List.length src)).
Proof.
  intros Hn. unfold view_set.
  rewrite length_app, repeat_length.
  destruct (Z.ltb_spec (Z.of_nat (List.length done)) 0); [lia|].
  destruct (Z.ltb_spec (Z.of_nat (List.length done + n))
              (Z.of_nat (List.length done) + Z.of_nat (List.length src)));
    [lia|].
  cbn [orb]. f_equal. rewrite Nat2Z.id.
  rewrite firstn_app, Nat.sub_diag, firstn_all. cbn [firstn].
  rewrite app_nil_r, <- app_assoc. do 2 f_equal.
  rewrite skipn_app, skipn_all2 by lia. cbn [app].
  replace (List.length done + List.length src - List.length done)%nat
    with (List.length src) by lia.
  apply skipn_zeros.
Qed.

Lemma copyChunks_fill cs : forall done,
  Forall sized cs ->
  copyChunks cs
    (done ++ repeat Byte.x00 (List.length (concat (map data cs))))
    (Z.of_nat (List.length done))
  = Js.Normal (done ++ concat (map data cs)).
Proof.
  induction cs as [|c cs IH]; intros done HF; cbn [copyChunks map concat].
  - reflexivity.
  - inversion HF as [|? ? Hc HF']; subst.
    rewrite length_app, view_set_fill by lia.
    replace (List.length (data c) + List.length (concat (map data cs))
             - List.length (data c))%nat
      with (List.length (concat (map data cs))) by lia.
    rewrite Hc, <- Nat2Z.inj_add, <- length_app.
    rewrite IH by exact HF'. now rewrite <- app_assoc.
Qed.

(** [reconstructFile] puts the received chunks back in the order of
    their indices, whatever the order they were stored in. *)
Lemma reconstructFile_values tf cs :
  StronglySorted indexLt cs -> Forall sized cs ->
  Permutation (JsMap.values (receivedChunks tf)) cs ->
  reconstructFile tf
  = Js.Normal {| name := name (file tf); type := type (file tf);
                 bytes := concat (map data cs) |}.
Proof.
  intros Hs Hz HP. unfold reconstructFile.
  rewrite (sortByIndex_arrivals Hs HP).
  rewrite totalSize_sized by exact Hz. rewrite Z.add_0_l.
  destruct (Z.ltb_spec (Z.of_nat (List.length (concat (map data cs)))) 0);
    [lia|].
  rewrite Nat2Z.id.
  pose proof (@copyChunks_fill cs [] Hz) as E. cbn [app List.length Z.of_nat] in E.
  rewrite E. reflexivity.
Qed.

Lemma indices_sorted n : forall i,
  StronglySorted Z.lt (indices i n)
  /\ Forall (fun k => i <= k) (indices i n).
Proof.
  induction n as [|n IH]; intros i.
  - split; constructor.
  - rewrite indices_S. destruct (IH (i + 1)) as [Hs Hf]. split.
    + constructor; [exact Hs|].
      eapply Forall_impl; [|exact Hf]. intros k Hk. cbn beta in Hk. lia.
    + constructor; [lia|].
      eapply Forall_impl; [|exact Hf]. intros k Hk. cbn beta in *. lia.
Qed.

Lemma prepared_sorted crypto cfg tf l :
  StronglySorted Z.lt l ->
  StronglySorted indexLt (map (makeChunk crypto cfg tf) l).
Proof.
  induction 1 as [|i l Hs IH Hi]; cbn [map]; constructor; [exact IH|].
  rewrite Forall_map. eapply Forall_impl; [|exact Hi].
  intros k Hk. exact Hk.
Qed.

Lemma prepared_sized crypto cfg tf l :
  Forall sized (map (makeChunk crypto cfg tf) l).
Proof. rewrite Forall_map. apply Forall_forall. intros i _. reflexivity. Qed.

(** Had the receiver stored the chunks that [prepareFileChunks] cuts, in
    any order of arrival, [reconstructFile] would return the bytes of the
    file sent. *)
Lemma reconstructFile_prepared crypto cfg fileId now f tf :
  0 < chunkSize cfg ->
  Permutation (JsMap.values (receivedChunks tf))
    (chunks (prepareFileChunks crypto cfg (newSendingFile cfg fileId now f))) ->
  reconstructFile tf
  = Js.Normal {| name := name (file tf); type := type (file tf);
                 bytes := bytes f |}.
Proof.
  intros HC HP. rewrite chunks_prepared in HP.
  rewrite (reconstructFile_values tf
             (prepared_sorted crypto cfg _ (proj1 (indices_sorted _ 0)))
             (prepared_sized crypto cfg _ _) HP).
  rewrite concat_chunks by exact HC.
  do 2 f_equal. cbn [newSendingFile totalChunks file].
  rewrite Z.min_r
    by (apply Math_ceil_div_covers; [apply Nat2Z.is_nonneg | exact HC]).
  unfold size. rewrite Nat2Z.id. apply firstn_all.
Qed.
End Reassembly.

(** ** File transfer: what the receiver stores *)

Section Receiver.
Import FileTransfer.
Local Open Scope js_scope.

Lemma reconstructFile_empty tf :
  receivedChunks tf = JsMap.empty ->
  reconstructFile tf
  = Js.Normal {| name := name (file tf); type := type (file tf);
                 bytes := [] |}.
Proof. intros E. unfold reconstructFile. rewrite E. reflexivity. Qed.


Lemma keeps_ret A (a : A) : keeps (Js.ret a).
Proof. intros w H. exact H. Qed.

Lemma keeps_throw A e : keeps (@Js.throw World A e).
Proof. intros w H. exact H. Qed.

Lemma keeps_bind A B (c : M A) (k : A -> M B) :
  keeps c -> (forall a, keeps (k a)) -> keeps (Js.bind c k).
Proof.
  intros Hc Hk w H. unfold Js.bind. specialize (Hc w H).
  destruct (c w) as [[a|e] w']; cbn [snd] in *; [now apply Hk | exact Hc].
Qed.

Lemma keeps_tryCatch A (c : M A) h :
  keeps c -> (forall e, keeps (h e)) -> keeps (Js.tryCatch c h).
Proof.
  intros Hc Hh w H. unfold Js.tryCatch. specialize (Hc w H).
  destruct (c w) as [[a|e] w']; cbn [snd] in *; [exact Hc | now apply Hh].
Qed.

Lemma keeps_getM : keeps getM.
Proof. intros w H. exact H. Qed.

Lemma keeps_modifyM f : gentle f -> keeps (modifyM f).
Proof.
  intros Hf w [H1 H2]. split; [|exact H2]. cbn. intros k t Hin.
  destruct (Hf _ _ _ Hin) as (t0 & Hin0 & E). rewrite E. eauto.
Qed.

Lemma keeps_lift f w : gentle f -> storesNothing w -> storesNothing (lift f w).
Proof. intros Hf H. exact (keeps_modifyM Hf H). Qed.

Lemma keeps_log e :
  match e with EEmit ev => hollow ev | _ => True end -> keeps (log e).
Proof.
  intros He w [H1 H2]. split; [exact H1|]. cbn.
  rewrite emitted_app, Forall_app. split; [exact H2|].
  destruct e; cbn; auto.
Qed.

Lemma keeps_console msg : keeps (console msg).
Proof. now apply keeps_log. Qed.

Lemma keeps_emit ev : hollow ev -> keeps (emit ev).
Proof.
  intros He w [H1 H2]. rewrite ft_emit_run. split; [exact H1|].
  cbn [snd trace]. rewrite emitted_app, emitted_told, Forall_app. auto.
Qed.

Lemma keeps_forEach A (xs : list A) body :
  (forall x, keeps (body x)) -> keeps (Js.forEach xs body).
Proof.
  intros Hb. induction xs as [|x xs IH]; cbn [Js.forEach].
  - apply keeps_ret.
  - apply keeps_bind; auto.
Qed.

Lemma keeps_channel_send ch p : keeps (channel_send ch p).
Proof.
  unfold channel_send. destruct (sendThrows ch);
    [apply keeps_throw | now apply keeps_log].
Qed.

Lemma keeps_sendControlMessage msg : keeps (sendControlMessage msg).
Proof.
  unfold sendControlMessage. apply keeps_bind; [apply keeps_getM|].
  intros m. destruct (dataChannel m) as [ch|]; [|apply keeps_throw].
  destruct (isOpen ch); [|apply keeps_throw].
  apply keeps_tryCatch; [apply keeps_channel_send|].
  intros e. apply keeps_bind; [apply keeps_console | intros; apply keeps_throw].
Qed.

Lemma gentle_id f :
  (forall m, receivingFiles (f m) = receivingFiles m) -> gentle f.
Proof. intros Hf m k t Hin. rewrite Hf in Hin. eauto. Qed.

Lemma receivingFiles_startTransfer fileId m :
  receivingFiles (startTransfer fileId m) = receivingFiles m.
Proof.
  unfold startTransfer. now destruct (JsMap.get fileId (sendingFiles m)).
Qed.

Lemma receivingFiles_processQueue q : forall m,
  receivingFiles (processQueue q m) = receivingFiles m.
Proof.
  induction q as [|fileId q IH]; intros m; cbn [processQueue]; [reflexivity|].
  destruct (activeTransfers m <? maxConcurrentTransfers (config m));
    [|reflexivity].
  rewrite IH. destruct (truthy fileId); [|reflexivity].
  now rewrite receivingFiles_startTransfer.
Qed.

Lemma gentle_processTransferQueue : gentle processTransferQueue.
Proof.
  apply gentle_id. intros m. apply receivingFiles_processQueue.
Qed.

Lemma gentle_status fileId s :
  gentle (fun m =>
    set_receivingFiles
      (JsMap.update fileId (set_status s) (receivingFiles m)) m).
Proof.
  intros m k t Hin. cbn in Hin.
  apply In_update_inv in Hin. destruct Hin as (t0 & Hin & ->).
  exists t0. split; [exact Hin|]. now destruct (keyb fileId k).
Qed.

Lemma gentle_delete fileId :
  gentle (fun m =>
    set_receivingFiles (JsMap.delete fileId (receivingFiles m)) m).
Proof.
  intros m k t Hin. cbn in Hin. apply In_delete_inv in Hin. exists t. tauto.
Qed.

Lemma gentle_comp f g : gentle f -> gentle g -> gentle (fun m => f (g m)).
Proof.
  intros Hf Hg m k t Hin.
  destruct (Hf _ _ _ Hin) as (t1 & H1 & E1).
  destruct (Hg _ _ _ H1) as (t0 & H0 & E0).
  exists t0. split; [exact H0 | congruence].
Qed.

Ltac keeps_step :=
  cbv beta zeta;
  lazymatch goal with
  | |- forall _, keeps _ => intros ?
  | |- keeps (Js.ret _) => apply keeps_ret
  | |- keeps (Js.throw _) => apply keeps_throw
  | |- keeps getM => apply keeps_getM
  | |- keeps (console _) => apply keeps_console
  | |- keeps (sendControlMessage _) => apply keeps_sendControlMessage
  | |- keeps (channel_send _ _) => apply keeps_channel_send
  | |- keeps (Js.bind _ _) => apply keeps_bind; [|intros ?]
  | |- keeps (Js.tryCatch _ _) => apply keeps_tryCatch; [|intros ?]
  | |- keeps (emit _) => apply keeps_emit; exact I
  | |- keeps (modifyM processTransferQueue) =>
      apply keeps_modifyM, gentle_processTransferQueue
  | |- keeps (modifyM _) =>
      apply keeps_modifyM, gentle_id; intros ?; reflexivity
  end.

Ltac keeps_steps := repeat keeps_step.

Lemma keeps_updateSendProgress fileId n : keeps (updateSendProgress fileId n).
Proof.
  unfold updateSendProgress. apply keeps_bind; [apply keeps_getM|]. intros m.
  destruct (JsMap.get fileId (sendingFiles m)); keeps_steps.
Qed.

Lemma keeps_sendFileChunk chunk fileId : keeps (sendFileChunk chunk fileId).
Proof.
  unfold sendFileChunk, handleTransferError.
  apply keeps_bind; [apply keeps_getM|]. intros m.
  destruct (dataChannel m) as [ch|]; [|apply keeps_console].
  destruct (isOpen ch); [|apply keeps_console].
  keeps_steps. apply keeps_updateSendProgress.
Qed.

Lemma keeps_completeTransfer fileId isSender :
  keeps (completeTransfer fileId isSender).
Proof.
  intros w HI. unfold completeTransfer.
  unfold Js.bind at 1. unfold getM at 1, Js.gets.
  destruct isSender.
  - destruct (JsMap.get fileId (sendingFiles (mgr w))); [|exact HI].
    revert w HI. apply keeps_bind; keeps_steps.
  - destruct (JsMap.get fileId (receivingFiles (mgr w))) as [t|] eqn:G;
      [|exact HI].
    assert (E : receivedChunks t = JsMap.empty)
      by (apply (proj1 HI fileId); now apply get_In).
    unfold Js.bind at 2. cbn [fst snd].
    rewrite reconstructFile_empty by exact E.
    clear G. revert w HI. apply keeps_bind; [|keeps_steps].
    intros w HI. revert w HI. apply keeps_bind.
    + apply keeps_modifyM, gentle_delete.
    + intros _. apply keeps_emit. reflexivity.
Qed.

Lemma keeps_handleControlMessage now message :
  keeps (handleControlMessage now message).
Proof.
  destruct message; cbn [handleControlMessage].
  - cbv beta delta [handleFileInfo] zeta. apply keeps_bind; keeps_steps.
    intros w [H1 H2]. split; [|exact H2]. cbn. intros k t Hin.
    apply In_set_inv in Hin. destruct Hin as [Hin|Hin]; [|eauto].
    injection Hin as _ ->. reflexivity.
  - unfold handleChunkRequest. apply keeps_bind; [apply keeps_getM|].
    intros m.
    destruct (JsMap.get fileId (sendingFiles m)) as [t|]; keeps_steps.
    destruct (at_index (chunks t) chunkIndex); keeps_steps.
    apply keeps_sendFileChunk.
  - apply keeps_console.
  - unfold handleChunkAck. apply keeps_bind; [apply keeps_getM|].
    intros m.
    destruct (JsMap.get fileId (sendingFiles m)) as [t|]; keeps_steps.
    destruct (chunkIndex + 1 <? totalChunks t); keeps_steps.
    apply keeps_completeTransfer.
  - apply keeps_completeTransfer.
  - apply keeps_console.
  - apply keeps_console.
Qed.

Lemma keeps_failAll_receiving : keeps (failAll receivingFiles set_receivingFiles).
Proof.
  unfold failAll. apply keeps_bind; keeps_steps.
  apply keeps_forEach. intros fileId. apply keeps_bind; keeps_steps.
  apply keeps_modifyM, gentle_status.
Qed.

Lemma keeps_failAll_sending : keeps (failAll sendingFiles set_sendingFiles).
Proof.
  unfold failAll. apply keeps_bind; keeps_steps.
  apply keeps_forEach. intros fileId. apply keeps_bind; keeps_steps.
Qed.

Lemma keeps_channelEvent now e : keeps (channelEvent now e).
Proof.
  destruct e as [d| |]; cbn [channelEvent].
  - unfold handleDataChannelMessage. apply keeps_tryCatch; keeps_steps.
    destruct d; keeps_steps.
    + apply keeps_handleControlMessage.
    + apply keeps_console.
  - apply keeps_bind; keeps_steps. apply keeps_console.
  - apply keeps_bind; keeps_steps.
    unfold handleDataChannelClose, markAllFailed.
    apply keeps_bind; keeps_steps.
    + apply keeps_failAll_sending.
    + apply keeps_failAll_receiving.
    + apply keeps_modifyM. intros m k t [].
Qed.

Lemma keeps_sendFile crypto fileId now f : keeps (sendFile crypto fileId now f).
Proof.
  unfold sendFile, sendFileInfo. apply keeps_tryCatch; keeps_steps.
Qed.

Lemma keeps_cancelTransfer fileId : keeps (cancelTransfer fileId).
Proof.
  unfold cancelTransfer. apply keeps_bind; [apply keeps_getM|].
  intros m. cbv zeta. apply keeps_bind; keeps_steps.
  - destruct (JsMap.get fileId (sendingFiles m)); keeps_steps.
  - destruct (JsMap.get fileId (receivingFiles m)); keeps_steps.
    apply keeps_modifyM.
    exact (gentle_comp (@gentle_delete fileId)
             (@gentle_status fileId CANCELLED)).
Qed.

Lemma gentle_updateTransfer fileId s : gentle (updateTransfer fileId (set_status s)).
Proof.
  intros m k t. unfold updateTransfer.
  destruct (JsMap.get fileId (sendingFiles m)); [cbn; eauto|].
  apply gentle_status.
Qed.

Lemma gentle_pauseTransfer fileId : gentle (pauseTransfer fileId).
Proof.
  intros m k t. unfold pauseTransfer.
  destruct (findTransfer fileId m) as [t0|]; [|eauto].
  destruct (status_eqb (status t0) TRANSFERRING); [|eauto].
  apply gentle_updateTransfer.
Qed.

Lemma gentle_resumeTransfer fileId : gentle (resumeTransfer fileId).
Proof.
  intros m k t. unfold resumeTransfer.
  destruct (findTransfer fileId m) as [t0|]; [|eauto].
  destruct (status_eqb (status t0) PAUSED); [|eauto]. cbv zeta.
  destruct (JsMap.has fileId _); [|apply gentle_updateTransfer].
  unfold processTransferQueue. rewrite receivingFiles_processQueue.
  cbn [set_transferQueue receivingFiles]. apply gentle_updateTransfer.
Qed.

Lemma keeps_destroy : keeps destroy.
Proof.
  unfold destroy. apply keeps_bind; [apply keeps_getM|]. intros m.
  apply keeps_bind; [apply keeps_forEach, keeps_cancelTransfer|]. intros _.
  apply keeps_bind; [apply keeps_getM|]. intros m'.
  apply keeps_bind; [apply keeps_forEach, keeps_cancelTransfer|]. intros _.
  apply keeps_modifyM, gentle_id. reflexivity.
Qed.

Lemma perform_storesNothing c w :
  storesNothing w -> storesNothing (perform c w).
Proof.
  destruct c; cbn [perform].
  - apply keeps_lift, gentle_id. reflexivity.
  - apply keeps_lift, gentle_id. reflexivity.
  - apply keeps_lift, gentle_id. reflexivity.
  - apply keeps_sendFile.
  - apply keeps_lift, gentle_pauseTransfer.
  - apply keeps_lift, gentle_resumeTransfer.
  - apply keeps_cancelTransfer.
  - apply keeps_lift, gentle_id. reflexivity.
  - apply keeps_destroy.
  - apply keeps_channelEvent.
Qed.

(** Whatever is called and whatever arrives, the receiver holds no chunk
    and every [completed] event reports a file without bytes. *)
Lemma receiver_stores_nothing cs : forall w,
  storesNothing w -> storesNothing (performAll cs w).
Proof.
  unfold performAll.
  induction cs as [|c cs IH]; intros w H; cbn [fold_left]; [exact H|].
  apply IH, perform_storesNothing, H.
Qed.

Lemma completed_files_are_empty cfg cs fileId f :
  In (Completed fileId f)
    (emitted (trace (performAll cs {| mgr := new cfg; trace := [] |}))) ->
  bytes f = [].
Proof.
  intros Hin.
  assert (H0 : storesNothing {| mgr := new cfg; trace := [] |})
    by (split; [intros k t [] | constructor]).
  destruct (receiver_stores_nothing cs H0) as [_ H].
  rewrite Forall_forall in H. exact (H _ Hin).
Qed.
End Receiver.

(** ** File transfer: cancelling a file that is being sent *)

Section Cancelling.
Import FileTransfer.

Lemma transferQueue_startTransfer fileId m :
  transferQueue (startTransfer fileId m) = transferQueue m.
Proof.
  unfold startTransfer. now destruct (JsMap.get fileId (sendingFiles m)).
Qed.

Lemma processQueue_queue q : forall m x,
  (forall y, In y (transferQueue m) -> In y q) ->
  In x (transferQueue (processQueue q m)) -> In x q.
Proof.
  induction q as [|fileId q IH]; intros m x Hm; cbn [processQueue].
  - apply Hm.
  - destruct (activeTransfers m <? maxConcurrentTransfers (config m));
      [|apply Hm].
    intros Hin. right. revert Hin. apply IH. intros y.
    destruct (truthy fileId);
      [rewrite transferQueue_startTransfer|]; cbn; auto.
Qed.

Lemma removeFirst_In fileId x q : In x (removeFirst fileId q) -> In x q.
Proof.
  induction q as [|y q IH]; cbn [removeFirst]; [auto|].
  destruct (String.eqb y fileId); cbn; intuition.
Qed.

Lemma removeFirst_NoDup fileId q :
  NoDup q -> ~ In fileId (removeFirst fileId q).
Proof.
  induction 1 as [|y q Hy Hq IH]; cbn [removeFirst]; [auto|].
  destruct (String.eqb_spec y fileId) as [->|N]; [exact Hy|].
  cbn. intuition.
Qed.

Lemma processQueue_sending k q m :
  JsMap.get k (sendingFiles (processQueue q m)) = None
  <-> JsMap.get k (sendingFiles m) = None.
Proof.
  pose proof (processQueue_content k q m) as E. unfold contentOf in E.
  destruct (JsMap.get k (sendingFiles (processQueue q m))),
    (JsMap.get k (sendingFiles m)); cbn in E; try discriminate;
    split; congruence.
Qed.

(** [cancelTransfer] of a file that is being sent: the call returns, the
    file is in neither table, one [cancelled] event and no other event is
    emitted, and the id is no longer in the queue (in which it was at
    most once). *)
Lemma cancelTransfer_sending fileId w t :
  JsMap.get fileId (sendingFiles (mgr w)) = Some t ->
  JsMap.get fileId (receivingFiles (mgr w)) = None ->
  let w' := snd (cancelTransfer fileId w) in
  fst (cancelTransfer fileId w) = Js.Normal tt
  /\ findTransfer fileId (mgr w') = None
  /\ emitted (trace w') = emitted (trace w) ++ [Cancelled fileId]
  /\ (NoDup (transferQueue (mgr w)) -> ~ In fileId (transferQueue (mgr w'))).
Proof.
  intros Hs Hr.
  cbv beta iota zeta
    delta [cancelTransfer Js.bind getM Js.gets modifyM Js.modify Js.ret].
  rewrite Hs, Hr. cbv beta iota. rewrite ft_emit_run.
  cbn [fst snd mgr trace]. split; [reflexivity|]. split; [|split].
  - unfold findTransfer, processTransferQueue.
    assert (E : forall q m,
      JsMap.get fileId (sendingFiles m) = None ->
      JsMap.get fileId (receivingFiles m) = None ->
      match JsMap.get fileId (sendingFiles (processQueue q m)) with
      | Some t => Some t
      | None => JsMap.get fileId (receivingFiles (processQueue q m))
      end = None).
    { intros q m H1 H2. apply (processQueue_sending fileId q) in H1.
      rewrite H1. clear H1. revert m H2.
      induction q as [|x q IH]; intros m H2; cbn [processQueue]; [exact H2|].
      destruct (activeTransfers m <? maxConcurrentTransfers (config m));
        [|exact H2].
      apply IH. destruct (truthy x); [|exact H2].
      unfold startTransfer. cbn.
      now destruct (JsMap.get x (sendingFiles m)). }
    apply E; cbn; [|exact Hr].
    rewrite get_delete, keyb_refl. reflexivity.
  - rewrite emitted_app, emitted_told. reflexivity.
  - intros Hq Hin. unfold processTransferQueue in Hin.
    apply processQueue_queue in Hin; [|auto].
    cbn in Hin. revert Hin. now apply removeFirst_NoDup.
Qed.
End Cancelling.

(** ** File transfer: answering a request for a chunk *)

Section Requests.
Import FileTransfer.

(** [FileTransferManager] answers a request for a chunk at once: the
    header and the bytes go to the open channel whatever its
    [bufferedAmount] is. *)
Lemma handleChunkRequest_sends_at_once fileId i w ch t c :
  dataChannel (mgr w) = Some ch -> isOpen ch = true -> sendThrows ch = None ->
  JsMap.get fileId (sendingFiles (mgr w)) = Some t ->
  at_index (chunks t) i = Some c ->
  sent (trace (snd (handleChunkRequest fileId i w)))
  = sent (trace w)
    ++ [PText (ChunkHeader fileId (chunk_id c) (index c) (chunk_size c)
                 (checksum c));
        PBinary (data c)].
Proof.
  intros Hc Ho Ht Hs Hi.
  cbv beta iota zeta
    delta [handleChunkRequest sendFileChunk updateSendProgress channel_send
           Js.bind Js.tryCatch getM Js.gets modifyM Js.modify Js.ret log].
  rewrite Hs, Hi, Hc, Ho, Ht. cbv beta iota. rewrite ft_emit_run.
  cbn [mgr trace]. rewrite Hs. cbv beta iota. rewrite ft_emit_run.
  cbn [snd mgr trace].
  rewrite !sent_app, !sent_told, !app_nil_r, <- app_assoc. reflexivity.
Qed.
End Requests.

(** ** File transfer: cancelling, and the receiving side *)

Section Runs.
Import FileTransfer Examples.

(** C9, evaluated where it fails: after four [sendFile] calls under the
    default configuration three transfers are active and [file_d] waits in
    the queue; [cancelTransfer] of an id that names no transfer returns
    normally and emits nothing, but it starts [file_d]: the queue becomes
    empty and four files are [TRANSFERRING] under a limit of three. *)
Theorem cancelTransfer_unknown_id_changes_state :
  let w := fourSends in
  let w' := snd (cancelTransfer "file_x" w) in
  findTransfer "file_x" (mgr w) = None
  /\ (transferQueue (mgr w), activeTransfers (mgr w), transferring (mgr w))
     = (["file_d"], 3, ["file_a"; "file_b"; "file_c"])
  /\ option_map status (findTransfer "file_d" (mgr w)) = Some PREPARING
  /\ fst (cancelTransfer "file_x" w) = Js.Normal tt
  /\ emitted (trace w') = emitted (trace w)
  /\ (transferQueue (mgr w'), activeTransfers (mgr w'), transferring (mgr w'))
     = ([], 3, ["file_a"; "file_b"; "file_c"; "file_d"])
  /\ option_map status (findTransfer "file_d" (mgr w')) = Some TRANSFERRING
  /\ maxConcurrentTransfers (config (mgr w')) = 3
  /\ mgr w' <> mgr w.
Proof.
  cbv zeta. repeat (split; [vm_compute; reflexivity|]).
  intros E. apply (f_equal transferQueue) in E. vm_compute in E.
  discriminate E.
Qed.

(** An id under which one file is being sent and another received (the
    peer announced a file under the same id) is cancelled with two
    [cancelled] events. *)
Lemma cancelTransfer_in_both_tables :
  let w :=
    receive 150 [InText (FileInfo "file_1" "b.bin" 3 "text/plain" 1 4 true)]
      senderStarted in
  emitted (trace (snd (cancelTransfer "file_1" w)))
  = emitted (trace w) ++ [Cancelled "file_1"; Cancelled "file_1"].
Proof. vm_compute. reflexivity. Qed.

(** C2, evaluated where it fails: the sender announces a file of ten bytes
    in three chunks, the receiver asks for chunk 0 and the sender sends its
    header and its bytes; the receiver stores nothing, asks for no further
    chunk and reports nothing; when [transfer-complete] arrives, the file
    it reports is empty. *)
Theorem receiver_rebuilds_an_empty_file :
  sent (trace senderStarted)
  = [PText (FileInfo "file_1" "a.bin" 10 "application/octet-stream" 3 4 true)]
  /\ sent (trace receiverInformed) = [PText (ChunkRequest "file_1" 0)]
  /\ sent (trace senderAnswered)
     = [PText (ChunkHeader "file_1" "file_1-0" 0 4 (Some "a"));
        PBinary firstChunk]
  /\ option_map receivedChunks
       (JsMap.get "file_1" (receivingFiles (mgr receiverAfterChunk)))
     = Some JsMap.empty
  /\ sent (trace receiverAfterChunk) = []
  /\ emitted (trace receiverAfterChunk) = []
  /\ emitted
       (trace (receive 500 [InText (TransferComplete "file_1")]
                 receiverAfterChunk))
     = [Completed "file_1"
          {| name := "a.bin"; type := "application/octet-stream";
             bytes := [] |}]
  /\ bytes original <> [].
Proof.
  repeat split; try (vm_compute; reflexivity). discriminate.
Qed.

(** The handler of a binary message does not look at the bytes. *)
Lemma handleFileChunk_ignores_data now d d' w :
  channelEvent now (OnMessage (InBinary d)) w
  = channelEvent now (OnMessage (InBinary d')) w.
Proof. reflexivity. Qed.

(** C3, evaluated where it fails: the header of chunk 0 arrives with the
    checksum of the bytes sent, then the bytes arrive with one byte
    changed. The checksum of the bytes received differs from the one in
    the header, yet the receiver ends in the state it reaches with the
    bytes unchanged: no transfer changes, nothing is emitted. *)
Theorem corrupted_chunk_goes_unnoticed :
  let header :=
    InText (ChunkHeader "file_1" "file_1-0" 0 4
              (Some (calculateChecksum None firstChunk))) in
  let w := receive 400 [header] receiverInformed in
  let bad := snd (channelEvent 400 (OnMessage (InBinary corrupted)) w) in
  let good := snd (channelEvent 400 (OnMessage (InBinary firstChunk)) w) in
  calculateChecksum None corrupted <> calculateChecksum None firstChunk
  /\ bad = good
  /\ mgr bad = mgr w
  /\ emitted (trace bad) = []
  /\ sent (trace bad) = sent (trace w).
Proof.
  cbv zeta. repeat split; try (vm_compute; reflexivity).
  vm_compute. discriminate.
Qed.
End Runs.

(** ** Signaling: reconnection *)

Section Reconnection.
Import Signaling.

Lemma sig_emit_run ev w :
  emit ev w
  = (Js.Normal tt, {| mgr := mgr w; trace := trace w ++ told (mgr w) ev |}).
Proof. unfold emit. rewrite emit_run. reflexivity. Qed.

Lemma timeouts_told m ev : timeouts (told m ev) = [].
Proof.
  unfold told. cbn.
  induction (Emitter.reactions event_name
               "Error in signaling event listener for " (eventListeners m) ev);
    simpl; auto.
Qed.

Ltac js_unfold :=
  unfold handle, connect, connectFailed, attemptReconnect, onopen, onclose,
    onerror, reconnectTimer, disconnect, joinRoom, leaveRoom, sendMessage,
    createWebSocketConnection, startHeartbeat, stopHeartbeat, setState,
    console, log, modifyM, getM,
    Js.bind, Js.tryCatch, Js.ret, Js.throw, Js.gets, Js.modify.

Ltac js_case :=
  match goal with
  | |- context [emit ?ev ?w] => rewrite (sig_emit_run ev w)
  | |- context [match state ?m with _ => _ end] => destruct (state m) eqn:?
  | |- context [match currentUserId ?m with _ => _ end] =>
      destruct (currentUserId m) eqn:?
  | |- context [match currentRoomId ?m with _ => _ end] =>
      destruct (currentRoomId m) eqn:?
  | |- context [if ?b then _ else _] => destruct b eqn:?
  end.

Ltac js_run :=
  repeat (js_unfold;
          cbn -[emit timeouts Z.pow Z.mul Z.add Z.sub Z.ltb Z.leb Z.eqb told];
          try js_case).

Ltac js_done :=
  unfold timeouts;
  repeat (cbn -[Z.pow Z.mul Z.add Z.sub told];
          rewrite ?flat_map_app;
          try rewrite (timeouts_told : forall m ev, flat_map _ _ = _)).

(** What one input does to the attempt counter and to the timers: nothing;
    or a close with a code other than 1000 counts one attempt and sets one
    timer; or an open socket or a call of [disconnect] zeroes the
    counter. *)
Lemma step_reconnect i m :
  let m' := fst (step i m) in
  let tr := snd (step i m) in
  maxReconnectAttempts m' = maxReconnectAttempts m
  /\ reconnectDelay m' = reconnectDelay m
  /\ ((reconnectAttempts m' = reconnectAttempts m /\ timeouts tr = [])
      \/ (reconnectAttempts m < maxReconnectAttempts m
          /\ reconnectAttempts m' = reconnectAttempts m + 1
          /\ timeouts tr = [reconnectDelay m * 2 ^ (reconnectAttempts m' - 1)]
          /\ exists code, i = WsClose code /\ code <> 1000)
      \/ (reconnectAttempts m' = 0 /\ timeouts tr = []
          /\ ((i = WsOpen /\ state m' = CONNECTED)
              \/ exists wsOpen, i = CallDisconnect wsOpen))).
Proof.
  unfold step. destruct i; js_run; js_done;
    (split; [reflexivity|split; [reflexivity|]]).
  all: try (left; split; reflexivity).
  all: try (right; right; repeat split; eauto; fail).
  all: try (right; left; repeat split; try reflexivity; try lia;
            exists code; split; [reflexivity|lia]).
  all: right; right; repeat split; left; split; [reflexivity|].
  all: destruct (state m); try discriminate; reflexivity.
Qed.

Lemma backoff_S d n : backoff d (S n) = backoff d n ++ [d * 2 ^ Z.of_nat n].
Proof. unfold backoff. now rewrite seq_S, map_app. Qed.

Lemma backoff_length d n : List.length (backoff d n) = n.
Proof. unfold backoff. now rewrite length_map, length_seq. Qed.

Lemma run_invariant ins : forall m streak,
  0 <= reconnectAttempts m <= maxReconnectAttempts m ->
  streak = backoff (reconnectDelay m) (Z.to_nat (reconnectAttempts m)) ->
  let m' := fst (run ins m streak) in
  maxReconnectAttempts m' = maxReconnectAttempts m
  /\ reconnectDelay m' = reconnectDelay m
  /\ 0 <= reconnectAttempts m' <= maxReconnectAttempts m
  /\ snd (run ins m streak)
     = backoff (reconnectDelay m) (Z.to_nat (reconnectAttempts m')).
Proof.
  induction ins as [|i ins IH]; intros m streak Hb Hs.
  - cbn. auto.
  - cbn [run]. pose proof (step_reconnect i m) as S.
    destruct (step i m) as [m1 tr]. cbn [fst snd] in S.
    destruct S as (Hmax & Hdel & Hcases).
    match goal with |- context [run ins m1 ?st] =>
      specialize (IH m1 st) end.
    rewrite Hmax, Hdel in IH. apply IH.
    + destruct Hcases as [[Ha _]|[(Hlt & Ha & _)|(Ha & _)]]; lia.
    + destruct Hcases as [[Ha Ht]|[(Hlt & Ha & Ht & _)|(Ha & Ht & _)]].
      * rewrite Ha, Ht, app_nil_r.
        destruct (Z.eqb_spec (reconnectAttempts m) 0) as [E|E]; [|exact Hs].
        now rewrite E.
      * destruct (Z.eqb_spec (reconnectAttempts m1) 0) as [E|E]; [lia|].
        rewrite Ht, Hs, Ha.
        replace (Z.to_nat (reconnectAttempts m + 1))
          with (S (Z.to_nat (reconnectAttempts m))) by lia.
        rewrite backoff_S. do 4 f_equal. lia.
      * rewrite Ha. reflexivity.
Qed.

Lemma onclose_schedules code m :
  code <> 1000 -> reconnectAttempts m < maxReconnectAttempts m ->
  timeouts (snd (step (WsClose code) m))
  = [reconnectDelay m * 2 ^ reconnectAttempts m]
  /\ reconnectAttempts (fst (step (WsClose code) m)) = reconnectAttempts m + 1.
Proof.
  intros Hc Hlt. unfold step.
  assert (E1 : (code =? 1000) = false) by now apply Z.eqb_neq.
  assert (E2 : (reconnectAttempts m <? maxReconnectAttempts m) = true)
    by now apply Z.ltb_lt.
  assert (E3 : (maxReconnectAttempts m <=? reconnectAttempts m) = false)
    by (apply Z.leb_gt; lia).
  js_run; js_done.
  all: try congruence.
  all: try (exfalso;
            match goal with
            | H : negb _ && _ = false |- _ =>
                rewrite E1, E2 in H; discriminate H
            end).
  all: split; [|reflexivity]; do 3 f_equal; lia.
Qed.

(** C4, as the code has it: under a reconnection configuration
    [(maxAttempts, delay)] (initially [(5, 1000)]) and after any inputs, the
    attempt counter is between 0 and [maxAttempts]; the timers set since
    the counter was last zero are [delay * 2^0, ..., delay * 2^(k-1)] for
    the [k] attempts counted, so at most [maxAttempts] of them; a close
    with a code other than 1000 while attempts remain sets the timer of
    attempt [k + 1] with delay [delay * 2^k], and nothing else sets a
    timer; and the counter goes down only to zero, and only when a socket
    opens (the state becomes [CONNECTED]) or [disconnect] is called. *)
Theorem reconnect_backoff urlOk supported maxAttempts delay ins :
  0 <= maxAttempts ->
  let m0 := setReconnectConfig maxAttempts delay (new urlOk supported) in
  let m := fst (run ins m0 []) in
  let streak := snd (run ins m0 []) in
  (maxReconnectAttempts (new urlOk supported) = 5
   /\ reconnectDelay (new urlOk supported) = 1000)
  /\ (maxReconnectAttempts m = maxAttempts /\ reconnectDelay m = delay)
  /\ 0 <= reconnectAttempts m <= maxAttempts
  /\ streak = backoff delay (Z.to_nat (reconnectAttempts m))
  /\ Z.of_nat (List.length streak) <= maxAttempts
  /\ (forall code,
        code <> 1000 -> reconnectAttempts m < maxAttempts ->
        timeouts (snd (step (WsClose code) m))
        = [delay * 2 ^ (reconnectAttempts m + 1 - 1)]
        /\ reconnectAttempts (fst (step (WsClose code) m))
           = reconnectAttempts m + 1)
  /\ (forall i, timeouts (snd (step i m)) <> [] ->
        exists code, i = WsClose code /\ code <> 1000)
  /\ (forall i,
        reconnectAttempts (fst (step i m)) < reconnectAttempts m ->
        reconnectAttempts (fst (step i m)) = 0
        /\ ((i = WsOpen /\ state (fst (step i m)) = CONNECTED)
            \/ exists wsOpen, i = CallDisconnect wsOpen)).
Proof.
  intros Hmax m0 m streak.
  destruct (@run_invariant ins m0 []) as (Hm & Hd & Hb & Hs);
    [cbn; lia | reflexivity |].
  change (maxReconnectAttempts m0) with maxAttempts in *.
  change (reconnectDelay m0) with delay in *.
  fold m in Hm, Hd, Hb, Hs. fold streak in Hs. clearbody m streak.
  split; [split; reflexivity|].
  split; [split; assumption|].
  split; [assumption|].
  split; [assumption|].
  split; [rewrite Hs, backoff_length; lia|].
  split; [|split].
  - intros code Hc Hlt. rewrite <- Hm in Hlt.
    destruct (onclose_schedules m Hc Hlt) as [Ht Ha].
    rewrite Ht, Ha, Hd. split; [|reflexivity]. do 3 f_equal. lia.
  - intros i Hne. destruct (step_reconnect i m) as (_ & _ & Hcases).
    destruct Hcases as [[_ Ht]|[(_ & _ & _ & Hex)|(_ & Ht & _)]];
      [contradiction | exact Hex | contradiction].
  - intros i Hlt. destruct (step_reconnect i m) as (_ & _ & Hcases).
    destruct Hcases as [[Ha _]|[(_ & Ha & _)|(Ha & _ & Hor)]]; [lia | lia |].
    split; assumption.
Qed.

(** C4 as stated fails: after a connection, an abnormal close (one attempt
    counted) and a call of [disconnect], the counter is zero again although
    the state is [DISCONNECTED], not [CONNECTED]. *)
Lemma reset_without_connected :
  ~ (forall ins i,
       let m := fst (run ins (new true true) []) in
       reconnectAttempts (fst (step i m)) < reconnectAttempts m ->
       state (fst (step i m)) = CONNECTED).
Proof.
  intros H.
  specialize (H [CallConnect "u1"; WsOpen; WsClose 1006] (CallDisconnect true)).
  vm_compute in H. specialize (H eq_refl). discriminate H.
Qed.

(** C4 at a run with two failed connections in a row: two attempts, with
    delays of 1000 and 2000 ms. *)
Lemma reconnect_backoff_witness :
  let ins := [CallConnect "u1"; WsOpen; WsClose 1006; ReconnectTimer;
              WsError; ConnectRejected "error"; WsClose 1006] in
  reconnectAttempts
    (fst (run ins (setReconnectConfig 5 1000 (new true true)) [])) = 2
  /\ snd (run ins (setReconnectConfig 5 1000 (new true true)) [])
     = [1000; 2000].
Proof.
  intros ins.
  pose proof (@reconnect_backoff true true 5 1000 ins ltac:(lia)) as H.
  cbv zeta in H. destruct H as (_ & _ & _ & Hs & _).
  split; [vm_compute; reflexivity|].
  rewrite Hs. vm_compute. reflexivity.
Defined.
End Reconnection.

(** ** The relay: notifications of a join *)

Section Rooms.
Import RoomService.

Lemma client_eqb_spec a b : client_eqb a b = true <-> a = b.
Proof.
  unfold client_eqb. destruct a as [i1 w1 r1], b as [i2 w2 r2]. cbn.
  rewrite !andb_true_iff, !String.eqb_eq, Nat.eqb_eq.
  split; [intros [[-> ->] ->]; reflexivity | intros [= -> -> ->]; auto].
Qed.

Lemma client_eqb_refl a : client_eqb a a = true.
Proof. now apply client_eqb_spec. Qed.

Lemma client_eqb_neq a b : a <> b -> client_eqb a b = false.
Proof.
  intros N. destruct (client_eqb a b) eqn:E; [|reflexivity].
  apply client_eqb_spec in E. contradiction.
Qed.

Lemma others_set client m :
  keyed m ->
  filter (isOther client) (JsMap.values (JsMap.set (id client) client m))
  = filter (isOther client) (JsMap.values m).
Proof.
  unfold keyed, JsMap.values. induction m as [|[k v] m IH]; intros Hk.
  - cbn. unfold isOther. now rewrite String.eqb_refl.
  - inversion Hk as [|? ? Hkv Hk']; subst. cbn in Hkv. subst k.
    cbn [JsMap.set keyb string_EqKey].
    destruct (String.eqb_spec (id client) (id v)) as [E|N].
    + assert (H1 : isOther client client = false)
        by (unfold isOther; now rewrite String.eqb_refl).
      assert (H2 : isOther client v = false)
        by (unfold isOther; now rewrite <- E, String.eqb_refl).
      cbn [map snd filter]. now rewrite H1, H2.
    + cbn [map snd filter]. rewrite IH by assumption. reflexivity.
Qed.

Lemma notices_others roomId_ client l :
  flat_map (joinNotices roomId_ client) l
  = flat_map (joinNotices roomId_ client) (filter (isOther client) l).
Proof.
  induction l as [|o l IH]; [reflexivity|]. cbn [flat_map filter].
  unfold isOther at 1. unfold joinNotices at 1.
  destruct (negb (id o =? id client)%string) eqn:E.
  - cbn [flat_map]. unfold joinNotices at 2. rewrite E, IH. reflexivity.
  - exact IH.
Qed.

Lemma receivedBy_app c a b :
  receivedBy c (a ++ b) = receivedBy c a ++ receivedBy c b.
Proof. apply flat_map_app. Qed.

Lemma received_by_joiner roomId_ client l :
  Forall (fun o => isOther client o = true) l ->
  receivedBy client (flat_map (joinNotices roomId_ client) l)
  = map (fun o => joinMsg roomId_ (id o) (id client)) l.
Proof.
  induction 1 as [|o l Ho Hl IH]; [reflexivity|].
  cbn [flat_map map]. rewrite receivedBy_app, IH.
  unfold joinNotices. unfold isOther in Ho. rewrite Ho.
  cbn. rewrite client_eqb_refl.
  rewrite client_eqb_neq; [reflexivity|].
  intros ->. rewrite String.eqb_refl in Ho. discriminate.
Qed.

Lemma received_by_stranger roomId_ client c l :
  c <> client -> ~ In c l ->
  receivedBy c (flat_map (joinNotices roomId_ client) l) = [].
Proof.
  intros Hc. induction l as [|o l IH]; intros Hn; [reflexivity|].
  cbn [flat_map]. rewrite receivedBy_app, IH by (cbn in Hn; tauto).
  rewrite app_nil_r. unfold joinNotices.
  destruct (negb (id o =? id client)%string); [|reflexivity].
  cbn. rewrite (@client_eqb_neq o c) by (cbn in Hn; tauto).
  rewrite (@client_eqb_neq client c) by congruence. reflexivity.
Qed.

Lemma received_by_member roomId_ client m l :
  NoDup l -> In m l -> isOther client m = true ->
  receivedBy m (flat_map (joinNotices roomId_ client) l)
  = [joinMsg roomId_ (id client) (id m)].
Proof.
  intros Hnd Hin Hm.
  assert (Hmc : m <> client).
  { intros ->. unfold isOther in Hm. rewrite String.eqb_refl in Hm.
    discriminate. }
  induction Hnd as [|o l Hno Hnd IH]; [contradiction|].
  cbn [flat_map]. rewrite receivedBy_app.
  destruct Hin as [->|Hin].
  - rewrite received_by_stranger by assumption.
    unfold joinNotices. unfold isOther in Hm. rewrite Hm. cbn.
    rewrite client_eqb_refl, (@client_eqb_neq client m) by congruence.
    reflexivity.
  - rewrite IH by assumption.
    assert (o <> m) by (intros ->; contradiction).
    unfold joinNotices.
    destruct (negb (id o =? id client)%string); [|reflexivity].
    cbn. rewrite (@client_eqb_neq o m), (@client_eqb_neq client m)
      by congruence.
    reflexivity.
Qed.

Lemma values_NoDup (m : JsMap.t string Client) :
  JsMap.wf m -> keyed m -> NoDup (JsMap.values m).
Proof.
  unfold JsMap.wf, keyed, JsMap.keys, JsMap.values.
  induction m as [|[k v] m IH]; intros Hnd Hk; cbn; [constructor|].
  inversion Hnd as [|? ? Hni Hnd']; inversion Hk as [|? ? Hkv Hk']; subst.
  cbn in Hkv. subst k. constructor; [|now apply IH].
  intros Hin. apply Hni. apply in_map_iff in Hin as ((k2, v2) & E & Hin).
  cbn in E. subst v2. rewrite Forall_forall in Hk'.
  specialize (Hk' _ Hin). cbn in Hk'. subst k2.
  change (id v) with (fst (id v, v)). now apply in_map.
Qed.

Lemma others_all client (m : JsMap.t string Client) :
  keyed m -> JsMap.has (id client) m = false ->
  filter (isOther client) (JsMap.values m) = JsMap.values m.
Proof.
  unfold keyed, JsMap.has, isOther.
  induction m as [|[k v] m IH]; intros Hk Hh; [reflexivity|].
  inversion Hk as [|? ? Hkv Hk']; subst. cbn in Hkv. subst k.
  cbn in Hh |- *. rewrite (String.eqb_sym (id v)).
  destruct (id client =? id v)%string; [discriminate|].
  cbn. f_equal. now apply IH.
Qed.

(** C5: when a client joins a room, each member other than itself is sent
    exactly one notification, a [JOIN] that names the client; the client
    is sent exactly one [JOIN] for each of those members, naming it, in
    the order of the room; nobody else is sent anything, and no
    notification names its own recipient. When the client was not yet in
    the room, those members are all the members. *)
Theorem joinRoom_notifies_pairwise roomId_ client s :
  wf s ->
  let members := getRoomClients roomId_ s in
  let others := filter (isOther client) members in
  let out := snd (joinRoom roomId_ client s) in
  (hasClientInRoom roomId_ (id client) s = false -> others = members)
  /\ (forall m, In m others ->
        receivedBy m out = [joinMsg roomId_ (id client) (id m)])
  /\ receivedBy client out
     = map (fun m => joinMsg roomId_ (id m) (id client)) others
  /\ List.length (receivedBy client out) = List.length others
  /\ (forall c, c <> client -> ~ In c others -> receivedBy c out = [])
  /\ (forall p, In p out ->
        type (snd p) = JOIN /\ from (snd p) <> to (snd p)
        /\ to (snd p) = id (fst p)).
Proof.
  intros Hwf members others out.
  assert (Hroom : exists cs,
            members = JsMap.values cs /\ JsMap.wf cs /\ keyed cs
            /\ (hasClientInRoom roomId_ (id client) s = false ->
                JsMap.has (id client) cs = false)
            /\ out = flat_map (joinNotices roomId_ client)
                       (JsMap.values (JsMap.set (id client) client cs))).
  { unfold members, out, getRoomClients, joinRoom, hasClientInRoom.
    destruct (JsMap.get roomId_ (rooms s)) as [room|] eqn:E.
    - apply get_In in E. destruct (Hwf _ _ E) as [H1 H2].
      exists (clients room). auto.
    - exists []. repeat split; auto; constructor. }
  destruct Hroom as (cs & Hmem & Hcs & Hk & Hhas & Hout).
  assert (Hout' : out = flat_map (joinNotices roomId_ client) others).
  { rewrite Hout, notices_others, others_set by assumption.
    unfold others. now rewrite Hmem. }
  assert (Hoth : Forall (fun o => isOther client o = true) others).
  { apply Forall_forall. intros o Ho. unfold others in Ho.
    now apply filter_In in Ho. }
  assert (Hnd : NoDup others).
  { unfold others. apply NoDup_filter. rewrite Hmem.
    now apply values_NoDup. }
  split; [|split; [|split; [|split; [|split]]]].
  - intros Hn. unfold others. rewrite Hmem. apply others_all; auto.
  - intros m Hm. rewrite Hout'. apply received_by_member; auto.
    rewrite Forall_forall in Hoth. auto.
  - rewrite Hout'. now apply received_by_joiner.
  - rewrite Hout', received_by_joiner, length_map by assumption. reflexivity.
  - intros c Hc Hn. rewrite Hout'. now apply received_by_stranger.
  - intros p Hp. rewrite Hout' in Hp.
    apply in_flat_map in Hp as (o & Ho & Hp). unfold joinNotices in Hp.
    destruct (String.eqb_spec (id o) (id client)) as [E|N]; [contradiction|].
    destruct Hp as [<-|[<-|[]]]; cbn; repeat split; congruence.
Qed.

(** ** The relay: the room table *)

Lemma keyed_set (c : Client) m : keyed m -> keyed (JsMap.set (id c) c m).
Proof.
  unfold keyed. induction m as [|[k v] m IH]; intros Hk; cbn.
  - repeat constructor.
  - inversion Hk; subst. destruct (String.eqb_spec (id c) k) as [<-|N];
      constructor; auto.
Qed.

Lemma keyed_delete k m : keyed m -> keyed (JsMap.delete k m).
Proof.
  unfold keyed, JsMap.delete. intros Hk. rewrite Forall_forall in *.
  intros p Hp. apply filter_In in Hp as [Hp _]. auto.
Qed.

Lemma occupied_new : occupied new.
Proof. intros k r []. Qed.

Lemma joinRoom_occupied k c s :
  occupied s -> occupied (fst (joinRoom k c s)).
Proof.
  intros Hs k1 r1 Hin. unfold joinRoom in Hin. cbn [fst rooms] in Hin.
  apply In_set_inv in Hin as [E|Hin]; [|now apply Hs].
  injection E as -> ->. cbn [room_id clients set_clients].
  split; [|split; [apply set_not_nil|]].
  - destruct (JsMap.get k (rooms s)) as [room|] eqn:G; [|reflexivity].
    apply get_In in G. now apply Hs in G.
  - destruct (JsMap.get k (rooms s)) as [room|] eqn:G.
    + apply get_In in G. apply Hs in G as (_ & _ & Hw & Hk).
      split; [now apply wf_set | now apply keyed_set].
    + split; [apply wf_set; constructor | apply keyed_set; constructor].
Qed.

Lemma leaveRoom_occupied cid s :
  occupied s -> occupied (fst (leaveRoom cid s)).
Proof.
  intros Hs. unfold leaveRoom.
  destruct (JsMap.get cid (all_clients s)) as [client|]; [|exact Hs].
  destruct (JsMap.get (roomId client) (rooms s)) as [room|] eqn:G;
    [|exact Hs].
  cbn [fst rooms]. apply get_In in G.
  destruct (Hs _ _ G) as (Hid & _ & Hw & Hk).
  intros k1 r1 Hin. cbn [fst rooms clients set_clients room_id] in Hin.
  assert (Hup : forall k1 r1,
            In (k1, r1)
              (JsMap.update (roomId client)
                 (fun _ => set_clients (JsMap.delete cid (clients room)) room)
                 (rooms s)) ->
            (k1 = roomId client
             /\ r1 = set_clients (JsMap.delete cid (clients room)) room)
            \/ In (k1, r1) (rooms s)).
  { intros k2 r2 H2. apply In_update_inv in H2 as (r0 & H0 & E).
    destruct (keyb_reflect (roomId client) k2) as [<-|N]; subst r2; auto. }
  destruct (JsMap.size (JsMap.delete cid (clients room)) =? 0) eqn:Z.
  - apply In_delete_inv in Hin as [Hin Hne].
    destruct (Hup _ _ Hin) as [[-> _]|Hold]; [congruence | now apply Hs].
  - destruct (Hup _ _ Hin) as [[-> ->]|Hold]; [|now apply Hs].
    cbn [room_id clients set_clients]. split; [exact Hid|]. split.
    + intros E. rewrite E in Z. discriminate.
    + split; [now apply wf_delete | now apply keyed_delete].
Qed.

Lemma runOps_occupied ops : forall s, occupied s -> occupied (runOps ops s).
Proof.
  induction ops as [|o ops IH]; intros s Hs; [exact Hs|].
  cbn [runOps fold_left]. apply IH.
  destruct o; cbn [apply];
    [now apply joinRoom_occupied | now apply leaveRoom_occupied].
Qed.

Lemma runOps_wf ops : wf (runOps ops new).
Proof.
  intros k r Hin.
  now destruct (@runOps_occupied ops new occupied_new k r Hin) as (_ & _ & H).
Qed.

(** C5 at the scenario of the specification: [u1] is in room [r1] and [u2]
    joins; [u1] is told once that [u2] joined and [u2] is told once that
    [u1] is there. *)
Lemma joinRoom_notifies_pairwise_witness :
  let s := runOps [Join "r1" Examples.u1] new in
  let out := snd (joinRoom "r1" Examples.u2 s) in
  receivedBy Examples.u1 out = [joinMsg "r1" "u2" "u1"]
  /\ receivedBy Examples.u2 out = [joinMsg "r1" "u1" "u2"].
Proof.
  intros s out.
  destruct (@joinRoom_notifies_pairwise "r1" Examples.u2 s
              (runOps_wf [Join "r1" Examples.u1]))
    as (_ & Hm & Hc & _).
  split.
  - apply (Hm Examples.u1). vm_compute. now left.
  - exact Hc.
Defined.

(** C6: after any sequence of [joinRoom] and [leaveRoom] on a new service,
    every room in the table is stored under its id and has a member;
    [hasRoom] is true exactly for the rooms that have a member; a join
    makes the room exist, and creates it with the client as only member
    when it did not; when the only member of a room leaves, the room is
    gone at once, and when another member remains, the room stays. *)
Theorem rooms_exist_while_occupied ops :
  let s := runOps ops new in
  (forall k r, getRoom k s = Some r ->
     room_id r = k /\ 0 < JsMap.size (clients r))
  /\ (forall k, hasRoom k s = true <->
                exists r, getRoom k s = Some r /\ 0 < JsMap.size (clients r))
  /\ (forall k, hasRoom k s = true <->
                exists cid, hasClientInRoom k cid s = true)
  /\ (forall k c,
        hasRoom k (apply (Join k c) s) = true
        /\ hasClientInRoom k (id c) (apply (Join k c) s) = true)
  /\ (forall k c,
        hasRoom k s = false ->
        getRoom k (apply (Join k c) s)
        = Some {| room_id := k; name := "default";
                  clients := JsMap.set (id c) c JsMap.empty |})
  /\ (forall cid c r,
        getClient cid s = Some c -> getRoom (roomId c) s = Some r ->
        (forall k, In k (JsMap.keys (clients r)) -> k = cid) ->
        hasRoom (roomId c) (apply (Leave cid) s) = false)
  /\ (forall cid c r k,
        getClient cid s = Some c -> getRoom (roomId c) s = Some r ->
        In k (JsMap.keys (clients r)) -> k <> cid ->
        hasRoom (roomId c) (apply (Leave cid) s) = true).
Proof.
  intros s.
  assert (Hs : occupied s) by (apply runOps_occupied, occupied_new).
  assert (Hsz : forall k r, getRoom k s = Some r ->
            room_id r = k /\ 0 < JsMap.size (clients r)).
  { intros k r G. apply get_In in G. destruct (Hs _ _ G) as (Hid & Hne & _).
    split; [exact Hid|]. unfold JsMap.size.
    destruct (clients r); [congruence|cbn; lia]. }
  split; [exact Hsz|]. split; [|split; [|split; [|split; [|split]]]].
  - intros k. unfold hasRoom, JsMap.has. fold (getRoom k s).
    destruct (getRoom k s) as [r|] eqn:G.
    + split; [intros _; exists r; split; [reflexivity|now apply (Hsz k)]
             | reflexivity].
    + split; [discriminate | intros (r & E & _); discriminate].
  - intros k. unfold hasRoom, hasClientInRoom, JsMap.has.
    destruct (JsMap.get k (rooms s)) as [r|] eqn:G.
    + split; [intros _ | reflexivity].
      apply get_In in G. destruct (Hs _ _ G) as (_ & Hne & _).
      destruct (clients r) as [|[cid c] cs]; [congruence|].
      exists cid. cbn. now rewrite String.eqb_refl.
    + split; [discriminate | intros (cid & E); discriminate].
  - intros k c. unfold hasRoom, hasClientInRoom, apply, joinRoom, JsMap.has.
    cbn [fst rooms]. rewrite !get_set_same. cbn [clients set_clients].
    rewrite get_set_same. auto.
  - intros k c Hn. unfold hasRoom, JsMap.has in Hn.
    unfold getRoom, apply, joinRoom. cbn [fst rooms]. rewrite get_set_same.
    destruct (JsMap.get k (rooms s)); [discriminate|reflexivity].
  - intros cid c r Hc Hr Hall. unfold getClient in Hc. unfold getRoom in Hr.
    unfold hasRoom, apply, leaveRoom. rewrite Hc, Hr. cbn [fst rooms].
    destruct (Hsz _ _ Hr) as [Hid _].
    assert (E : JsMap.delete cid (clients r) = []).
    { unfold JsMap.delete. apply (proj1 (length_zero_iff_nil _)).
      destruct (filter _ (clients r)) as [|[k v] l] eqn:F; [reflexivity|].
      exfalso.
      assert (Hin : In (k, v)
                      (filter (fun p => negb (keyb cid (fst p))) (clients r)))
        by (rewrite F; now left).
      apply filter_In in Hin as [Hin Hk]. cbn in Hk.
      assert (k = cid)
        by (apply Hall; change k with (fst (k, v)); now apply in_map).
      subst. rewrite String.eqb_refl in Hk. discriminate. }
    rewrite E.
    cbn [JsMap.size List.length Z.of_nat Z.eqb room_id set_clients clients].
    unfold JsMap.has. rewrite get_delete, Hid.
    cbn [keyb string_EqKey]. now rewrite String.eqb_refl.
  - intros cid c r k Hc Hr Hin Hne. unfold getClient in Hc.
    unfold getRoom in Hr.
    unfold hasRoom, apply, leaveRoom. rewrite Hc, Hr. cbn [fst rooms].
    assert (E : (JsMap.size (JsMap.delete cid (clients r)) =? 0) = false).
    { apply Z.eqb_neq. unfold JsMap.size, JsMap.delete.
      apply in_map_iff in Hin as ((k2, v) & Ek & Hin). cbn in Ek. subst k2.
      assert (Hf : In (k, v)
                     (filter (fun p => negb (keyb cid (fst p))) (clients r))).
      { apply filter_In. split; [exact Hin|]. cbn.
        destruct (String.eqb_spec cid k); [congruence|reflexivity]. }
      destruct (filter _ (clients r)); [contradiction|cbn; lia]. }
    cbn [clients set_clients]. rewrite E.
    unfold JsMap.has. rewrite get_update, Hr.
    cbn [keyb string_EqKey]. now rewrite String.eqb_refl.
Qed.

(** C6 at two clients that join room [r1] and leave it one after the
    other: the room exists until the second one leaves. *)
Lemma rooms_exist_while_occupied_witness :
  let s1 := runOps [Join "r1" Examples.u1; Join "r1" Examples.u2] new in
  let s2 := runOps [Join "r1" Examples.u1; Join "r1" Examples.u2;
                    Leave "u1"] new in
  hasRoom "r1" s1 = true
  /\ hasRoom "r1" (apply (Leave "u1") s1) = true
  /\ hasRoom "r1" (apply (Leave "u2") s2) = false.
Proof.
  intros s1 s2.
  destruct (rooms_exist_while_occupied
              [Join "r1" Examples.u1; Join "r1" Examples.u2])
    as (_ & H1 & _ & _ & _ & _ & Hstay).
  destruct (rooms_exist_while_occupied
              [Join "r1" Examples.u1; Join "r1" Examples.u2; Leave "u1"])
    as (_ & _ & _ & _ & _ & Hgone & _).
  fold s1 in H1, Hstay. fold s2 in Hgone.
  split; [|split].
  - apply H1. eexists. split; [vm_compute; reflexivity|reflexivity].
  - eapply (Hstay "u1" Examples.u1 _ "u2");
      [vm_compute; reflexivity | vm_compute; reflexivity
       | vm_compute; tauto | discriminate].
  - eapply (Hgone "u2" Examples.u2);
      [vm_compute; reflexivity | vm_compute; reflexivity |].
    intros k Hk. vm_compute in Hk. destruct Hk as [<-|[]]. reflexivity.
Defined.
End Rooms.

(** ** WebRTC manager: sending under a buffer limit *)

Section Backpressure.
Import WebRTC.

Variable env : Channel.

Lemma waitForBuffer_S fuel t :
  waitForBuffer (S fuel) env t
  = if env t >? BUFFER_LIMIT then
      (fst (waitForBuffer fuel env (S t)),
       ReadBuffered (env t) :: Sleep 10 :: snd (waitForBuffer fuel env (S t)))
    else (Some (S t), [ReadBuffered (env t)]).
Proof.
  cbn [waitForBuffer]. destruct (env t >? BUFFER_LIMIT); [|reflexivity].
  now destruct (waitForBuffer fuel env (S t)).
Qed.

Lemma waitForBuffer_sends fuel : forall t,
  sends (snd (waitForBuffer fuel env t)) = [].
Proof.
  induction fuel as [|fuel IH]; intros t; [reflexivity|].
  rewrite waitForBuffer_S. destruct (env t >? BUFFER_LIMIT); [|reflexivity].
  cbn [snd]. exact (IH (S t)).
Qed.

(** A wait that ends is followed by a guarded send; a wait that runs out
    of fuel has sent nothing. *)
Lemma waitForBuffer_guard fuel : forall t last,
  match waitForBuffer fuel env t with
  | (Some _, tr) =>
      forall d rest,
        sendsGuarded last (tr ++ Send d :: rest) = sendsGuarded None rest
  | (None, tr) => sendsGuarded last tr = true
  end.
Proof.
  induction fuel as [|fuel IH]; intros t last; [reflexivity|].
  cbn [waitForBuffer]. destruct (env t >? BUFFER_LIMIT) eqn:E.
  - specialize (IH (S t) None).
    destruct (waitForBuffer fuel env (S t)) as [[t'|] tr]; cbn; auto.
  - intros d rest. cbn.
    assert (H : (env t <=? BUFFER_LIMIT) = true) by lia.
    now rewrite H.
Qed.

Lemma progressStep_trace ft sc total :
  snd (progressStep ft sc total) = []
  \/ exists ev, snd (progressStep ft sc total) = [Emit ev].
Proof. destruct ft; cbn; eauto. Qed.

Lemma sendLoop_guard fuel content total n : forall i sc ft t last,
  sendsGuarded last
    (snd (sendLoop fuel env content total n i sc ft t)) = true.
Proof.
  induction n as [|n IH]; intros i sc ft t last; [reflexivity|].
  cbn [sendLoop]. pose proof (waitForBuffer_guard fuel t last) as W.
  destruct (waitForBuffer fuel env t) as [[t'|] tr]; [|exact W].
  pose proof (progressStep_trace ft (sc + 1) total) as P.
  destruct (progressStep ft (sc + 1) total) as [ft1 tr1]. cbn [snd] in P.
  specialize (IH (i + 1) (sc + 1) ft1 t' None).
  destruct (sendLoop fuel env content total n (i + 1) (sc + 1) ft1 t')
    as [[done ft2] tr2].
  cbn [snd] in *. rewrite W.
  destruct P as [->|[ev ->]]; exact IH.
Qed.

Lemma sends_app a b : sends (a ++ b) = sends a ++ sends b.
Proof. apply flat_map_app. Qed.

(** The loop sends the chunks in index order, starting from [i]: all [n]
    of them when it ends, a first part of them otherwise. *)
Lemma sendLoop_sends fuel content total n : forall i sc ft t,
  exists k, (k <= n)%nat
    /\ sends (snd (sendLoop fuel env content total n i sc ft t))
       = map (chunkAt content) (indices i k)
    /\ (fst (fst (sendLoop fuel env content total n i sc ft t)) = true ->
        k = n).
Proof.
  induction n as [|n IH]; intros i sc ft t.
  - exists 0%nat. cbn. auto.
  - cbn [sendLoop]. pose proof (waitForBuffer_sends fuel t) as W.
    destruct (waitForBuffer fuel env t) as [[t'|] tr]; cbn [snd] in W.
    + pose proof (progressStep_trace ft (sc + 1) total) as P.
      destruct (progressStep ft (sc + 1) total) as [ft1 tr1]. cbn [snd] in P.
      destruct (IH (i + 1) (sc + 1) ft1 t') as (k & Hk & Hs & Hd).
      destruct (sendLoop fuel env content total n (i + 1) (sc + 1) ft1 t')
        as [[done ft2] tr2].
      cbn [fst snd] in *. exists (S k). split; [lia|]. split.
      * rewrite sends_app, W. cbn [app sends flat_map].
        change (flat_map _ (tr1 ++ tr2)) with (sends (tr1 ++ tr2)).
        rewrite sends_app, Hs, indices_S.
        destruct P as [->|[ev ->]]; reflexivity.
      * intros E. now rewrite Hd.
    + exists 0%nat. cbn [fst snd].
      split; [lia|]. split; [exact W|discriminate].
Qed.

Lemma waitForBuffer_stalls fuel : forall t,
  (forall u, (t <= u < t + fuel)%nat -> env u > BUFFER_LIMIT) ->
  fst (waitForBuffer fuel env t) = None.
Proof.
  induction fuel as [|fuel IH]; intros t H; [reflexivity|].
  rewrite waitForBuffer_S.
  assert (E : (env t >? BUFFER_LIMIT) = true) by (specialize (H t); lia).
  rewrite E. cbn [fst]. apply IH. intros u Hu. apply H. lia.
Qed.

Lemma waitForBuffer_drains : forall d t,
  env (t + d)%nat <= BUFFER_LIMIT ->
  exists t', fst (waitForBuffer (S d) env t) = Some t'.
Proof.
  induction d as [|d IH]; intros t H; rewrite waitForBuffer_S.
  - replace (t + 0)%nat with t in H by lia.
    assert (E : (env t >? BUFFER_LIMIT) = false) by lia.
    rewrite E. cbn [fst]. eauto.
  - destruct (env t >? BUFFER_LIMIT); [|cbn [fst]; eauto].
    cbn [fst]. apply IH.
    now replace (S t + d)%nat with (t + S d)%nat by lia.
Qed.

Lemma waitForBuffer_mono fuel : forall fuel' t t' tr,
  (fuel <= fuel')%nat ->
  waitForBuffer fuel env t = (Some t', tr) ->
  waitForBuffer fuel' env t = (Some t', tr).
Proof.
  induction fuel as [|fuel IH]; intros fuel' t t' tr Hle H; [discriminate|].
  destruct fuel' as [|fuel']; [lia|]. cbn [waitForBuffer] in *.
  destruct (env t >? BUFFER_LIMIT); [|exact H].
  destruct (waitForBuffer fuel env (S t)) as [[t1|] tr1] eqn:E;
    [|discriminate].
  rewrite (IH fuel' (S t) t1 tr1) by (auto; lia). exact H.
Qed.

Lemma sendLoop_mono fuel fuel' content total n : forall i sc ft t,
  (fuel <= fuel')%nat ->
  fst (fst (sendLoop fuel env content total n i sc ft t)) = true ->
  sendLoop fuel' env content total n i sc ft t
  = sendLoop fuel env content total n i sc ft t.
Proof.
  induction n as [|n IH]; intros i sc ft t Hle H; [reflexivity|].
  cbn [sendLoop] in *.
  destruct (waitForBuffer fuel env t) as [[t'|] tr] eqn:W; [|discriminate].
  rewrite (waitForBuffer_mono _ Hle W).
  destruct (progressStep ft (sc + 1) total) as [ft1 tr1].
  specialize (IH (i + 1) (sc + 1) ft1 t' Hle).
  destruct (sendLoop fuel env content total n (i + 1) (sc + 1) ft1 t')
    as [[done ft2] tr2].
  cbn [fst] in *. rewrite IH by exact H. reflexivity.
Qed.

(** When the buffer always drains again, the loop ends, given enough
    fuel. *)
Lemma sendLoop_live content total n :
  (forall t, exists t', (t <= t')%nat /\ env t' <= BUFFER_LIMIT) ->
  forall i sc ft t,
  exists fuel, fst (fst (sendLoop fuel env content total n i sc ft t)) = true.
Proof.
  intros Hlive. induction n as [|n IH]; intros i sc ft t.
  - exists 0%nat. reflexivity.
  - destruct (Hlive t) as (u & Hu & Hlow).
    assert (Hlow' : env (t + (u - t))%nat <= BUFFER_LIMIT)
      by now replace (t + (u - t))%nat with u by lia.
    destruct (waitForBuffer_drains _ _ Hlow') as (t' & W).
    set (f1 := S (u - t)) in *.
    destruct (waitForBuffer f1 env t) as [r tr] eqn:W1.
    cbn [fst] in W. subst r.
    destruct (progressStep ft (sc + 1) total) as [ft1 tr1] eqn:P.
    destruct (IH (i + 1) (sc + 1) ft1 t') as (f2 & H2).
    exists (Nat.max f1 f2). cbn [sendLoop].
    rewrite (waitForBuffer_mono _ (Nat.le_max_l f1 f2) W1), P.
    rewrite (sendLoop_mono _ _ _ _ _ _ _ (Nat.le_max_r f1 f2) H2).
    destruct (sendLoop f2 env content total n (i + 1) (sc + 1) ft1 t')
      as [[done ft2] tr2].
    exact H2.
Qed.

Lemma fileChunks_concat content : concat (fileChunks content) = content.
Proof.
  unfold fileChunks.
  set (len := Z.of_nat (List.length content)).
  set (n := Z.to_nat (FileTransfer.Math_ceil_div len CHUNK_SIZE)).
  transitivity
    (concat (map (fun i => FileTransfer.slice content (i * CHUNK_SIZE)
                             (Z.min (i * CHUNK_SIZE + CHUNK_SIZE) len))
               (indices 0 n))); [reflexivity|].
  unfold len. rewrite slices_concat by reflexivity.
  rewrite Z.min_r by (apply Math_ceil_div_covers; [lia|reflexivity]).
  apply firstn_all2. lia.
Qed.

Lemma guarded_snoc_emit ev tr : forall last,
  sendsGuarded last tr = true -> sendsGuarded last (tr ++ [Emit ev]) = true.
Proof.
  induction tr as [|a tr IH]; intros last H; [reflexivity|].
  destruct a; cbn in *; auto.
  destruct last; [|discriminate].
  apply andb_true_iff in H as [H1 H2]. rewrite H1. cbn. auto.
Qed.

Lemma sends_snoc_emit ev tr : sends (tr ++ [Emit ev]) = sends tr.
Proof. rewrite sends_app. cbn. apply app_nil_r. Qed.

(** C7: in a chunked send every chunk is handed to the channel directly
    after a reading of [bufferedAmount] that does not exceed 16 MiB; the
    chunks go out in index order with none left out, so a send that ends
    has handed over the whole file; as long as every reading exceeds the
    limit nothing is sent; and when the buffer always drains again, the
    send ends. *)
Theorem sendFileInChunks_respects_buffer content fileTransfer :
  (forall fuel,
     let r := sendFileInChunks fuel env content fileTransfer in
     let done := fst (fst r) in
     let tr := snd r in
     sendsGuarded None tr = true
     /\ (exists k, sends tr = firstn k (fileChunks content))
     /\ (done = true ->
         sends tr = fileChunks content /\ concat (sends tr) = content)
     /\ ((forall t, (t < fuel)%nat -> env t > BUFFER_LIMIT) ->
         content <> [] -> done = false /\ sends tr = []))
  /\ ((forall t, exists t', (t <= t')%nat /\ env t' <= BUFFER_LIMIT) ->
      exists fuel,
        fst (fst (sendFileInChunks fuel env content fileTransfer)) = true).
Proof.
  set (total := FileTransfer.Math_ceil_div (Z.of_nat (List.length content))
                  CHUNK_SIZE).
  set (ft0 := option_map (set_status TRANSFERRING) fileTransfer).
  assert (Hrun : forall fuel,
            let l := sendLoop fuel env content total (Z.to_nat total) 0 0
                       ft0 0%nat in
            fst (fst (sendFileInChunks fuel env content fileTransfer))
            = fst (fst l)
            /\ sends (snd (sendFileInChunks fuel env content fileTransfer))
               = sends (snd l)
            /\ sendsGuarded None
                 (snd (sendFileInChunks fuel env content fileTransfer))
               = true).
  { intros fuel l. unfold sendFileInChunks. fold total. fold ft0.
    pose proof (sendLoop_guard fuel content total (Z.to_nat total)
                  0 0 ft0 0%nat None) as G.
    fold l in G |- *. destruct l as [[done ft1] tr1]. cbn [fst snd] in *.
    destruct done; [|auto]. destruct ft1; cbn [fst snd]; [|auto].
    rewrite sends_snoc_emit. split; [reflexivity|]. split; [reflexivity|].
    now apply guarded_snoc_emit. }
  split.
  - intros fuel r done tr. destruct (Hrun fuel) as (Hd & Hs & Hg).
    fold r in Hd, Hs, Hg. fold done in Hd. fold tr in Hs, Hg.
    destruct (sendLoop_sends fuel content total (Z.to_nat total) 0 0 ft0 0%nat)
      as (k & Hk & Hsk & Hdk).
    rewrite <- Hs in Hsk. rewrite <- Hd in Hdk.
    split; [exact Hg|]. split; [|split].
    + exists k. rewrite Hsk. unfold fileChunks. fold total.
      now rewrite firstn_map, indices_firstn.
    + intros E. specialize (Hdk E). subst k.
      assert (Hall : sends tr = fileChunks content)
        by (rewrite Hsk; reflexivity).
      split; [exact Hall|]. rewrite Hall. apply fileChunks_concat.
    + intros Hstall Hne.
      assert (Hpos : (0 < Z.to_nat total)%nat).
      { apply Math_ceil_div_pos; [|reflexivity].
        destruct content; [congruence|cbn [List.length]; lia]. }
      assert (W : fst (waitForBuffer fuel env 0) = None)
        by (apply waitForBuffer_stalls; intros u Hu; apply Hstall; lia).
      pose proof (waitForBuffer_sends fuel 0) as Ws.
      rewrite Hd, Hs.
      destruct (Z.to_nat total) as [|n]; [lia|]. cbn [sendLoop].
      destruct (waitForBuffer fuel env 0) as [r0 tr0]. cbn [fst snd] in W, Ws.
      subst r0. cbn [fst snd]. auto.
  - intros Hlive.
    destruct (@sendLoop_live content total (Z.to_nat total) Hlive 0 0 ft0
                0%nat)
      as (fuel & H).
    exists fuel. destruct (Hrun fuel) as (Hd & _). now rewrite Hd.
Qed.
End Backpressure.

(** C7 at a channel whose first three readings are above the limit: three
    reads are not enough and nothing is sent; the fourth read lets the
    file through. *)
Lemma sendFileInChunks_respects_buffer_witness :
  let env : WebRTC.Channel := fun t => if (t <? 3)%nat then 20000000 else 0 in
  let content := [Byte.x01; Byte.x02; Byte.x03] in
  fst (fst (WebRTC.sendFileInChunks 3 env content None)) = false
  /\ WebRTC.sends (snd (WebRTC.sendFileInChunks 3 env content None)) = []
  /\ fst (fst (WebRTC.sendFileInChunks 4 env content None)) = true
  /\ concat (WebRTC.sends (snd (WebRTC.sendFileInChunks 4 env content None)))
     = content.
Proof.
  intros env content.
  destruct (sendFileInChunks_respects_buffer env content None) as [H _].
  destruct (H 3%nat) as (_ & _ & _ & Hstall).
  destruct (H 4%nat) as (_ & _ & Hdone & _).
  destruct Hstall as [S1 S2].
  - intros t Ht. unfold env. destruct (Nat.ltb_spec t 3); [reflexivity|lia].
  - discriminate.
  - destruct (Hdone eq_refl) as [_ C].
    repeat split; assumption || reflexivity.
Defined.

(** ** The three [emit] methods *)

(** C10: a call of [emit] of the file transfer manager, of the signaling
    manager or of the WebRTC manager ends normally whatever the listeners
    do, and leaves the fields of the manager as they were; the listeners
    called are all the listeners registered for the event, once each, in
    the order of registration; the error of a listener that throws is
    printed by [console.error]; and a listener added with [on] is among
    the listeners of the event. *)
Theorem emit_contains_listener_errors :
  (forall ev w,
     FileTransfer.emit ev w
     = (Js.Normal tt,
        {| FileTransfer.mgr := FileTransfer.mgr w;
           FileTransfer.trace :=
             FileTransfer.trace w
             ++ FileTransfer.EEmit ev
                :: map FileTransfer.EObs
                     (Emitter.reactions FileTransfer.event_name
                        "Error in file transfer event listener for "
                        (FileTransfer.eventListeners (FileTransfer.mgr w))
                        ev) |}))
  /\ (forall ev w,
        Signaling.emit ev w
        = (Js.Normal tt,
           {| Signaling.mgr := Signaling.mgr w;
              Signaling.trace :=
                Signaling.trace w
                ++ Signaling.EEmit ev
                   :: map Signaling.EObs
                        (Emitter.reactions Signaling.event_name
                           "Error in signaling event listener for "
                           (Signaling.eventListeners (Signaling.mgr w))
                           ev) |}))
  /\ (forall ls ev tr,
        WebRTC.emit ls ev tr
        = (Js.Normal tt,
           tr ++ Emitter.reactions WebRTC.event_name
                   "Error in event listener for " ls ev))
  /\ (forall (E : Type) (name : E -> string) prefix
             (ls : Emitter.Listeners E) ev,
        Emitter.calls (Emitter.reactions name prefix ls ev)
        = map (@Emitter.lid E) (Emitter.listenersOf (name ev) ls))
  /\ (forall (E : Type) (name : E -> string) prefix
             (ls : Emitter.Listeners E) ev l err,
        In l (Emitter.listenersOf (name ev) ls) ->
        Emitter.call l ev = Some err ->
        In (Emitter.ConsoleError (prefix +++ name ev +++ ":") err)
          (Emitter.reactions name prefix ls ev))
  /\ (forall (E : Type) event (l : Emitter.Listener E) ls,
        Emitter.listenersOf event (Emitter.on event l ls)
        = Emitter.listenersOf event ls ++ [l]).
Proof.
  split; [exact ft_emit_run|]. split; [exact sig_emit_run|].
  split; [intros; apply emit_run|].
  split; [intros; apply calls_reactions|].
  split; [intros; eapply thrown_is_logged; eassumption|].
  intros. apply listenersOf_on.
Qed.

(** C10 at three listeners of [cancelled], the second of which throws:
    the call ends normally, the three are called in order and the error is
    printed. *)
Lemma emit_contains_listener_errors_witness :
  let quiet n : Emitter.Listener FileTransfer.Event :=
    {| Emitter.lid := n; Emitter.call := fun _ => None |} in
  let loud n : Emitter.Listener FileTransfer.Event :=
    {| Emitter.lid := n; Emitter.call := fun _ => Some "Error: boom" |} in
  let m :=
    FileTransfer.on "cancelled" (quiet 3%nat)
      (FileTransfer.on "cancelled" (loud 2%nat)
         (FileTransfer.on "cancelled" (quiet 1%nat)
            (FileTransfer.new FileTransfer.DEFAULT_CONFIG))) in
  let w := {| FileTransfer.mgr := m; FileTransfer.trace := [] |} in
  let reactions :=
    Emitter.reactions FileTransfer.event_name
      "Error in file transfer event listener for "
      (FileTransfer.eventListeners m) (FileTransfer.Cancelled "file_1") in
  fst (FileTransfer.emit (FileTransfer.Cancelled "file_1") w) = Js.Normal tt
  /\ Emitter.calls reactions = [1%nat; 2%nat; 3%nat]
  /\ In (Emitter.ConsoleError
           "Error in file transfer event listener for cancelled:"
           "Error: boom")
        reactions.
Proof.
  intros quiet loud m w reactions.
  destruct emit_contains_listener_errors
    as (Hft & _ & _ & Hcalls & Hlog & _).
  split; [rewrite Hft; reflexivity|]. split.
  - unfold reactions. rewrite Hcalls. vm_compute. reflexivity.
  - apply (Hlog _ FileTransfer.event_name
             "Error in file transfer event listener for "
             (FileTransfer.eventListeners m)
             (FileTransfer.Cancelled "file_1") (loud 2%nat) "Error: boom").
    + vm_compute. tauto.
    + reflexivity.
Defined.

(* ================================================================== *)
(** * Further properties *)

(** ** The file transfer manager *)

Section Transfers.
Import FileTransfer.

(** X1: when the chunks that a receiving file holds are the chunks that
    [prepareFileChunks] made of a file, stored in whatever order they
    arrived, [reconstructFile] returns the bytes of that file, under the
    name and the type that the receiver has for it. *)
Theorem reconstructFile_restores_any_order crypto cfg fileId now f tf :
  0 < chunkSize cfg ->
  Permutation (JsMap.values (receivedChunks tf))
    (chunks
       (prepareFileChunks crypto cfg (newSendingFile cfg fileId now f))) ->
  reconstructFile tf
  = Js.Normal {| name := name (file tf); type := type (file tf);
                 bytes := bytes f |}.
Proof.
  intros HC HP. rewrite chunks_prepared in HP.
  rewrite (reconstructFile_values tf
             (prepared_sorted crypto cfg _ (proj1 (indices_sorted _ 0)))
             (prepared_sized crypto cfg _ _) HP).
  rewrite concat_chunks by exact HC.
  do 2 f_equal. cbn [newSendingFile totalChunks file].
  rewrite Z.min_r
    by (apply Math_ceil_div_covers; [apply Nat2Z.is_nonneg | exact HC]).
  unfold size. rewrite Nat2Z.id. apply firstn_all.
Qed.

(** X1 at the three chunks of [Examples.original], stored in the order
    2, 0, 1. *)
Lemma reconstructFile_restores_any_order_witness :
  JsMap.keys (receivedChunks ReceiverExamples.storedOutOfOrder) = [2; 0; 1]
  /\ reconstructFile ReceiverExamples.storedOutOfOrder
     = Js.Normal {| name := "a.bin"; type := "application/octet-stream";
                    bytes := bytes Examples.original |}.
Proof.
  split; [reflexivity|].
  apply (@reconstructFile_restores_any_order None Examples.smallChunks
           "file_1" 100 Examples.original ReceiverExamples.storedOutOfOrder).
  - reflexivity.
  - vm_compute.
    eapply perm_trans; [apply perm_swap|].
    apply perm_skip, perm_swap.
Defined.

Lemma byteSum_perm d d' : Permutation d d' -> byteSum d = byteSum d'.
Proof.
  induction 1 as [|x l l' _ IH|x y l|l l' l'' _ IH1 _ IH2];
    unfold byteSum in *; cbn [fold_right]; lia.
Qed.

(** X2: without [crypto.subtle], the checksum of a chunk changes whenever one
    of its bytes is replaced by a different byte. *)
Theorem checksum_detects_one_changed_byte pre post b b' :
  b <> b' ->
  calculateChecksum None (pre ++ b :: post)
  <> calculateChecksum None (pre ++ b' :: post).
Proof. apply calculateChecksum_detects. Qed.

(** X2 at the first chunk of [Examples.original] and the same chunk with
    its last byte changed. *)
Lemma checksum_detects_one_changed_byte_witness :
  calculateChecksum None Examples.firstChunk
  <> calculateChecksum None Examples.corrupted.
Proof.
  apply (@checksum_detects_one_changed_byte
           [Byte.x01; Byte.x02; Byte.x03] [] Byte.x04 Byte.x05).
  discriminate.
Defined.

(** X3: without [crypto.subtle], two chunks that hold the same bytes in a
    different order have the same checksum: the fallback checksum does not
    tell a reordering. *)
Theorem checksum_ignores_byte_order d d' :
  Permutation d d' ->
  calculateChecksum None d = calculateChecksum None d'.
Proof.
  intros HP. cbn [calculateChecksum].
  now rewrite !fallbackChecksum_sum, (byteSum_perm HP).
Qed.

(** X3 at two bytes and their swap. *)
Lemma checksum_ignores_byte_order_witness :
  calculateChecksum None [Byte.x01; Byte.x02]
  = calculateChecksum None [Byte.x02; Byte.x01].
Proof.
  apply (@checksum_ignores_byte_order [Byte.x01; Byte.x02]
           [Byte.x02; Byte.x01]).
  apply perm_swap.
Defined.

Lemma tryCatch_console (c : M unit) msg w :
  fst (Js.tryCatch c (fun _ => console msg) w) = Js.Normal tt.
Proof.
  unfold Js.tryCatch. destruct (c w) as [[[]|err] w']; reflexivity.
Qed.

(** X4: the handlers that the manager installs on the data channel
    ([onmessage], [onerror], [onclose]) end normally in every state and
    for every message. A text that [JSON.parse] rejects only prints
    ["Error handling data channel message:"], and data that is neither a
    string nor an [ArrayBuffer] changes nothing. *)
Theorem channel_handlers_never_throw now e w :
  fst (channelEvent now e w) = Js.Normal tt
  /\ (forall raw,
        e = OnMessage (InMalformed raw) ->
        snd (channelEvent now e w)
        = {| mgr := mgr w;
             trace := trace w
                      ++ [EConsole "Error handling data channel message:"] |})
  /\ (e = OnMessage InOther -> snd (channelEvent now e w) = w).
Proof.
  split; [|split].
  - destruct e as [d| |]; cbn [channelEvent].
    + apply tryCatch_console.
    + reflexivity.
    + unfold handleDataChannelClose, markAllFailed, Js.bind, console, log,
        Js.modify.
      destruct (failAll_run sendingFiles set_sendingFiles
                  {| mgr := mgr w;
                     trace := trace w ++ [EConsole "Data channel closed"] |})
        as (tr1 & E1 & _); try (intros; reflexivity).
      { intros m. now destruct m. }
      rewrite E1.
      match goal with
      | |- context [failAll receivingFiles set_receivingFiles ?w1] =>
          destruct (failAll_run receivingFiles set_receivingFiles w1)
            as (tr2 & E2 & _); try (intros; reflexivity)
      end.
      { intros m. now destruct m. }
      rewrite E2. reflexivity.
  - intros raw ->. reflexivity.
  - intros ->. now destruct w.
Qed.

Lemma delete_absent (k : string) (m : JsMap.t string TransferringFile) :
  JsMap.get k m = None -> JsMap.delete k m = m.
Proof.
  unfold JsMap.delete.
  induction m as [|[k1 v1] m IH]; cbn [JsMap.get filter fst];
    [reflexivity|].
  destruct (keyb k k1); [discriminate|]. intros E. cbn [negb].
  now rewrite IH.
Qed.

Lemma delete_update_set (k : string) v f
    (m : JsMap.t string TransferringFile) :
  JsMap.get k m = None ->
  JsMap.delete k (JsMap.update k f (JsMap.set k v m)) = m.
Proof.
  intros E. rewrite set_new by exact E.
  unfold JsMap.update, JsMap.delete. rewrite map_app, filter_app.
  cbn [map filter fst snd]. rewrite keyb_refl. cbn [map filter fst snd negb].
  rewrite keyb_refl. cbn [negb]. rewrite app_nil_r.
  fold (JsMap.update k f m). fold (JsMap.delete k (JsMap.update k f m)).
  assert (U : JsMap.update k f m = m).
  { clear v. unfold JsMap.update.
    induction m as [|[k1 v1] m IH]; cbn [JsMap.get map fst] in *;
      [reflexivity|].
    destruct (keyb k k1); [discriminate|]. now rewrite IH. }
  rewrite U. now apply delete_absent.
Qed.

(** X5: [sendFile] with a file id that is not in use, when there is no data
    channel or the channel is not open, throws ["Failed to send file:
    Error: Data channel is not open"] and leaves the manager as it was.
    When the channel is open and its [send] throws on the file
    information, the error is thrown again behind ["Failed to send file:
    "], one line is printed, and the entry made for the file is removed
    again: the manager is as it was. *)
Theorem sendFile_fails_cleanly crypto fileId now f w :
  JsMap.get fileId (sendingFiles (mgr w)) = None ->
  (match dataChannel (mgr w) with
   | Some ch => isOpen ch = false
   | None => True
   end ->
   sendFile crypto fileId now f w
   = (Js.Thrown "Error: Failed to send file: Error: Data channel is not open",
      w))
  /\ (forall ch e,
        dataChannel (mgr w) = Some ch -> isOpen ch = true ->
        sendThrows ch = Some e ->
        sendFile crypto fileId now f w
        = (Js.Thrown ("Error: Failed to send file: " +++ e),
           {| mgr := mgr w;
              trace := trace w
                       ++ [EConsole "Failed to send control message:"] |})).
Proof.
  intros Hfresh. split.
  - intros Hch.
    cbv beta iota zeta
      delta [sendFile sendFileInfo sendControlMessage Js.tryCatch Js.bind
             getM Js.gets modifyM Js.modify Js.throw].
    cbn [mgr trace dataChannel set_sendingFiles].
    destruct (dataChannel (mgr w)) as [ch|] eqn:Ec.
    + rewrite Hch. cbn [mgr trace sendingFiles set_sendingFiles].
      rewrite delete_update_set by exact Hfresh.
      destruct w as [m tr]. destruct m. reflexivity.
    + cbn [mgr trace sendingFiles set_sendingFiles].
      rewrite delete_update_set by exact Hfresh.
      destruct w as [m tr]. destruct m. reflexivity.
  - intros ch e Ec Ho Ht.
    cbv beta iota zeta
      delta [sendFile sendFileInfo sendControlMessage Js.tryCatch Js.bind
             getM Js.gets modifyM Js.modify Js.throw channel_send console
             log].
    cbn [mgr trace dataChannel set_sendingFiles].
    rewrite Ec, Ho, Ht. cbn [mgr trace sendingFiles set_sendingFiles].
    rewrite delete_update_set by exact Hfresh.
    destruct w as [m tr]. destruct m. reflexivity.
Qed.

(** X5 at a manager just made, which has no channel. *)
Lemma sendFile_fails_cleanly_witness :
  sendFile None "file_1" 100 Examples.original
    {| mgr := new DEFAULT_CONFIG; trace := [] |}
  = (Js.Thrown "Error: Failed to send file: Error: Data channel is not open",
     {| mgr := new DEFAULT_CONFIG; trace := [] |}).
Proof.
  apply (@sendFile_fails_cleanly None "file_1" 100 Examples.original
           {| mgr := new DEFAULT_CONFIG; trace := [] |});
    [reflexivity | exact I].
Defined.

Lemma has_update (k k' : string) f (m : JsMap.t string TransferringFile) :
  JsMap.has k (JsMap.update k' f m) = JsMap.has k m.
Proof.
  unfold JsMap.has. rewrite get_update.
  destruct (keyb k k'); [|reflexivity].
  now destruct (JsMap.get k m).
Qed.

Lemma startable_startTransfer fileId m ids :
  startable (startTransfer fileId m) ids = startable m ids.
Proof.
  unfold startable, startTransfer.
  destruct (JsMap.get fileId (sendingFiles m)); [|reflexivity].
  cbn [sendingFiles set_activeTransfers set_sendingFiles].
  apply filter_ext. intros a. now rewrite has_update.
Qed.

Lemma processQueue_spec q : forall m,
  let max := maxConcurrentTransfers (config m) in
  let m' := processQueue q m in
  exists started rest,
    q = started ++ rest
    /\ (started = [] -> m' = m)
    /\ (started <> [] -> transferQueue m' = rest)
    /\ (rest = [] \/ max <= activeTransfers m')
    /\ activeTransfers m'
       = activeTransfers m + Z.of_nat (List.length (startable m started))
    /\ (activeTransfers m <= max -> activeTransfers m' <= max)
    /\ config m' = config m
    /\ (forall fileId t,
          In fileId (startable m started) ->
          JsMap.get fileId (sendingFiles m') = Some t ->
          status t = TRANSFERRING).
Proof.
  induction q as [|fileId q IH]; intros m; cbn zeta.
  - exists [], []. cbn. repeat split; auto; try lia; try tauto.
  - cbn [processQueue].
    destruct (Z.ltb_spec (activeTransfers m)
                (maxConcurrentTransfers (config m))) as [Hlt|Hge].
    + set (m1 := if truthy fileId
                 then startTransfer fileId (set_transferQueue q m)
                 else set_transferQueue q m).
      assert (Hc1 : config m1 = config m).
      { unfold m1, startTransfer. destruct (truthy fileId); [|reflexivity].
        cbn. now destruct (JsMap.get fileId (sendingFiles m)). }
      assert (Hq1 : transferQueue m1 = q).
      { unfold m1, startTransfer. destruct (truthy fileId); [|reflexivity].
        cbn. now destruct (JsMap.get fileId (sendingFiles m)). }
      assert (Hs1 : forall ids, startable m1 ids = startable m ids).
      { intros ids. unfold m1. destruct (truthy fileId); [|reflexivity].
        now rewrite startable_startTransfer. }
      assert (Ha1 : activeTransfers m1
                    = activeTransfers m
                      + Z.of_nat (List.length (startable m [fileId]))).
      { unfold m1, startable, startTransfer, JsMap.has. cbn [filter].
        destruct (truthy fileId); cbn [andb]; [|cbn; lia].
        cbn [sendingFiles set_transferQueue].
        destruct (JsMap.get fileId (sendingFiles m)); cbn; lia. }
      assert (Ht1 : forall t,
                In fileId (startable m [fileId]) ->
                JsMap.get fileId (sendingFiles m1) = Some t ->
                status t = TRANSFERRING).
      { intros t Hin. unfold startable in Hin. cbn [filter] in Hin.
        unfold m1. destruct (truthy fileId); [|destruct Hin].
        unfold startTransfer, JsMap.has in *.
        cbn [sendingFiles set_transferQueue] in *.
        destruct (JsMap.get fileId (sendingFiles m)) as [t0|] eqn:G;
          [|destruct Hin].
        cbn [sendingFiles set_activeTransfers set_sendingFiles].
        rewrite get_update, keyb_refl, G. cbn. now intros [= <-]. }
      destruct (IH m1) as (started & rest & Eq & H0 & H1 & H2 & H3 & H4
                           & H5 & H6).
      rewrite Hc1 in *. rewrite Hs1 in *.
      exists (fileId :: started), rest. split; [now rewrite Eq|].
      split; [discriminate|]. split.
      { intros _. destruct started as [|x st].
        - rewrite H0 by reflexivity. rewrite Hq1. now rewrite Eq.
        - apply H1. discriminate. }
      split; [exact H2|]. split.
      { rewrite H3, Ha1. unfold startable. cbn [filter].
        destruct (truthy fileId && JsMap.has fileId (sendingFiles m));
          cbn [List.length]; lia. }
      split.
      { intros _. apply H4. rewrite Ha1.
        unfold startable. cbn [filter].
        destruct (truthy fileId && JsMap.has fileId (sendingFiles m));
          cbn [List.length]; lia. }
      split; [exact H5|].
      intros id0 t Hin G.
      change (fileId :: started) with ([fileId] ++ started) in Hin.
      unfold startable in Hin. rewrite filter_app in Hin.
      apply in_app_or in Hin. destruct Hin as [Hin|Hin].
      * assert (id0 = fileId).
        { cbn [filter] in Hin.
          destruct (truthy fileId && JsMap.has fileId (sendingFiles m));
            [destruct Hin as [<-|[]]; reflexivity | destruct Hin]. }
        subst id0.
        (* the later starts leave the status of [fileId] at TRANSFERRING *)
        destruct (in_dec string_dec fileId (startable m started)) as [I|N].
        -- now apply (H6 fileId t).
        -- assert (K : forall q m2,
             (forall t, JsMap.get fileId (sendingFiles m2) = Some t ->
                        status t = TRANSFERRING) ->
             forall t, JsMap.get fileId (sendingFiles (processQueue q m2))
                       = Some t -> status t = TRANSFERRING).
           { clear. induction q as [|x q IHq]; intros m2 Hm2 t;
               cbn [processQueue]; [apply Hm2|].
             destruct (activeTransfers m2 <? _); [|apply Hm2].
             apply IHq. intros t0.
             destruct (truthy x); [|apply Hm2].
             unfold startTransfer. cbn [sendingFiles set_transferQueue].
             destruct (JsMap.get x (sendingFiles m2)) eqn:Gx; [|apply Hm2].
             cbn [sendingFiles set_activeTransfers set_sendingFiles].
             rewrite get_update.
             destruct (keyb_reflect fileId x) as [->|Nx].
             - rewrite Gx. cbn. now intros [= <-].
             - apply Hm2. }
           apply (K q m1); [|exact G]. intros t0. now apply Ht1.
      * now apply (H6 id0 t).
    + exists [], (fileId :: q). cbn.
      repeat split; auto; try lia; try tauto.
Qed.

(** X6: [processTransferQueue] takes ids from the front of the queue, in
    order, and stops when the queue is empty or the number of active
    transfers has reached [maxConcurrentTransfers]. Each id taken that
    names a sending file becomes [TRANSFERRING] and counts as one more
    active transfer; the other ids taken are dropped. A count that was
    within the limit stays within it. *)
Theorem processTransferQueue_admits_in_order m :
  let max := maxConcurrentTransfers (config m) in
  let m' := processTransferQueue m in
  exists started,
    transferQueue m = started ++ transferQueue m'
    /\ (transferQueue m' = [] \/ max <= activeTransfers m')
    /\ activeTransfers m'
       = activeTransfers m + Z.of_nat (List.length (startable m started))
    /\ (activeTransfers m <= max -> activeTransfers m' <= max)
    /\ (forall fileId t,
          In fileId (startable m started) ->
          JsMap.get fileId (sendingFiles m') = Some t ->
          status t = TRANSFERRING).
Proof.
  cbn zeta. unfold processTransferQueue.
  destruct (processQueue_spec (transferQueue m) m)
    as (started & rest & Eq & H0 & H1 & H2 & H3 & H4 & _ & H6).
  exists started.
  assert (Hq : transferQueue (processQueue (transferQueue m) m) = rest).
  { destruct started as [|x st].
    - rewrite H0 by reflexivity. exact Eq.
    - apply H1. discriminate. }
  rewrite Hq. repeat split; auto.
Qed.

Lemma sendingKeys_startTransfer fileId m :
  JsMap.keys (sendingFiles (startTransfer fileId m))
  = JsMap.keys (sendingFiles m).
Proof.
  unfold startTransfer. destruct (JsMap.get fileId (sendingFiles m));
    [|reflexivity].
  cbn. apply keys_update.
Qed.

Lemma sendingKeys_processQueue q : forall m,
  JsMap.keys (sendingFiles (processQueue q m)) = JsMap.keys (sendingFiles m).
Proof.
  induction q as [|x q IH]; intros m; cbn [processQueue]; [reflexivity|].
  destruct (activeTransfers m <? maxConcurrentTransfers (config m));
    [|reflexivity].
  rewrite IH. destruct (truthy x); [|reflexivity].
  now rewrite sendingKeys_startTransfer.
Qed.

Lemma keys_delete_update (k : string) f
    (m : JsMap.t string TransferringFile) :
  JsMap.keys (JsMap.delete k (JsMap.update k f m))
  = JsMap.keys (JsMap.delete k m).
Proof.
  unfold JsMap.keys, JsMap.delete, JsMap.update.
  induction m as [|[k1 v1] m IH]; cbn [map filter fst]; [reflexivity|].
  destruct (keyb k k1) eqn:E; cbn [fst negb]; rewrite ?E; cbn [negb map fst];
    now rewrite IH.
Qed.

Lemma delete_update (k : string) f (m : JsMap.t string TransferringFile) :
  JsMap.delete k (JsMap.update k f m) = JsMap.delete k m.
Proof.
  unfold JsMap.delete, JsMap.update.
  induction m as [|[k1 v1] m IH]; cbn [map filter fst]; [reflexivity|].
  destruct (keyb k k1) eqn:E; cbn [fst negb]; rewrite ?E; cbn [negb];
    now rewrite IH.
Qed.

Lemma cancelTransfer_run fileId w :
  exists tr,
    cancelTransfer fileId w
    = (Js.Normal tt,
       {| mgr :=
            processTransferQueue
              (set_activeTransfers (Z.max 0 (activeTransfers (mgr w) - 1))
                 (set_transferQueue
                    (removeFirst fileId (transferQueue (mgr w)))
                    (set_receivingFiles
                       (JsMap.delete fileId (receivingFiles (mgr w)))
                       (set_sendingFiles
                          (JsMap.delete fileId (sendingFiles (mgr w)))
                          (mgr w)))));
          trace := trace w ++ tr |})
    /\ emitted tr
       = (if JsMap.has fileId (sendingFiles (mgr w))
          then [Cancelled fileId] else [])
         ++ (if JsMap.has fileId (receivingFiles (mgr w))
             then [Cancelled fileId] else [])
    /\ sent tr = [].
Proof.
  cbv beta iota zeta
    delta [cancelTransfer Js.bind getM Js.gets modifyM Js.modify Js.ret].
  unfold JsMap.has.
  destruct (JsMap.get fileId (sendingFiles (mgr w))) as [t1|] eqn:G1;
    destruct (JsMap.get fileId (receivingFiles (mgr w))) as [t2|] eqn:G2;
    cbv beta iota; rewrite ?ft_emit_run; cbv beta iota;
    cbn [mgr trace set_sendingFiles set_receivingFiles sendingFiles
         receivingFiles]; rewrite ?ft_emit_run; cbv beta iota;
    cbn [mgr trace set_sendingFiles set_receivingFiles sendingFiles
         receivingFiles set_transferQueue set_activeTransfers
         transferQueue activeTransfers];
    rewrite ?delete_update.
  - eexists. split; [rewrite <- !app_assoc; reflexivity|].
    rewrite !emitted_app, !sent_app, !emitted_told, !sent_told.
    split; reflexivity.
  - eexists. split.
    + rewrite (@delete_absent fileId _ G2) at 1. reflexivity.
    + rewrite !emitted_told, !sent_told. split; reflexivity.
  - eexists. split.
    + rewrite (@delete_absent fileId _ G1) at 1. reflexivity.
    + rewrite !emitted_told, !sent_told. split; reflexivity.
  - exists []. split; [|split; reflexivity].
    rewrite app_nil_r, (@delete_absent fileId _ G1),
      (@delete_absent fileId _ G2).
    destruct w as [m tr]. destruct m. reflexivity.
Qed.

Lemma cancelTransfer_effect fileId w :
  let w' := snd (cancelTransfer fileId w) in
  let once (held : bool) := if held then [Cancelled fileId] else [] in
  fst (cancelTransfer fileId w) = Js.Normal tt
  /\ emitted (trace w')
     = emitted (trace w)
       ++ once (JsMap.has fileId (sendingFiles (mgr w)))
       ++ once (JsMap.has fileId (receivingFiles (mgr w)))
  /\ sent (trace w') = sent (trace w)
  /\ findTransfer fileId (mgr w') = None
  /\ JsMap.keys (sendingFiles (mgr w'))
     = JsMap.keys (JsMap.delete fileId (sendingFiles (mgr w)))
  /\ receivingFiles (mgr w') = JsMap.delete fileId (receivingFiles (mgr w)).
Proof.
  cbv zeta.
  destruct (cancelTransfer_run fileId w) as (tr & E & He & Hs).
  rewrite E. cbn [fst snd mgr trace].
  unfold processTransferQueue.
  split; [reflexivity|]. split; [now rewrite emitted_app, He|].
  split; [now rewrite sent_app, Hs, app_nil_r|].
  split; [|split].
  - unfold findTransfer.
    rewrite receivingFiles_processQueue.
    cbn [receivingFiles set_activeTransfers set_transferQueue
         set_receivingFiles].
    match goal with
    | |- match ?g with _ => _ end = None =>
        assert (G : g = None); [|rewrite G]
    end.
    { apply get_None_keys. rewrite sendingKeys_processQueue.
      cbn [sendingFiles set_activeTransfers set_transferQueue
           set_receivingFiles set_sendingFiles].
      apply get_None_keys. rewrite get_delete. now rewrite keyb_refl. }
    rewrite get_delete. now rewrite keyb_refl.
  - rewrite sendingKeys_processQueue. reflexivity.
  - rewrite receivingFiles_processQueue. reflexivity.
Qed.

(** X7: [cancelTransfer] ends normally and hands nothing to the channel. It
    emits one [cancelled] event for each of the two tables that holds the
    id: none for an unknown id, two for an id that is in both.
    Afterwards neither table holds the id, the table of sending files
    holds the other ids as before, in the same order, and the other
    receiving files are untouched. *)
Theorem cancelTransfer_one_event_per_table fileId w :
  let w' := snd (cancelTransfer fileId w) in
  let once (held : bool) := if held then [Cancelled fileId] else [] in
  fst (cancelTransfer fileId w) = Js.Normal tt
  /\ emitted (trace w')
     = emitted (trace w)
       ++ once (JsMap.has fileId (sendingFiles (mgr w)))
       ++ once (JsMap.has fileId (receivingFiles (mgr w)))
  /\ sent (trace w') = sent (trace w)
  /\ findTransfer fileId (mgr w') = None
  /\ JsMap.keys (sendingFiles (mgr w'))
     = JsMap.keys (JsMap.delete fileId (sendingFiles (mgr w)))
  /\ receivingFiles (mgr w') = JsMap.delete fileId (receivingFiles (mgr w)).
Proof. exact (cancelTransfer_effect fileId w). Qed.

(** X8: over an open channel whose [send] does not throw,
    [handleChunkRequest] for a sending file and an index that the file has
    a chunk for sends the header of that chunk and then its bytes, emits
    [chunkSent] and [progress], and adds the size of the chunk to
    [transferredSize]. For an unknown file id, or an index without a
    chunk, it sends nothing, emits nothing and changes nothing. *)
Theorem handleChunkRequest_answers_the_request fileId i w ch :
  dataChannel (mgr w) = Some ch -> isOpen ch = true ->
  sendThrows ch = None ->
  let w' := snd (handleChunkRequest fileId i w) in
  let unchanged :=
    sent (trace w') = sent (trace w)
    /\ emitted (trace w') = emitted (trace w) /\ mgr w' = mgr w in
  match JsMap.get fileId (sendingFiles (mgr w)) with
  | None => unchanged
  | Some t =>
      match at_index (chunks t) i with
      | None => unchanged
      | Some c =>
          let t' :=
            set_transferredSize (transferredSize t + chunk_size c) t in
          sent (trace w')
          = sent (trace w)
            ++ [PText (ChunkHeader fileId (chunk_id c) (index c)
                         (chunk_size c) (checksum c));
                PBinary (data c)]
          /\ emitted (trace w')
             = emitted (trace w)
               ++ [ChunkSent fileId (index c);
                   Progress (calculateProgress t')]
          /\ JsMap.get fileId (sendingFiles (mgr w')) = Some t'
      end
  end.
Proof.
  intros Hc Ho Ht. cbv zeta.
  cbv beta iota zeta
    delta [handleChunkRequest sendFileChunk updateSendProgress channel_send
           Js.bind Js.tryCatch getM Js.gets modifyM Js.modify Js.ret log
           console].
  destruct (JsMap.get fileId (sendingFiles (mgr w))) as [t|] eqn:Hs.
  - destruct (at_index (chunks t) i) as [c|] eqn:Hi.
    + rewrite Hc, Ho, Ht. cbv beta iota. rewrite ft_emit_run.
      cbn [mgr trace]. rewrite Hs. cbv beta iota. rewrite ft_emit_run.
      cbn [snd mgr trace sendingFiles set_sendingFiles].
      rewrite !sent_app, !emitted_app, !sent_told, !emitted_told.
      cbn [sent emitted flat_map app]. rewrite !app_nil_r.
      rewrite <- !app_assoc. cbn [app].
      rewrite get_update, keyb_refl, Hs. repeat split; reflexivity.
    + cbn [snd mgr trace]. rewrite sent_app, emitted_app. cbn.
      rewrite !app_nil_r. repeat split; reflexivity.
  - cbn [snd mgr trace]. rewrite sent_app, emitted_app. cbn.
    rewrite !app_nil_r. repeat split; reflexivity.
Qed.

(** X8 at the sender of [Examples.original]: the request for the last
    chunk is answered, the request for the index 3 is not. *)
Lemma handleChunkRequest_answers_the_request_witness :
  sent (trace (snd (handleChunkRequest "file_1" 2 Examples.senderStarted)))
  = sent (trace Examples.senderStarted)
    ++ [PText (ChunkHeader "file_1" "file_1-2" 2 2 (Some "13"));
        PBinary [Byte.x09; Byte.x0a]]
  /\ sent (trace (snd (handleChunkRequest "file_1" 3 Examples.senderStarted)))
     = sent (trace Examples.senderStarted).
Proof.
  split.
  - exact (proj1 (@handleChunkRequest_answers_the_request "file_1" 2
                    Examples.senderStarted Examples.openChannel
                    eq_refl eq_refl eq_refl)).
  - exact (proj1 (@handleChunkRequest_answers_the_request "file_1" 3
                    Examples.senderStarted Examples.openChannel
                    eq_refl eq_refl eq_refl)).
Defined.

Lemma update_fixed (k : string) (f : TransferringFile -> TransferringFile)
    (m : JsMap.t string TransferringFile) :
  (forall v, In (k, v) m -> f v = v) -> JsMap.update k f m = m.
Proof.
  unfold JsMap.update. induction m as [|[k1 v1] m IH]; intros Hf;
    cbn [map fst snd]; [reflexivity|].
  rewrite IH by (intros v Hv; apply Hf; now right).
  destruct (keyb_reflect k k1) as [->|N]; [|reflexivity].
  rewrite Hf by now left. reflexivity.
Qed.

Lemma update_update (k : string) (f g : TransferringFile -> TransferringFile)
    (m : JsMap.t string TransferringFile) :
  JsMap.update k g (JsMap.update k f m)
  = JsMap.update k (fun v => g (f v)) m.
Proof.
  unfold JsMap.update. rewrite map_map. apply map_ext. intros [k1 v1].
  cbn [fst snd]. destruct (keyb k k1) eqn:E; cbn [fst snd]; now rewrite E.
Qed.

Lemma wf_entry (k : string) (v t : TransferringFile)
    (m : JsMap.t string TransferringFile) :
  JsMap.wf m -> JsMap.get k m = Some t -> In (k, v) m -> v = t.
Proof.
  unfold JsMap.wf, JsMap.keys.
  induction m as [|[k1 v1] m IH]; cbn [JsMap.get map fst In];
    [discriminate|].
  intros Hnd G Hin. inversion Hnd as [|? ? Hni Hnd']; subst.
  destruct (keyb_reflect k k1) as [->|N].
  - injection G as ->. destruct Hin as [E|Hin]; [congruence|].
    exfalso. apply Hni. apply in_map_iff. now exists (k1, v).
  - destruct Hin as [E|Hin]; [congruence|]. now apply IH.
Qed.

(** X9: [pauseTransfer] marks a sending file that is [TRANSFERRING] as
    [PAUSED] and leaves [activeTransfers] and the queue alone: the paused
    transfer keeps its slot. [resumeTransfer] then queues the id and
    starts it as a new transfer: with an empty queue and a free slot the
    manager is as before the pause but for [activeTransfers], which is
    one more; without a free slot the id waits in the queue. *)
Theorem pause_then_resume_takes_a_slot fileId t m :
  JsMap.wf (sendingFiles m) ->
  JsMap.get fileId (sendingFiles m) = Some t ->
  status t = TRANSFERRING ->
  truthy fileId = true ->
  transferQueue m = [] ->
  let paused := pauseTransfer fileId m in
  option_map status (JsMap.get fileId (sendingFiles paused)) = Some PAUSED
  /\ activeTransfers paused = activeTransfers m
  /\ transferQueue paused = []
  /\ resumeTransfer fileId paused
     = if activeTransfers m <? maxConcurrentTransfers (config m)
       then set_activeTransfers (activeTransfers m + 1) m
       else set_transferQueue [fileId] m.
Proof.
  intros Hwf G Hst Htr Hq. cbv zeta.
  assert (Hp : pauseTransfer fileId m
               = set_sendingFiles
                   (JsMap.update fileId (set_status PAUSED) (sendingFiles m))
                   m).
  { unfold pauseTransfer, findTransfer, updateTransfer. rewrite G, Hst.
    reflexivity. }
  rewrite Hp. cbn [sendingFiles set_sendingFiles activeTransfers
                   transferQueue].
  rewrite get_update, keyb_refl, G.
  split; [reflexivity|]. split; [reflexivity|]. split; [exact Hq|].
  assert (Hback : forall g,
    (g (set_status PAUSED t) = t) ->
    JsMap.update fileId g
      (JsMap.update fileId (set_status PAUSED) (sendingFiles m))
    = sendingFiles m).
  { intros g Hg. rewrite update_update. apply update_fixed.
    intros v Hv. now rewrite (@wf_entry _ _ _ _ Hwf G Hv). }
  assert (Hround : set_status TRANSFERRING (set_status PAUSED t) = t)
    by (destruct t; cbn in *; now subst).
  unfold resumeTransfer, findTransfer, updateTransfer.
  cbn [sendingFiles set_sendingFiles].
  rewrite get_update, keyb_refl, G. cbn [option_map status set_status
                                         status_eqb].
  cbn [sendingFiles set_sendingFiles].
  rewrite (Hback _ Hround).
  unfold JsMap.has. cbn [sendingFiles set_sendingFiles]. rewrite G.
  unfold processTransferQueue.
  cbn [transferQueue set_transferQueue set_sendingFiles]. rewrite Hq.
  cbn [app processQueue activeTransfers config set_transferQueue
       set_sendingFiles].
  destruct (activeTransfers m <? maxConcurrentTransfers (config m)).
  - rewrite Htr. unfold startTransfer.
    cbn [sendingFiles set_transferQueue set_sendingFiles]. rewrite G.
    cbn [sendingFiles set_transferQueue set_sendingFiles activeTransfers].
    rewrite update_fixed.
    + destruct m; cbn in *; subst; reflexivity.
    + intros v Hv. rewrite (@wf_entry _ _ _ _ Hwf G Hv).
      destruct t; cbn in *; now subst.
  - destruct m; cbn in *; subst; reflexivity.
Qed.

(** X9 at the sender of [Examples.original]: one active transfer before
    the pause, two after the resumption. *)
Lemma pause_then_resume_takes_a_slot_witness :
  let m := mgr Examples.senderStarted in
  activeTransfers m = 1
  /\ activeTransfers (resumeTransfer "file_1" (pauseTransfer "file_1" m)) = 2
  /\ JsMap.keys (sendingFiles m) = ["file_1"].
Proof.
  cbv zeta. split; [reflexivity|]. split; [|reflexivity].
  assert (W : JsMap.wf (sendingFiles (mgr Examples.senderStarted))).
  { vm_compute. repeat constructor; cbn; tauto. }
  destruct (JsMap.get "file_1" (sendingFiles (mgr Examples.senderStarted)))
    as [t|] eqn:G; [|discriminate G].
  assert (S : status t = TRANSFERRING).
  { vm_compute in G. injection G as <-. reflexivity. }
  rewrite (proj2 (proj2 (proj2
             (@pause_then_resume_takes_a_slot "file_1" t
                (mgr Examples.senderStarted) W G S eq_refl eq_refl)))).
  reflexivity.
Defined.

(** X10: in every run of a manager from its creation, whatever methods are
    called and whatever arrives on the channel, no receiving file ever
    holds a chunk, and every [completed] event reports a file without
    bytes. *)
Theorem receiver_never_stores_a_chunk cfg cs :
  storesNothing (performAll cs {| mgr := new cfg; trace := [] |}).
Proof.
  apply receiver_stores_nothing. split; [intros k t [] | constructor].
Qed.

Lemma get_delete_None (k k' : string) (m : JsMap.t string TransferringFile) :
  JsMap.get k' (JsMap.delete k m) = None
  <-> k' = k \/ JsMap.get k' m = None.
Proof.
  rewrite get_delete. destruct (keyb_reflect k' k) as [->|N].
  - tauto.
  - split; [tauto|]. intros [E|E]; [contradiction|exact E].
Qed.

Lemma get_keys_eq (k : string) (a b : JsMap.t string TransferringFile) :
  JsMap.keys a = JsMap.keys b ->
  (JsMap.get k a = None <-> JsMap.get k b = None).
Proof. intros E. now rewrite !get_None_keys, E. Qed.

Lemma all_absent_nil (m : JsMap.t string TransferringFile) :
  (forall k, JsMap.get k m = None) -> m = [].
Proof.
  destruct m as [|[k v] m]; [reflexivity|]. intros H.
  specialize (H k). cbn [JsMap.get] in H. rewrite keyb_refl in H.
  discriminate.
Qed.

(** The loops of [destroy]. *)
Lemma cancel_loop ks : forall w,
  exists ids w',
    Js.forEach ks cancelTransfer w = (Js.Normal tt, w')
    /\ emitted (trace w') = emitted (trace w) ++ map Cancelled ids
    /\ sent (trace w') = sent (trace w)
    /\ (forall k, In k ids <->
          In k ks /\ (JsMap.get k (sendingFiles (mgr w)) <> None
                      \/ JsMap.get k (receivingFiles (mgr w)) <> None))
    /\ (forall k, JsMap.get k (sendingFiles (mgr w')) = None <->
          In k ks \/ JsMap.get k (sendingFiles (mgr w)) = None)
    /\ (forall k, JsMap.get k (receivingFiles (mgr w')) = None <->
          In k ks \/ JsMap.get k (receivingFiles (mgr w)) = None).
Proof.
  induction ks as [|x ks IH]; intros w.
  - exists [], w. cbn. rewrite app_nil_r. repeat split; tauto.
  - pose proof (cancelTransfer_effect x w) as X.
    cbv zeta in X. destruct X as (R & He & Hs & _ & Hk & Hr).
    cbn [Js.forEach]. unfold Js.bind.
    destruct (cancelTransfer x w) as [r w1] eqn:E1. cbn [fst snd] in *.
    subst r.
    destruct (IH w1) as (ids & w' & E & He' & Hs' & Hin & Hsk & Hrk).
    set (ids1 := (if JsMap.has x (sendingFiles (mgr w))
                  then [x] else [])
                 ++ (if JsMap.has x (receivingFiles (mgr w))
                     then [x] else [])).
    exists (ids1 ++ ids), w'. split; [exact E|].
    assert (Hs1 : forall k, JsMap.get k (sendingFiles (mgr w1)) = None
                            <-> k = x \/ JsMap.get k (sendingFiles (mgr w))
                                         = None).
    { intros k. rewrite (@get_keys_eq k _ _ Hk). apply get_delete_None. }
    assert (Hr1 : forall k, JsMap.get k (receivingFiles (mgr w1)) = None
                            <-> k = x \/ JsMap.get k (receivingFiles (mgr w))
                                         = None).
    { intros k. rewrite Hr. apply get_delete_None. }
    split.
    { assert (Hm : map Cancelled ids1
                   = (if JsMap.has x (sendingFiles (mgr w))
                      then [Cancelled x] else [])
                     ++ (if JsMap.has x (receivingFiles (mgr w))
                         then [Cancelled x] else [])).
      { unfold ids1.
        destruct (JsMap.has x (sendingFiles (mgr w))),
          (JsMap.has x (receivingFiles (mgr w))); reflexivity. }
      rewrite He', He, map_app, Hm, <- !app_assoc. reflexivity. }
    split; [now rewrite Hs', Hs|].
    split; [|split].
    + intros k. rewrite in_app_iff, Hin. cbn [In].
      assert (I1 : In k ids1 <->
                   k = x /\ (JsMap.get x (sendingFiles (mgr w)) <> None
                             \/ JsMap.get x (receivingFiles (mgr w))
                                <> None)).
      { unfold ids1, JsMap.has.
        destruct (JsMap.get x (sendingFiles (mgr w))),
          (JsMap.get x (receivingFiles (mgr w))); cbn;
          intuition congruence. }
      rewrite I1.
      destruct (string_dec k x) as [->|N].
      * split; [intros [[_ H]|[_ H]] | intros [_ H]]; try tauto.
        split; [now left|].
        destruct H as [H|H]; [rewrite Hs1 in H | rewrite Hr1 in H]; tauto.
      * rewrite Hs1, Hr1. intuition congruence.
    + intros k. rewrite Hsk, Hs1. cbn [In]. intuition congruence.
    + intros k. rewrite Hrk, Hr1. cbn [In]. intuition congruence.
Qed.

(** X11: [destroy] ends normally and hands nothing to the channel; the events
    it emits are [cancelled] events, for the transfers that the manager
    held and for no other id. It leaves a manager without sending or
    receiving files, with an empty queue, no active transfer, no data
    channel and no listener. *)
Theorem destroy_cancels_every_transfer w :
  let w' := snd (destroy w) in
  fst (destroy w) = Js.Normal tt
  /\ sendingFiles (mgr w') = []
  /\ receivingFiles (mgr w') = []
  /\ transferQueue (mgr w') = []
  /\ activeTransfers (mgr w') = 0
  /\ dataChannel (mgr w') = None
  /\ eventListeners (mgr w') = []
  /\ sent (trace w') = sent (trace w)
  /\ exists ids,
       emitted (trace w') = emitted (trace w) ++ map Cancelled ids
       /\ forall k, In k ids <-> findTransfer k (mgr w) <> None.
Proof.
  cbv zeta.
  destruct (cancel_loop (JsMap.keys (sendingFiles (mgr w))) w)
    as (ids1 & w1 & E1 & He1 & Hs1 & Hin1 & Hsk1 & Hrk1).
  destruct (cancel_loop (JsMap.keys (receivingFiles (mgr w1))) w1)
    as (ids2 & w2 & E2 & He2 & Hs2 & Hin2 & Hsk2 & Hrk2).
  assert (Ed : destroy w
               = (Js.Normal tt,
                  {| mgr :=
                       set_activeTransfers 0
                         (set_transferQueue []
                            (set_dataChannel None
                               (set_eventListeners JsMap.empty (mgr w2))));
                     trace := trace w2 |})).
  { cbv beta iota zeta
      delta [destroy Js.bind getM Js.gets modifyM Js.modify].
    rewrite E1. cbv beta iota. rewrite E2. reflexivity. }
  rewrite Ed.
  cbn [fst snd mgr trace sendingFiles receivingFiles transferQueue
       activeTransfers dataChannel eventListeners set_activeTransfers
       set_transferQueue set_dataChannel set_eventListeners].
  assert (S1 : forall k, JsMap.get k (sendingFiles (mgr w1)) = None).
  { intros k. apply Hsk1.
    destruct (JsMap.get k (sendingFiles (mgr w))) eqn:G; [left|now right].
    apply get_In in G. apply in_map_iff. now exists (k, t). }
  assert (S2 : forall k, JsMap.get k (sendingFiles (mgr w2)) = None).
  { intros k. apply Hsk2. right. apply S1. }
  assert (R2 : forall k, JsMap.get k (receivingFiles (mgr w2)) = None).
  { intros k. apply Hrk2.
    destruct (JsMap.get k (receivingFiles (mgr w1))) eqn:G;
      [left|now right].
    apply get_In in G. apply in_map_iff. now exists (k, t). }
  split; [reflexivity|].
  split; [now apply all_absent_nil|].
  split; [now apply all_absent_nil|].
  do 4 (split; [reflexivity|]).
  split; [now rewrite Hs2, Hs1|].
  exists (ids1 ++ ids2). split.
  - now rewrite He2, He1, map_app, app_assoc.
  - intros k. rewrite in_app_iff, Hin1, Hin2. unfold findTransfer.
    assert (K : forall (m : JsMap.t string TransferringFile),
              In k (JsMap.keys m) <-> JsMap.get k m <> None).
    { intros m. pose proof (get_None_keys k m) as N.
      destruct (JsMap.get k m) eqn:G.
      - split; [discriminate|]. intros _.
        apply get_In in G. apply in_map_iff. now exists (k, t).
      - split; [|congruence]. intros Hin. exfalso. now apply N. }
    rewrite !K.
    pose proof (Hrk1 k) as Hrk1k. rewrite K in Hrk1k.
    destruct (JsMap.get k (sendingFiles (mgr w))) as [t|] eqn:G.
    + split; [discriminate|]. intros _. left. split; [|left]; discriminate.
    + destruct (JsMap.get k (receivingFiles (mgr w))) as [t|] eqn:Gr.
      * split; [discriminate|]. intros _. right.
        assert (N : JsMap.get k (receivingFiles (mgr w1)) <> None).
        { intros N. apply Hrk1k in N. destruct N as [N|N]; congruence. }
        tauto.
      * split; [|congruence].
        assert (N : JsMap.get k (receivingFiles (mgr w1)) = None)
          by (apply Hrk1k; now right).
        pose proof (S1 k).
        intros [[_ [H0|H0]]|[H1 _]]; congruence.
Qed.
End Transfers.


(** ** [on] and [off] *)

Section Listeners.
Variable E : Type.
Variable event_name : E -> string.
Variable prefix : string.

Lemma get_set_other {V} (k k' : string) (v : V) (m : JsMap.t string V) :
  k' <> k -> JsMap.get k' (JsMap.set k v m) = JsMap.get k' m.
Proof.
  intros N. induction m as [|[k1 v1] m IH]; cbn [JsMap.set JsMap.get].
  - destruct (keyb_reflect k' k); [contradiction|reflexivity].
  - destruct (keyb_reflect k k1) as [->|N1]; cbn [JsMap.get].
    + destruct (keyb_reflect k' k1); [contradiction|reflexivity].
    + destruct (keyb k' k1); [reflexivity|exact IH].
Qed.

Lemma removeFirst_last (l : Emitter.Listener E) ls :
  (forall x, In x ls -> Emitter.lid x <> Emitter.lid l) ->
  Emitter.removeFirst (Emitter.lid l) (ls ++ [l]) = ls.
Proof.
  induction ls as [|x ls IH]; intros H; cbn [app Emitter.removeFirst].
  - now rewrite Nat.eqb_refl.
  - destruct (Nat.eqb_spec (Emitter.lid x) (Emitter.lid l)) as [Eq|N].
    + exfalso. apply (H x); [now left | exact Eq].
    + rewrite IH; [reflexivity|]. intros y Hy. apply H. now right.
Qed.

(** X12: (the [on] and [off] of the three managers) [on] adds the listener at
    the end of the list of its event and [off] removes its first
    occurrence there; the lists of the other events stay as they are, and
    an event then calls the listeners that were registered before and the
    new one last. A listener that is added and removed is gone; a
    listener added twice and removed once is still called, once. *)
Theorem on_and_off_register_one_listener name (l : Emitter.Listener E)
    (ls : Emitter.Listeners E) :
  Emitter.listenersOf name (Emitter.on name l ls)
  = Emitter.listenersOf name ls ++ [l]
  /\ Emitter.listenersOf name (Emitter.off name l ls)
     = Emitter.removeFirst (Emitter.lid l) (Emitter.listenersOf name ls)
  /\ (forall other, other <> name ->
        Emitter.listenersOf other (Emitter.on name l ls)
        = Emitter.listenersOf other ls
        /\ Emitter.listenersOf other (Emitter.off name l ls)
           = Emitter.listenersOf other ls)
  /\ (forall ev, event_name ev = name ->
        Emitter.calls
          (Emitter.reactions event_name prefix (Emitter.on name l ls) ev)
        = Emitter.calls (Emitter.reactions event_name prefix ls ev)
          ++ [Emitter.lid l])
  /\ ((forall x, In x (Emitter.listenersOf name ls) ->
         Emitter.lid x <> Emitter.lid l) ->
      Emitter.listenersOf name (Emitter.off name l (Emitter.on name l ls))
      = Emitter.listenersOf name ls
      /\ Emitter.listenersOf name
           (Emitter.off name l
              (Emitter.on name l (Emitter.on name l ls)))
         = Emitter.listenersOf name ls ++ [l]).
Proof.
  assert (Hon : forall ls0,
            Emitter.listenersOf name (Emitter.on name l ls0)
            = Emitter.listenersOf name ls0 ++ [l]).
  { intros ls0. unfold Emitter.listenersOf at 1, Emitter.on.
    now rewrite get_set_same. }
  assert (Hoff : forall ls0,
            Emitter.listenersOf name (Emitter.off name l ls0)
            = Emitter.removeFirst (Emitter.lid l)
                (Emitter.listenersOf name ls0)).
  { intros ls0. unfold Emitter.listenersOf, Emitter.off.
    rewrite get_update, keyb_refl.
    now destruct (JsMap.get name ls0). }
  split; [apply Hon|]. split; [apply Hoff|]. split; [|split].
  - intros other N. unfold Emitter.listenersOf, Emitter.on, Emitter.off.
    rewrite get_set_other by exact N. rewrite get_update.
    destruct (keyb_reflect other name); [contradiction|]. split; reflexivity.
  - intros ev <-. rewrite !calls_reactions, Hon, map_app. reflexivity.
  - intros H. split.
    + rewrite Hoff, Hon. now apply removeFirst_last.
    + rewrite Hoff, !Hon.
      generalize H. generalize (Emitter.listenersOf name ls) as xs.
      induction xs as [|x xs IH]; intros Hx;
        cbn [app Emitter.removeFirst].
      * now rewrite Nat.eqb_refl.
      * destruct (Nat.eqb_spec (Emitter.lid x) (Emitter.lid l)) as [Eq|N].
        -- exfalso. apply (Hx x); [now left | exact Eq].
        -- rewrite IH; [reflexivity|]. intros y Hy. apply Hx. now right.
Qed.

End Listeners.

(** X12 at the listeners of [failed] of a new file transfer manager. *)
Lemma on_and_off_register_one_listener_witness :
  let l := {| Emitter.lid := 7;
              Emitter.call := fun _ : FileTransfer.Event => None |} in
  let ls := FileTransfer.eventListeners
              (FileTransfer.new FileTransfer.DEFAULT_CONFIG) in
  Emitter.listenersOf "failed"
    (Emitter.off "failed" l (Emitter.on "failed" l ls)) = []
  /\ Emitter.listenersOf "failed"
       (Emitter.off "failed" l
          (Emitter.on "failed" l (Emitter.on "failed" l ls))) = [l].
Proof.
  cbv zeta.
  exact (proj2 (proj2 (proj2 (proj2
           (@on_and_off_register_one_listener FileTransfer.Event
              FileTransfer.event_name
              "Error in file transfer event listener for " "failed"
              {| Emitter.lid := 7;
                 Emitter.call := fun _ : FileTransfer.Event => None |}
              (FileTransfer.eventListeners
                 (FileTransfer.new FileTransfer.DEFAULT_CONFIG))))))
           (fun x (H : False) => match H with end)).
Defined.


(** ** The relay: rooms, clients and messages *)

Section MapOperations.
Context {V : Type}.
Implicit Types (m : JsMap.t string V) (k : string).

Lemma map_delete_absent k m : JsMap.get k m = None -> JsMap.delete k m = m.
Proof.
  unfold JsMap.delete.
  induction m as [|[k1 v1] m IH]; cbn [JsMap.get filter fst];
    [reflexivity|].
  destruct (keyb k k1); [discriminate|]. intros E. cbn [negb].
  now rewrite IH.
Qed.



Lemma map_wf_entry k v t m :
  JsMap.wf m -> JsMap.get k m = Some t -> In (k, v) m -> v = t.
Proof.
  unfold JsMap.wf, JsMap.keys.
  induction m as [|[k1 v1] m IH]; cbn [JsMap.get map fst In];
    [discriminate|].
  intros Hnd G Hin. inversion Hnd as [|? ? Hni Hnd']; subst.
  destruct (keyb_reflect k k1) as [->|N].
  - injection G as ->. destruct Hin as [E|Hin]; [congruence|].
    exfalso. apply Hni. apply in_map_iff. now exists (k1, v).
  - destruct Hin as [E|Hin]; [congruence|]. now apply IH.
Qed.


Lemma map_get_set_other k k' v m :
  k' <> k -> JsMap.get k' (JsMap.set k v m) = JsMap.get k' m.
Proof. apply get_set_other. Qed.
End MapOperations.



Section Leaving.
Import RoomService.

Lemma values_delete_keyed cid (cs : JsMap.t string Client) :
  keyed cs ->
  JsMap.values (JsMap.delete cid cs)
  = filter (fun m => negb (String.eqb (id m) cid)) (JsMap.values cs).
Proof.
  unfold keyed, JsMap.values, JsMap.delete.
  induction cs as [|[k v] cs IH]; intros Hk; cbn [filter map fst snd];
    [reflexivity|].
  inversion Hk as [|? ? Hkv Hk']; subst. cbn [fst snd] in Hkv. subst k.
  change (keyb cid (id v)) with (String.eqb cid (id v)).
  rewrite (String.eqb_sym cid).
  destruct (String.eqb (id v) cid); cbn [negb map snd]; now rewrite IH.
Qed.

Lemma receivedBy_leave_in c clientId roomId_ l :
  NoDup l -> In c l ->
  receivedBy c
    (map (fun otherClient =>
            (otherClient, leaveMsg roomId_ clientId (id otherClient))) l)
  = [leaveMsg roomId_ clientId (id c)].
Proof.
  unfold receivedBy. induction l as [|x l IH]; intros Hnd Hin; [destruct Hin|].
  inversion Hnd as [|? ? Hni Hnd']; subst. cbn [map flat_map fst snd].
  destruct Hin as [->|Hin].
  - rewrite client_eqb_refl. cbn [app]. f_equal.
    clear IH Hnd Hnd'. induction l as [|y l IH]; [reflexivity|].
    cbn [map flat_map fst snd]. rewrite client_eqb_neq.
    + apply IH. intros H. apply Hni. now right.
    + intros ->. apply Hni. now left.
  - rewrite client_eqb_neq by (intros ->; contradiction).
    now apply IH.
Qed.

Lemma receivedBy_leave_out c clientId roomId_ l :
  ~ In c l ->
  receivedBy c
    (map (fun otherClient =>
            (otherClient, leaveMsg roomId_ clientId (id otherClient))) l)
  = [].
Proof.
  unfold receivedBy. induction l as [|x l IH]; intros Hn; [reflexivity|].
  cbn [map flat_map fst snd]. rewrite client_eqb_neq.
  - apply IH. intros H. apply Hn. now right.
  - intros ->. apply Hn. now left.
Qed.

(** X13: [leaveRoom] for a client that is not registered, or whose room does
    not exist, changes nothing and sends nothing. Otherwise every other
    member of the room receives exactly one [leave] message that names
    the client, nobody else receives anything, and afterwards the client
    is neither registered nor a member of the room. *)
Theorem leaveRoom_notifies_the_rest clientId s :
  wf s ->
  let s' := fst (leaveRoom clientId s) in
  let out := snd (leaveRoom clientId s) in
  match getClient clientId s with
  | None => s' = s /\ out = []
  | Some client =>
      match getRoom (roomId client) s with
      | None => s' = s /\ out = []
      | Some room =>
          let rest :=
            filter (fun m => negb (String.eqb (id m) clientId))
              (JsMap.values (clients room)) in
          (forall m, In m rest ->
             receivedBy m out
             = [leaveMsg (roomId client) clientId (id m)])
          /\ (forall c, ~ In c rest -> receivedBy c out = [])
          /\ List.length out = List.length rest
          /\ getClient clientId s' = None
          /\ hasClientInRoom (roomId client) clientId s' = false
      end
  end.
Proof.
  intros Hwf. cbv zeta. unfold leaveRoom, getClient, getRoom.
  destruct (JsMap.get clientId (all_clients s)) as [client|] eqn:Gc;
    [|split; reflexivity].
  destruct (JsMap.get (roomId client) (rooms s)) as [room|] eqn:Gr;
    [|split; reflexivity].
  cbn [fst snd].
  destruct (Hwf _ _ (get_In _ _ Gr)) as [Hw Hk].
  assert (Hv : JsMap.values
                 (clients (set_clients (JsMap.delete clientId (clients room))
                             room))
               = filter (fun m => negb (String.eqb (id m) clientId))
                   (JsMap.values (clients room))).
  { cbn [clients set_clients]. now apply values_delete_keyed. }
  rewrite Hv.
  assert (Hnd : NoDup (filter (fun m => negb (String.eqb (id m) clientId))
                         (JsMap.values (clients room)))).
  { apply NoDup_filter. now apply values_NoDup. }
  split; [|split; [|split; [|split]]].
  - intros m Hm. now apply receivedBy_leave_in.
  - intros c Hc. now apply receivedBy_leave_out.
  - now rewrite length_map.
  - cbn [all_clients]. rewrite get_delete. now rewrite keyb_refl.
  - unfold hasClientInRoom. cbn [rooms].
    set (room' := set_clients (JsMap.delete clientId (clients room)) room).
    assert (Hh : JsMap.has clientId (clients room') = false).
    { unfold JsMap.has, room'. cbn [clients set_clients].
      rewrite get_delete. now rewrite keyb_refl. }
    assert (G1 : JsMap.get (roomId client)
                   (JsMap.update (roomId client) (fun _ => room') (rooms s))
                 = Some room').
    { rewrite get_update, keyb_refl, Gr. reflexivity. }
    destruct (JsMap.size (clients room') =? 0).
    + rewrite get_delete.
      destruct (keyb (roomId client) (room_id room')); [reflexivity|].
      now rewrite G1.
    + now rewrite G1.
Qed.

(** X13 at a room of two: when [u1] leaves, [u2] is told and [u1] is not. *)
Lemma leaveRoom_notifies_the_rest_witness :
  receivedBy Examples.u2 (snd (leaveRoom "u1" RelayExamples.twoInRoom))
  = [leaveMsg "r1" "u1" "u2"]
  /\ receivedBy Examples.u1 (snd (leaveRoom "u1" RelayExamples.twoInRoom)) = [].
Proof.
  pose proof (@leaveRoom_notifies_the_rest "u1" RelayExamples.twoInRoom
                (runOps_wf _)) as H.
  cbv zeta in H.
  change (getClient "u1" RelayExamples.twoInRoom) with (Some Examples.u1) in H.
  cbv beta iota in H.
  change (getRoom (roomId Examples.u1) RelayExamples.twoInRoom)
    with (Some {| room_id := "r1"; name := "default";
                  clients := [("u1", Examples.u1); ("u2", Examples.u2)] |})
    in H.
  cbv beta iota in H.
  destruct H as (Hm & Hc & _). split.
  - apply Hm. vm_compute. now left.
  - apply Hc. vm_compute. intros [E|[]]. discriminate E.
Defined.
End Leaving.

Section Relay.
Import RoomService SignalingService WsHandlers.






(** X15: [addClientToRoom] on a room that exists returns true, and the client
    is then a member of the room, registered, and listed by
    [getRoomClients]; [removeClientFromRoom] then returns true, after
    which the client is neither a member nor registered, and the room is
    still there. For a room that does not exist both return false and
    change nothing. *)
Theorem addClientToRoom_then_remove roomId_ client s :
  let added := addClientToRoom roomId_ client s in
  let removed := removeClientFromRoom roomId_ (id client) (fst added) in
  if hasRoom roomId_ s then
    snd added = true
    /\ hasClientInRoom roomId_ (id client) (fst added) = true
    /\ getClient (id client) (fst added) = Some client
    /\ In client (getRoomClients roomId_ (fst added))
    /\ snd removed = true
    /\ hasClientInRoom roomId_ (id client) (fst removed) = false
    /\ getClient (id client) (fst removed) = None
    /\ hasRoom roomId_ (fst removed) = true
  else
    added = (s, false)
    /\ removeClientFromRoom roomId_ (id client) s = (s, false).
Proof.
  cbv zeta. unfold hasRoom, JsMap.has.
  destruct (JsMap.get roomId_ (rooms s)) as [room|] eqn:Gr.
  - set (room1 := set_clients (JsMap.set (id client) client (clients room))
                    room).
    set (s1 := {| rooms :=
                    JsMap.update roomId_
                      (fun room =>
                         set_clients
                           (JsMap.set (id client) client (clients room)) room)
                      (rooms s);
                  all_clients :=
                    JsMap.set (id client) client (all_clients s) |}).
    assert (Ea : addClientToRoom roomId_ client s = (s1, true))
      by (unfold addClientToRoom; now rewrite Gr).
    assert (G1 : JsMap.get roomId_ (rooms s1) = Some room1)
      by (cbn [rooms s1]; now rewrite get_update, keyb_refl, Gr).
    set (s2 := {| rooms :=
                    JsMap.update roomId_
                      (fun room =>
                         set_clients
                           (JsMap.delete (id client) (clients room)) room)
                      (rooms s1);
                  all_clients := JsMap.delete (id client) (all_clients s1) |}).
    assert (Er : removeClientFromRoom roomId_ (id client) s1 = (s2, true))
      by (unfold removeClientFromRoom; now rewrite G1).
    assert (G2 : JsMap.get roomId_ (rooms s2)
                 = Some (set_clients
                           (JsMap.delete (id client) (clients room1)) room1))
      by (cbn [rooms s2]; now rewrite get_update, keyb_refl, G1).
    rewrite Ea. cbn [fst snd]. rewrite Er. cbn [fst snd].
    unfold hasClientInRoom, getClient, getRoomClients, JsMap.has.
    rewrite G1, G2. cbn [clients set_clients room1 all_clients s1 s2].
    rewrite !get_set_same, !get_delete, !keyb_refl.
    repeat split; try reflexivity.
    apply in_map_iff. exists (id client, client). split; [reflexivity|].
    apply get_In. apply get_set_same.
  - unfold addClientToRoom, removeClientFromRoom. rewrite Gr.
    split; reflexivity.
Qed.

(** X16: [createRoom] stores an empty room under the new id and leaves the
    other rooms alone. [deleteRoom] then returns true and removes the
    room, again without touching the others, and a second [deleteRoom]
    returns false. [deleteRoom] never changes the table of clients: the
    members of a deleted room stay registered. *)
Theorem createRoom_then_deleteRoom uuid name_ s :
  let created := createRoom uuid name_ s in
  let deleted := deleteRoom uuid (fst created) in
  getRoom uuid (fst created) = Some (snd created)
  /\ snd created = {| room_id := uuid; name := name_; clients := [] |}
  /\ hasRoom uuid (fst created) = true
  /\ getRoomClients uuid (fst created) = []
  /\ (forall k, k <> uuid ->
        getRoom k (fst created) = getRoom k s
        /\ getRoom k (fst deleted) = getRoom k s)
  /\ snd deleted = true
  /\ hasRoom uuid (fst deleted) = false
  /\ snd (deleteRoom uuid (fst deleted)) = false
  /\ (forall cid, getClient cid (fst (deleteRoom uuid s)) = getClient cid s).
Proof.
  cbv zeta. unfold createRoom, deleteRoom, getRoom, hasRoom, getRoomClients,
    getClient, JsMap.has.
  cbn [fst snd rooms all_clients].
  rewrite !get_set_same, !get_delete, !keyb_refl.
  cbn [clients]. repeat split; try reflexivity.
  - now apply map_get_set_other.
  - rewrite get_delete.
    destruct (keyb_reflect k uuid); [contradiction|].
    now apply map_get_set_other.
Qed.

(** X17: a message of type [signal] whose [to] names a client that has joined
    is passed on as it came to the socket of that client, and to no other
    socket; when that socket throws, nothing is sent and the error leaves
    [handleMessage]. Once the client has left, the same message is
    dropped: nothing is sent and nothing is thrown. *)
Theorem signal_reaches_the_registered_addressee net sender message s k c :
  in_type message = Known SIGNAL ->
  addressee message = Some (id c) ->
  roomId c = k ->
  let joined := fst (joinRoom k c s) in
  let left := fst (leaveRoom (id c) joined) in
  handleMessage net sender message joined
  = match net (ws c) with
    | None => (joined, [ESend c (Relayed message)], None)
    | Some error => (joined, [], Some error)
    end
  /\ handleMessage net sender message left = (left, [], None).
Proof.
  intros Ht Ha Hk. cbv zeta. unfold handleMessage. rewrite Ht.
  unfold handleWebRTCMessage. rewrite Ha. split.
  - unfold getClient, joinRoom. cbn [fst all_clients].
    rewrite get_set_same. now destruct (net (ws c)).
  - assert (G : getClient (id c) (fst (leaveRoom (id c)
                                        (fst (joinRoom k c s)))) = None).
    { unfold leaveRoom, joinRoom, getClient. cbn [fst all_clients rooms].
      rewrite get_set_same, Hk, get_set_same. cbn [fst all_clients].
      rewrite get_delete. now rewrite keyb_refl. }
    now rewrite G.
Qed.

(** X17 at an offer for [u2]: passed on while [u2] is registered, dropped
    after it left. *)
Lemma signal_reaches_the_registered_addressee_witness :
  let joined := fst (joinRoom "r1" Examples.u2 RoomService.new) in
  handleMessage RelayExamples.healthy Examples.u1 RelayExamples.offerForU2 joined
  = (joined, [ESend Examples.u2 (Relayed RelayExamples.offerForU2)], None)
  /\ sends (snd (fst (handleMessage RelayExamples.healthy Examples.u1
                        RelayExamples.offerForU2
                        (fst (leaveRoom "u2" joined))))) = [].
Proof.
  cbv zeta.
  destruct (@signal_reaches_the_registered_addressee RelayExamples.healthy
              Examples.u1 RelayExamples.offerForU2 RoomService.new "r1"
              Examples.u2 eq_refl eq_refl eq_refl) as [H1 H2].
  split; [exact H1|].
  change (id Examples.u2) with "u2" in H2. now rewrite H2.
Defined.

(** The room table of the relay: empty, or the one default room, whose
    members are the registered clients. *)
Let oneRoom (s : Service) : Prop :=
  (rooms s = [] /\ all_clients s = [])
  \/ rooms s
     = [(DEFAULT_ROOM_ID,
         {| room_id := DEFAULT_ROOM_ID; name := "default";
            clients := all_clients s |})].

Lemma joinDefault_oneRoom c s :
  oneRoom s -> oneRoom (fst (joinRoom DEFAULT_ROOM_ID c s)).
Proof.
  intros [[Hr Ha]|Hr]; right; unfold joinRoom; cbn [fst rooms all_clients];
    rewrite Hr.
  - rewrite Ha. reflexivity.
  - cbn [JsMap.get JsMap.set]. rewrite keyb_refl. reflexivity.
Qed.

Lemma socketEvent_state net e s :
  socketEvent net e s = s
  \/ exists c, socketEvent net e s = fst (joinRoom DEFAULT_ROOM_ID c s).
Proof.
  destruct e as [client data|client]; cbn [socketEvent onClose];
    [|now left].
  unfold onMessage. destruct data as [| |message]; try (now left).
  unfold handleMessage.
  destruct (in_type message) as [[| | |]|]; cbn [fst]; try (now left).
  - right. exists client. unfold handleJoin.
    destruct (joinRoom DEFAULT_ROOM_ID client s) as [s' out].
    destruct (sendAll net out) as [tr [e|]]; reflexivity.
  - left. unfold handleWebRTCMessage.
    destruct (addressee message) as [to_|]; [|reflexivity].
    destruct (getClient to_ s) as [t|]; [|reflexivity].
    destruct (net (ws t)); reflexivity.
Qed.

(** X18: whatever arrives on the accepted sockets, the relay has either no
    room, or the one room ["default"] whose members are all the
    registered clients. A client that is registered stays registered,
    whatever follows: the closing of its socket removes nothing. A [join]
    message registers the client of its socket, also when a notification
    cannot be sent. *)
Theorem relay_keeps_one_room_and_every_client es :
  let s := runSockets es RoomService.new in
  ((rooms s = [] /\ all_clients s = [])
   \/ rooms s
      = [(DEFAULT_ROOM_ID,
          {| room_id := DEFAULT_ROOM_ID; name := "default";
             clients := all_clients s |})])
  /\ (forall more cid,
        getClient cid s <> None ->
        getClient cid (runSockets more s) <> None)
  /\ (forall net client message,
        in_type message = Known JOIN ->
        getClient (id client)
          (socketEvent net (Message client (DMessage message)) s)
        = Some client).
Proof.
  cbv zeta. split; [|split].
  - change (oneRoom (runSockets es RoomService.new)).
    assert (G : forall s, oneRoom s -> oneRoom (runSockets es s)).
    { induction es as [|[net e] es IH]; intros s H; [exact H|].
      cbn [runSockets fold_left fst snd]. apply IH.
      destruct (socketEvent_state net e s) as [->|[c ->]];
        [exact H | now apply joinDefault_oneRoom]. }
    apply G. left. split; reflexivity.
  - generalize (runSockets es RoomService.new) as s.
    intros s more. revert s.
    induction more as [|[net e] more IH]; intros s cid H; [exact H|].
    cbn [runSockets fold_left fst snd]. apply IH.
    destruct (socketEvent_state net e s) as [->|[c ->]]; [exact H|].
    unfold getClient, joinRoom in *. cbn [fst all_clients].
    destruct (String.eqb_spec cid (id c)) as [->|N].
    + rewrite get_set_same. discriminate.
    + now rewrite map_get_set_other.
  - intros net client message Ht.
    cbn [socketEvent]. unfold onMessage, handleMessage. rewrite Ht.
    unfold handleJoin.
    destruct (joinRoom DEFAULT_ROOM_ID client _) as [s' out] eqn:J.
    assert (E : s' = fst (joinRoom DEFAULT_ROOM_ID client
                            (runSockets es RoomService.new)))
      by now rewrite J.
    destruct (sendAll net out) as [tr [e|]]; cbn [fst]; rewrite E;
      unfold getClient, joinRoom; cbn [fst all_clients];
      apply get_set_same.
Qed.

(** X19: [broadcastToRoom] sends the message once to every client of the
    given table that is in the room and is not the excluded client, in
    the order of the table, except those whose socket throws; for each of
    these it logs one failure and goes on with the next client. *)
Theorem broadcast_reaches_every_healthy_target net roomId_ message clients_
    exclude :
  let tr := broadcastToRoom net roomId_ message clients_ exclude in
  let targets := filter (isTarget roomId_ exclude) (JsMap.values clients_) in
  sends tr
  = map (fun c => (c, Relayed message)) (filter (accepts net) targets)
  /\ broadcastFailures tr
     = map id (filter (fun c => negb (accepts net c)) targets)
  /\ List.length tr = List.length targets.
Proof.
  cbv zeta. unfold broadcastToRoom.
  induction (JsMap.values clients_) as [|c l IH];
    cbn [flat_map filter map]; [repeat split|].
  destruct IH as (I1 & I2 & I3).
  unfold sends, broadcastFailures in *. rewrite !flat_map_app, I1, I2.
  rewrite length_app, I3.
  change (broadcastTo net roomId_ message exclude c)
    with (if isTarget roomId_ exclude c
          then match net (ws c) with
               | None => [ESend c (Relayed message)]
               | Some error => [EErrorBroadcastFailed (id c) error]
               end
          else []).
  destruct (isTarget roomId_ exclude c); cbn [filter];
    [|repeat split].
  destruct (net (ws c)) as [e|] eqn:N.
  - assert (A : accepts net c = false) by (unfold accepts; now rewrite N).
    rewrite A. cbn [flat_map app negb map List.length filter].
    repeat split.
  - assert (A : accepts net c = true) by (unfold accepts; now rewrite N).
    rewrite A. cbn [flat_map app negb map List.length filter].
    repeat split.
Qed.

(** X20: a WebSocket connection whose [userId] is the id of a registered user
    (the id not being empty) is accepted, as a client with that id in the
    room ["default"]. A
    connection without [userId], or with an empty one, is closed with the
    code 4400; one with an id that no registered user has, or that
    belonged to a user since deleted, with the code 4401. *)
Theorem connection_needs_a_registered_user uuid request users ws_ :
  uuid <> "" ->
  let users' := fst (UserService.register uuid request users) in
  handleConnection users' ws_ (Some uuid)
  = Accepted {| id := uuid; ws := ws_; roomId := "default" |}
  /\ handleConnection users' ws_ None = Closed 4400
  /\ handleConnection users' ws_ (Some "") = Closed 4400
  /\ (forall other,
        other <> "" -> UserService.getUser other users' = None ->
        handleConnection users' ws_ (Some other) = Closed 4401)
  /\ handleConnection (fst (UserService.deleteUser uuid users')) ws_
       (Some uuid)
     = Closed 4401.
Proof.
  intros Hne. cbv zeta. unfold handleConnection, UserService.register,
    UserService.getUser, UserService.deleteUser.
  cbn [fst]. apply String.eqb_neq in Hne. rewrite Hne.
  rewrite get_set_same, get_delete, keyb_refl. cbn [UserService.user_id].
  repeat split.
  intros other Ho G. apply String.eqb_neq in Ho. now rewrite Ho, G.
Qed.

(** X20 at one registered user: its id is accepted, another id is closed
    with the code 4401. *)
Lemma connection_needs_a_registered_user_witness :
  let users :=
    fst (UserService.register "id-1"
           {| UserService.req_username := "ann";
              UserService.req_roomId := "lobby" |} []) in
  handleConnection users 5 (Some "id-1")
  = Accepted {| id := "id-1"; ws := 5; roomId := "default" |}
  /\ handleConnection users 5 (Some "id-2") = Closed 4401.
Proof.
  cbv zeta.
  destruct (@connection_needs_a_registered_user "id-1"
              {| UserService.req_username := "ann";
                 UserService.req_roomId := "lobby" |} [] 5)
    as (H1 & _ & _ & H4 & _); [discriminate|].
  split; [exact H1|]. apply H4; [discriminate|reflexivity].
Defined.
End Relay.


(** ** The signaling manager *)

Section SignalingRuns.
Import Signaling.

Local Open Scope js_scope.

Lemma stateChanges_app a b :
  stateChanges (a ++ b) = stateChanges a ++ stateChanges b.
Proof. apply flat_map_app. Qed.

Lemma last_default {A} (x : A) l d d' : last (x :: l) d = last (x :: l) d'.
Proof.
  revert x. induction l as [|y l IH]; intros x; [reflexivity|].
  change (last (x :: y :: l) d) with (last (y :: l) d).
  change (last (x :: y :: l) d') with (last (y :: l) d'). apply IH.
Qed.

Lemma alternates_app p a b :
  alternates p (a ++ b) = alternates p a && alternates (last a p) b.
Proof.
  revert p. induction a as [|x a IH]; intros p; cbn [app alternates last].
  - reflexivity.
  - rewrite IH, andb_assoc. destruct a as [|y a]; [reflexivity|].
    change (last (x :: y :: a) p) with (last (y :: a) p).
    now rewrite (last_default y a x p).
Qed.

Lemma last_app_cons {A} (a : list A) x l d :
  last (a ++ x :: l) d = last (x :: l) d.
Proof.
  induction a as [|y a IH]; [reflexivity|].
  cbn [app]. destruct (a ++ x :: l) as [|z r] eqn:E;
    [destruct a; discriminate|].
  change (last (y :: z :: r) d) with (last (z :: r) d). exact IH.
Qed.

Lemma timers_app live a b :
  timers live (a ++ b)
  = match timers live a with
    | Some live' => timers live' b
    | None => None
    end.
Proof.
  revert live. induction a as [|e a IH]; intros live; cbn [app timers];
    [reflexivity|].
  destruct e; try apply IH; destruct live; try reflexivity; apply IH.
Qed.

Lemma stateChanges_obs obs : stateChanges (map EObs obs) = [].
Proof. induction obs; cbn; auto. Qed.

Lemma timers_obs live obs : timers live (map EObs obs) = Some live.
Proof. induction obs; cbn; auto. Qed.

Lemma stateChanges_told m ev :
  stateChanges (told m ev)
  = match ev with StateChange s => [s] | _ => [] end.
Proof.
  unfold told. cbn [stateChanges flat_map]. fold (stateChanges).
  change (flat_map _ (map EObs ?o)) with (stateChanges (map EObs o)).
  rewrite stateChanges_obs. destruct ev; reflexivity.
Qed.

Lemma timers_told live m ev : timers live (told m ev) = Some live.
Proof. unfold told. cbn [timers]. apply timers_obs. Qed.

Lemma sig_keeps_ret A (a : A) : keeps (Js.ret a).
Proof. intros w H. exact H. Qed.

Lemma sig_keeps_throw A e : keeps (@Js.throw World A e).
Proof. intros w H. exact H. Qed.

Lemma sig_keeps_getM : keeps getM.
Proof. intros w H. exact H. Qed.

Lemma sig_keeps_bind A B (c : M A) (k : A -> M B) :
  keeps c -> (forall a, keeps (k a)) -> keeps (Js.bind c k).
Proof.
  intros Hc Hk w H. unfold Js.bind. specialize (Hc w H).
  destruct (c w) as [[a|e] w']; cbn [snd] in *; [now apply Hk | exact Hc].
Qed.

Lemma sig_keeps_tryCatch A (c : M A) h :
  keeps c -> (forall e, keeps (h e)) -> keeps (Js.tryCatch c h).
Proof.
  intros Hc Hh w H. unfold Js.tryCatch. specialize (Hc w H).
  destruct (c w) as [[a|e] w']; cbn [snd] in *; [exact Hc | now apply Hh].
Qed.

Lemma sig_keeps_modifyM f : quiet f -> keeps (modifyM f).
Proof.
  intros Hf w (H1 & H2 & H3). destruct (Hf (mgr w)) as [Es Eh].
  repeat split; cbn [snd modifyM Js.modify mgr trace]; congruence.
Qed.

Lemma sig_keeps_log e :
  match e with
  | EEmit _ | ESetInterval _ | EClearInterval => False
  | _ => True
  end -> keeps (log e).
Proof.
  intros He w (H1 & H2 & H3). unfold steady, log, Js.modify.
  cbn [snd mgr trace].
  rewrite stateChanges_app, timers_app, H3.
  destruct e; try contradiction; cbn [stateChanges flat_map timers];
    rewrite app_nil_r; repeat split; assumption.
Qed.

Lemma sig_keeps_console msg : keeps (console msg).
Proof. now apply sig_keeps_log. Qed.

Lemma sig_keeps_emit ev :
  match ev with StateChange _ => False | _ => True end -> keeps (emit ev).
Proof.
  intros He w (H1 & H2 & H3). rewrite sig_emit_run. unfold steady.
  cbn [snd mgr trace].
  rewrite stateChanges_app, timers_app, H3, stateChanges_told, timers_told.
  destruct ev; try contradiction; rewrite app_nil_r; repeat split;
    assumption.
Qed.

Lemma state_eqb_eq a b : state_eqb a b = true <-> a = b.
Proof. destruct a, b; cbn; split; congruence. Qed.

Lemma sig_keeps_setState s : keeps (setState s).
Proof.
  intros w (H1 & H2 & H3). unfold setState, Js.bind, getM, Js.gets.
  destruct (state_eqb (state (mgr w)) s) eqn:E;
    [unfold Js.ret; cbn [snd]; repeat split; assumption|].
  unfold modifyM, Js.modify. rewrite sig_emit_run. unfold steady.
  cbn [snd mgr trace state set_state heartbeatInterval].
  rewrite stateChanges_app, timers_app, H3, stateChanges_told, timers_told.
  rewrite alternates_app, H1, H2. cbn [alternates andb].
  rewrite E. cbn [negb andb]. split; [reflexivity|]. split; [|reflexivity].
  now rewrite last_app_cons.
Qed.

Lemma sig_keeps_stopHeartbeat : keeps stopHeartbeat.
Proof.
  intros w (H1 & H2 & H3).
  unfold stopHeartbeat, Js.bind, getM, Js.gets, log, modifyM, Js.modify.
  destruct (heartbeatInterval (mgr w)) eqn:E;
    [|unfold Js.ret; cbn [snd]; repeat split; congruence].
  unfold steady.
  cbn [snd mgr trace state heartbeatInterval set_heartbeatInterval].
  rewrite stateChanges_app, timers_app, H3. cbn. rewrite app_nil_r.
  repeat split; assumption.
Qed.

Lemma stopHeartbeat_off w :
  heartbeatInterval (mgr (snd (stopHeartbeat w))) = false
  /\ fst (stopHeartbeat w) = Js.Normal tt.
Proof.
  unfold stopHeartbeat, Js.bind, getM, Js.gets, log, modifyM, Js.modify.
  destruct (heartbeatInterval (mgr w)) eqn:E; cbn; auto.
Qed.

Lemma sig_keeps_startHeartbeat : keeps startHeartbeat.
Proof.
  intros w H. pose proof (sig_keeps_stopHeartbeat H) as (H1 & H2 & H3).
  destruct (stopHeartbeat_off w) as [Hoff Hn].
  unfold startHeartbeat. unfold Js.bind at 1.
  destruct (stopHeartbeat w) as [r w1]. cbn [fst snd] in *. subst r.
  unfold Js.bind, getM, Js.gets, log, modifyM, Js.modify, steady.
  cbn [snd mgr trace state heartbeatInterval set_heartbeatInterval].
  rewrite stateChanges_app, timers_app, H3, Hoff. cbn. rewrite app_nil_r.
  repeat split; assumption.
Qed.

Ltac quiet_done := intros ?; split; reflexivity.

Ltac sig_keeps_step :=
  cbv beta zeta;
  lazymatch goal with
  | |- forall _, keeps _ => intros ?
  | |- keeps (Js.ret _) => apply sig_keeps_ret
  | |- keeps (Js.throw _) => apply sig_keeps_throw
  | |- keeps getM => apply sig_keeps_getM
  | |- keeps (console _) => apply sig_keeps_console
  | |- keeps (setState _) => apply sig_keeps_setState
  | |- keeps stopHeartbeat => apply sig_keeps_stopHeartbeat
  | |- keeps startHeartbeat => apply sig_keeps_startHeartbeat
  | |- keeps (Js.bind _ _) => apply sig_keeps_bind
  | |- keeps (Js.tryCatch _ _) => apply sig_keeps_tryCatch
  | |- keeps (emit _) => apply sig_keeps_emit; exact I
  | |- keeps (log _) => apply sig_keeps_log; exact I
  | |- keeps (modifyM _) => apply sig_keeps_modifyM; quiet_done
  | |- keeps (if ?b then _ else _) => destruct b
  | |- keeps (match ?x with _ => _ end) => destruct x
  end.

Ltac sig_keeps_steps := repeat sig_keeps_step.

Lemma sig_keeps_connect userId : keeps (connect userId).
Proof. unfold connect, createWebSocketConnection. sig_keeps_steps. Qed.

Lemma sig_keeps_sendMessage wsOpen message : keeps (sendMessage wsOpen message).
Proof. unfold sendMessage. sig_keeps_steps. Qed.

Lemma sig_keeps_leaveRoom wsOpen : keeps (leaveRoom wsOpen).
Proof.
  unfold leaveRoom. sig_keeps_steps; try apply sig_keeps_sendMessage; sig_keeps_steps.
Qed.

Lemma sig_keeps_joinRoom wsOpen roomId : keeps (joinRoom wsOpen roomId).
Proof.
  unfold joinRoom. sig_keeps_steps; try apply sig_keeps_sendMessage; sig_keeps_steps.
Qed.

Lemma sig_keeps_disconnect wsOpen : keeps (disconnect wsOpen).
Proof.
  unfold disconnect. sig_keeps_steps; try apply sig_keeps_leaveRoom; sig_keeps_steps.
Qed.

Lemma sig_keeps_handle i : keeps (handle i).
Proof.
  destruct i; cbn [handle].
  - apply sig_keeps_connect.
  - sig_keeps_steps. apply sig_keeps_joinRoom.
  - apply sig_keeps_disconnect.
  - unfold onopen. sig_keeps_steps.
  - unfold onclose, attemptReconnect. sig_keeps_steps.
  - unfold onerror. sig_keeps_steps.
  - unfold connectFailed. sig_keeps_steps.
  - unfold reconnectTimer. sig_keeps_steps. apply sig_keeps_connect.
Qed.

Lemma sig_keeps_act a : keeps (act a).
Proof.
  destruct a; cbn [act].
  - apply sig_keeps_handle.
  - sig_keeps_steps. apply sig_keeps_leaveRoom.
  - sig_keeps_steps.
  - unfold setHeartbeatTimeout. sig_keeps_steps.
  - sig_keeps_steps.
  - sig_keeps_steps.
  - unfold destroy. sig_keeps_steps. apply sig_keeps_disconnect.
  - unfold heartbeatTick. sig_keeps_steps.
Qed.

Lemma runActions_steady acts : forall w, steady w -> steady (runActions acts w).
Proof.
  induction acts as [|a acts IH]; intros w H; [exact H|].
  cbn [runActions fold_left]. apply IH. now apply sig_keeps_act.
Qed.

Lemma steady_new urlOk supported :
  steady {| mgr := new urlOk supported; trace := [] |}.
Proof. repeat split. Qed.

(** X21: in every run of a signaling manager from its creation, no two
    [state-change] events in a row announce the same state, the first one
    does not announce [DISCONNECTED], and the state announced last is the
    state of the manager. *)
Theorem state_changes_alternate urlOk supported acts :
  let w := runActions acts {| mgr := new urlOk supported; trace := [] |} in
  alternates DISCONNECTED (stateChanges (trace w)) = true
  /\ last (stateChanges (trace w)) DISCONNECTED = state (mgr w).
Proof.
  cbv zeta.
  destruct (runActions_steady acts (steady_new urlOk supported))
    as (H1 & H2 & _).
  split; assumption.
Qed.

(** X22: in every run of a signaling manager from its creation, an interval
    timer is set only when none is running and cleared only when one is
    running, and the field [heartbeatInterval] tells whether one is
    running: there is never more than one heartbeat timer. *)
Theorem one_heartbeat_timer_at_most urlOk supported acts :
  let w := runActions acts {| mgr := new urlOk supported; trace := [] |} in
  timers false (trace w) = Some (heartbeatInterval (mgr w)).
Proof.
  cbv zeta.
  now destruct (runActions_steady acts (steady_new urlOk supported))
    as (_ & _ & H3).
Qed.

Local Open Scope js_scope.

Lemma sig_emitted_app a b : emitted (a ++ b) = emitted a ++ emitted b.
Proof. apply flat_map_app. Qed.

Lemma wsSends_app a b : wsSends (a ++ b) = wsSends a ++ wsSends b.
Proof. apply flat_map_app. Qed.

Lemma socketsClosed_app a b :
  socketsClosed (a ++ b) = socketsClosed a ++ socketsClosed b.
Proof. apply flat_map_app. Qed.

Lemma socketsOpened_app a b :
  socketsOpened (a ++ b) = socketsOpened a ++ socketsOpened b.
Proof. apply flat_map_app. Qed.

Lemma sig_emitted_told m ev : emitted (told m ev) = [ev].
Proof.
  unfold told. cbn [emitted flat_map app]. f_equal.
  induction (Emitter.reactions _ _ _ _); cbn; auto.
Qed.

Lemma wsSends_told m ev : wsSends (told m ev) = [].
Proof.
  unfold told. cbn [wsSends flat_map app].
  induction (Emitter.reactions _ _ _ _); cbn; auto.
Qed.

Lemma socketsClosed_told m ev : socketsClosed (told m ev) = [].
Proof.
  unfold told. cbn [socketsClosed flat_map app].
  induction (Emitter.reactions _ _ _ _); cbn; auto.
Qed.

Lemma socketsOpened_told m ev : socketsOpened (told m ev) = [].
Proof.
  unfold told. cbn [socketsOpened flat_map app].
  induction (Emitter.reactions _ _ _ _); cbn; auto.
Qed.

Ltac sig_unfold :=
  unfold handle, connect, connectFailed, attemptReconnect, onopen, onclose,
    onerror, reconnectTimer, disconnect, joinRoom, leaveRoom, sendMessage,
    createWebSocketConnection, startHeartbeat, stopHeartbeat, setState,
    console, log, modifyM, getM,
    Js.bind, Js.tryCatch, Js.ret, Js.throw, Js.gets, Js.modify.

Ltac sig_run :=
  repeat (sig_unfold; cbn -[emit told Js.Error]; rewrite ?sig_emit_run).

Ltac sig_traces :=
  rewrite ?sig_emitted_app, ?wsSends_app, ?socketsClosed_app,
    ?socketsOpened_app, ?sig_emitted_told, ?wsSends_told,
    ?socketsClosed_told, ?socketsOpened_told;
  cbn [emitted wsSends socketsClosed socketsOpened flat_map app];
  rewrite ?app_nil_r.





(** X25: [connect] does nothing while the state is [CONNECTED] or
    [CONNECTING]. Otherwise, without WebSocket support it throws and
    changes nothing; with it, it records the user, moves to [CONNECTING],
    announces that state and creates one socket for the user (none when
    the URL is rejected), and a second [connect] creates no other socket,
    neither before nor after the socket has opened. (For a user id that
    is not the empty string.) *)
Theorem connect_opens_one_socket userId other w :
  userId <> "" ->
  let m := mgr w in
  let w1 := snd (connect userId w) in
  match state m with
  | CONNECTED | CONNECTING => connect userId w = (Js.Normal tt, w)
  | DISCONNECTED | ERROR =>
      if webSocketSupported m then
        fst (connect userId w) = Js.Normal tt
        /\ state (mgr w1) = CONNECTING
        /\ currentUserId (mgr w1) = Some userId
        /\ socketsOpened (trace w1)
           = socketsOpened (trace w)
             ++ (if urlValid m then [Some userId] else [])
        /\ emitted (trace w1)
           = emitted (trace w) ++ [StateChange CONNECTING]
        /\ connect other w1 = (Js.Normal tt, w1)
        /\ (urlValid m = true ->
            connect other (snd (onopen w1))
            = (Js.Normal tt, snd (onopen w1)))
      else
        connect userId w
        = (Js.Thrown "Error: WebSocket is not supported in this environment",
           w)
  end.
Proof.
  intros _. cbv zeta. destruct w as [m tr]. cbn [mgr trace].
  destruct m as [ws_ url sup user room st ls att maxa delay hb hbt].
  cbn [ws urlValid webSocketSupported currentUserId currentRoomId state
       eventListeners reconnectAttempts maxReconnectAttempts reconnectDelay
       heartbeatInterval heartbeatTimeout].
  destruct st, sup, url, hb;
    sig_run; sig_traces; repeat split; try reflexivity;
    intros _; reflexivity.
Qed.

(** X25 at a new manager: one socket for [u1], and no other when [connect]
    is called again. *)
Lemma connect_opens_one_socket_witness :
  let w1 := snd (connect "u1" SignalingExamples.fresh) in
  socketsOpened (trace w1) = [Some "u1"]
  /\ connect "u2" w1 = (Js.Normal tt, w1)
  /\ connect "u2" SignalingExamples.connected
     = (Js.Normal tt, SignalingExamples.connected).
Proof.
  intros w1.
  assert (H1 : "u1" <> "") by discriminate.
  destruct (@connect_opens_one_socket "u1" "u2" SignalingExamples.fresh H1)
    as (_ & _ & _ & Ho & _ & Hc & Hopen).
  split; [exact Ho|]. split; [exact Hc|]. exact (Hopen eq_refl).
Defined.
End SignalingRuns.


(** ** The WebRTC manager *)

Section ProgressEvents.
Import WebRTC.

Variable env : Channel.

Lemma emits_app a b : emits (a ++ b) = emits a ++ emits b.
Proof. apply flat_map_app. Qed.

Lemma waitForBuffer_emits fuel : forall t,
  emits (snd (waitForBuffer fuel env t)) = [].
Proof.
  induction fuel as [|fuel IH]; intros t; [reflexivity|].
  cbn [waitForBuffer]. specialize (IH (S t)).
  destruct (env t >? BUFFER_LIMIT); [|reflexivity].
  destruct (waitForBuffer fuel env (S t)) as [r tr]. exact IH.
Qed.

(** A loop that ends has emitted one event for each of its [n] rounds,
    with the counts [sc + 1, ..., sc + n]; the record differs from the one
    at the start in its progress only. *)
Lemma sendLoop_emits fuel content total n : forall i sc t0 t,
  fst (fst (sendLoop fuel env content total n i sc (Some t0) t)) = true ->
  emits (snd (sendLoop fuel env content total n i sc (Some t0) t))
  = map (fun k => FileTransferProgress (set_progress (k * 100) total t0))
      (indices (sc + 1) n)
  /\ exists a b,
       snd (fst (sendLoop fuel env content total n i sc (Some t0) t))
       = Some (set_progress a b t0).
Proof.
  induction n as [|n IH]; intros i sc t0 t D.
  - cbn. split; [reflexivity|].
    exists (progress_num t0), (progress_den t0). now destruct t0.
  - cbn [sendLoop] in *. pose proof (waitForBuffer_emits fuel t) as W.
    destruct (waitForBuffer fuel env t) as [[t'|] tr]; [|discriminate D].
    cbn [snd] in W. cbn [progressStep] in *.
    specialize (IH (i + 1) (sc + 1)
                  (set_progress ((sc + 1) * 100) total t0) t').
    destruct (sendLoop fuel env content total n (i + 1) (sc + 1)
                (Some (set_progress ((sc + 1) * 100) total t0)) t')
      as [[done ft2] tr2].
    cbn [fst snd] in *. destruct (IH D) as (He & a & b & Hf). split.
    + rewrite emits_app, W. cbn [app emits flat_map].
      change (flat_map _ tr2) with (emits tr2).
      rewrite He, indices_S. reflexivity.
    + exists a, b. rewrite Hf. reflexivity.
Qed.

Lemma sendLoop_silent fuel content total n : forall i sc t,
  emits (snd (sendLoop fuel env content total n i sc None t)) = []
  /\ snd (fst (sendLoop fuel env content total n i sc None t)) = None.
Proof.
  induction n as [|n IH]; intros i sc t; [split; reflexivity|].
  cbn [sendLoop]. pose proof (waitForBuffer_emits fuel t) as W.
  destruct (waitForBuffer fuel env t) as [[t'|] tr]; cbn [snd] in W;
    [|split; [exact W|reflexivity]].
  cbn [progressStep]. specialize (IH (i + 1) (sc + 1) t').
  destruct (sendLoop fuel env content total n (i + 1) (sc + 1) None t')
    as [[done ft2] tr2].
  cbn [fst snd] in *. destruct IH as [He Hf]. split; [|exact Hf].
  rewrite emits_app, W. cbn [app emits flat_map].
  exact He.
Qed.

(** The events of a completed [sendFileInChunks], and the record it
    leaves. *)
Lemma sendFileInChunks_events fuel content t :
  fst (fst (sendFileInChunks fuel env content (Some t))) = true ->
  let total :=
    FileTransfer.Math_ceil_div (Z.of_nat (List.length content)) CHUNK_SIZE in
  emits (snd (sendFileInChunks fuel env content (Some t)))
  = map (fun k =>
           FileTransferProgress
             (set_progress (k * 100) total (set_status TRANSFERRING t)))
      (indices 1 (Z.to_nat total))
    ++ [FileTransferProgress (set_progress 100 1 (set_status COMPLETED t))]
  /\ snd (fst (sendFileInChunks fuel env content (Some t)))
     = Some (set_progress 100 1 (set_status COMPLETED t)).
Proof.
  intros D total. unfold sendFileInChunks in *. fold total in D |- *.
  cbn [option_map] in *.
  pose proof (@sendLoop_emits fuel content total (Z.to_nat total) 0 0
                (set_status TRANSFERRING t) 0%nat) as L.
  destruct (sendLoop fuel env content total (Z.to_nat total) 0 0
              (Some (set_status TRANSFERRING t)) 0%nat)
    as [[done ft1] tr].
  cbn [fst snd] in L. destruct done.
  - destruct (L eq_refl) as (He & a & b & Hf). rewrite Hf.
    cbn [fst snd]. split; [|reflexivity].
    rewrite emits_app, He. reflexivity.
  - destruct ft1; discriminate D.
Qed.

(** A completed [sendFileInChunks] has handed every chunk of the file to
    the channel. *)
Lemma sendFileInChunks_sends_all fuel content t :
  fst (fst (sendFileInChunks fuel env content (Some t))) = true ->
  sends (snd (sendFileInChunks fuel env content (Some t)))
  = fileChunks content.
Proof.
  intros D. unfold sendFileInChunks in *. cbn [option_map] in *.
  set (total := FileTransfer.Math_ceil_div (Z.of_nat (List.length content))
                  CHUNK_SIZE) in *.
  destruct (@sendLoop_sends env fuel content total (Z.to_nat total) 0 0
              (Some (set_status TRANSFERRING t)) 0%nat)
    as (k & Hk & Hs & Hd).
  destruct (sendLoop fuel env content total (Z.to_nat total) 0 0
              (Some (set_status TRANSFERRING t)) 0%nat)
    as [[done ft1] tr].
  cbn [fst snd] in *. destruct done.
  - rewrite (Hd eq_refl) in Hs.
    destruct ft1; cbn [fst snd]; [rewrite sends_snoc_emit|]; exact Hs.
  - destruct ft1; discriminate D.
Qed.

(** X26: a [sendFileInChunks] that runs to its end with a record of the
    transfer emits one progress event after each chunk, with the
    progress [k * 100 / totalChunks] after the [k]-th chunk and the status
    [TRANSFERRING], and then one last event with the status [COMPLETED]
    and the progress 100; for an empty file that last event is the only
    one. Without a record of the transfer it emits nothing. *)
Theorem sendFileInChunks_reports_each_chunk fuel content t :
  fst (fst (sendFileInChunks fuel env content (Some t))) = true ->
  let total :=
    FileTransfer.Math_ceil_div (Z.of_nat (List.length content)) CHUNK_SIZE in
  emits (snd (sendFileInChunks fuel env content (Some t)))
  = map (fun k =>
           FileTransferProgress
             (set_progress (k * 100) total (set_status TRANSFERRING t)))
      (indices 1 (Z.to_nat total))
    ++ [FileTransferProgress (set_progress 100 1 (set_status COMPLETED t))]
  /\ (content = [] ->
      emits (snd (sendFileInChunks fuel env content (Some t)))
      = [FileTransferProgress
           (set_progress 100 1 (set_status COMPLETED t))])
  /\ emits (snd (sendFileInChunks fuel env content None)) = [].
Proof.
  intros D total.
  destruct (sendFileInChunks_events fuel content t D) as [He _].
  fold total in He. split; [exact He|]. split.
  - intros ->. rewrite He. reflexivity.
  - unfold sendFileInChunks. cbn [option_map].
    pose proof (sendLoop_silent fuel content
                  (FileTransfer.Math_ceil_div
                     (Z.of_nat (List.length content)) CHUNK_SIZE)
                  (Z.to_nat
                     (FileTransfer.Math_ceil_div
                        (Z.of_nat (List.length content)) CHUNK_SIZE))
                  0 0 0%nat) as [He' Hf].
    destruct (sendLoop fuel env content _ _ 0 0 None 0%nat)
      as [[done ft1] tr].
    cbn [fst snd] in *. subst ft1. destruct done; exact He'.
Qed.

End ProgressEvents.

(** X26 at a file of two chunks: the progress 100/2, the progress 200/2,
    the completion. *)
Lemma sendFileInChunks_reports_each_chunk_witness :
  WebRTC.emits
    (snd (WebRTC.sendFileInChunks 1 PeerExamples.idle PeerExamples.twoChunks
            (Some PeerExamples.pending)))
  = [WebRTC.FileTransferProgress
       (WebRTC.set_progress 100 2
          (WebRTC.set_status WebRTC.TRANSFERRING PeerExamples.pending));
     WebRTC.FileTransferProgress
       (WebRTC.set_progress 200 2
          (WebRTC.set_status WebRTC.TRANSFERRING PeerExamples.pending));
     WebRTC.FileTransferProgress
       (WebRTC.set_progress 100 1
          (WebRTC.set_status WebRTC.COMPLETED PeerExamples.pending))].
Proof.
  assert (D : fst (fst (WebRTC.sendFileInChunks 1 PeerExamples.idle
                          PeerExamples.twoChunks (Some PeerExamples.pending)))
              = true) by (vm_compute; reflexivity).
  pose proof (proj1 (@sendFileInChunks_reports_each_chunk PeerExamples.idle 1
                       PeerExamples.twoChunks PeerExamples.pending D)) as T.
  rewrite T. vm_compute. reflexivity.
Defined.

Section PeerConnections.
Import Peers.

Lemma peers_emit_run ev w :
  emit ev w
  = (Js.Normal tt, {| mgr := mgr w; trace := trace w ++ told (mgr w) ev |}).
Proof. unfold emit, WebRTC.emit. rewrite emit_run. reflexivity. Qed.

Lemma peers_emitted_app a b : emitted (a ++ b) = emitted a ++ emitted b.
Proof. apply flat_map_app. Qed.

Lemma texts_app a b : texts (a ++ b) = texts a ++ texts b.
Proof. apply flat_map_app. Qed.

Lemma chunksSent_app a b : chunksSent (a ++ b) = chunksSent a ++ chunksSent b.
Proof. apply flat_map_app. Qed.

Lemma closed_app a b : closed (a ++ b) = closed a ++ closed b.
Proof. apply flat_map_app. Qed.

Lemma peers_emitted_told m ev : emitted (told m ev) = [ev].
Proof.
  unfold told. cbn. f_equal.
  induction (Emitter.reactions _ _ _ _); cbn; auto.
Qed.

Lemma texts_told m ev : texts (told m ev) = [].
Proof.
  unfold told. cbn. induction (Emitter.reactions _ _ _ _); cbn; auto.
Qed.

Lemma chunksSent_told m ev : chunksSent (told m ev) = [].
Proof.
  unfold told. cbn. induction (Emitter.reactions _ _ _ _); cbn; auto.
Qed.

Lemma closed_told m ev : closed (told m ev) = [].
Proof.
  unfold told. cbn. induction (Emitter.reactions _ _ _ _); cbn; auto.
Qed.

Lemma removePeer_run peerId w :
  removePeer peerId w
  = (Js.Normal tt,
     match JsMap.get peerId (peers (mgr w)) with
     | None => w
     | Some peer =>
         {| mgr := set_peers (JsMap.delete peerId (peers (mgr w))) (mgr w);
            trace :=
              trace w
              ++ (match dataChannel peer with
                  | Some _ => [ECloseChannel peerId]
                  | None => []
                  end)
              ++ [ECloseConnection peerId]
              ++ (if mediaStream peer then [EStopStream peerId] else []) |}
     end).
Proof.
  unfold removePeer, Js.bind, getM, Js.gets, log, modifyM,
    Js.modify, Js.ret.
  destruct (JsMap.get peerId (peers (mgr w))) as [p|];
    [|reflexivity].
  destruct (dataChannel p), (mediaStream p); cbn [mgr trace];
    rewrite <- ?app_assoc; cbn [app]; rewrite ?app_nil_r; reflexivity.
Qed.

(** What [removePeer] adds to the trace for a peer of the table. *)
Lemma removal_traces peerId (peer : Peer) :
  let tr :=
    (match dataChannel peer with
     | Some _ => [ECloseChannel peerId]
     | None => []
     end)
    ++ [ECloseConnection peerId]
    ++ (if mediaStream peer then [EStopStream peerId] else []) in
  closed tr = [peerId] /\ emitted tr = [] /\ texts tr = []
  /\ chunksSent tr = [] /\ ~ In EStopLocalStream tr.
Proof.
  destruct (dataChannel peer), (mediaStream peer); cbn;
    repeat split; try reflexivity; intuition discriminate.
Qed.

(** The loop of [closeAllConnections] over a table [m]. *)
Lemma closeAll_loop : forall (m : JsMap.t string Peer) w,
  JsMap.wf m -> peers (mgr w) = m ->
  exists tr,
    Js.forEach (JsMap.keys m) removePeer w
    = (Js.Normal tt,
       {| mgr := set_peers [] (mgr w); trace := trace w ++ tr |})
    /\ closed tr = JsMap.keys m /\ emitted tr = [] /\ texts tr = []
    /\ chunksSent tr = [] /\ ~ In EStopLocalStream tr.
Proof.
  induction m as [|[k v] m IH]; intros w Hwf Hp.
  - exists []. cbn. rewrite app_nil_r. unfold Js.ret.
    repeat split; auto.
    destruct w as [[p l e f] tr]. cbn in Hp. subst p. reflexivity.
  - cbn [JsMap.keys map fst Js.forEach]. unfold Js.bind at 1.
    rewrite removePeer_run, Hp. cbn [JsMap.get]. rewrite keyb_refl.
    inversion Hwf as [|k0 ks Hni Hnd]; subst.
    assert (Hd : JsMap.delete k ((k, v) :: m) = m).
    { unfold JsMap.delete. cbn [filter fst]. rewrite keyb_refl.
      cbn [negb]. apply (map_delete_absent k m).
      apply get_None_keys. exact Hni. }
    rewrite Hd.
    match goal with |- context [Js.forEach _ removePeer ?w1] =>
      destruct (IH w1 Hnd eq_refl) as (tr & E & Hc & He & Ht & Hs & Hl)
    end.
    change (map fst m) with (JsMap.keys m). rewrite E. cbn [mgr trace].
    destruct (removal_traces k v) as (Rc & Re & Rt & Rs & Rl).
    cbv zeta in Rc, Re, Rt, Rs, Rl.
    eexists. split; [|split; [|split; [|split; [|split]]]].
    + rewrite <- app_assoc. reflexivity.
    + rewrite closed_app, Rc, Hc. reflexivity.
    + rewrite peers_emitted_app, Re, He. reflexivity.
    + rewrite texts_app, Rt, Ht. reflexivity.
    + rewrite chunksSent_app, Rs, Hs. reflexivity.
    + intros Hin. apply in_app_or in Hin. tauto.
Qed.

(** [sendMessage] and [sendFile] for a peer without an open channel. *)
Lemma send_without_channel br fuel env transferId now peerId content_ file w :
  openChannel br peerId (mgr w) = None ->
  let w' :=
    {| mgr := mgr w;
       trace :=
         trace w
         ++ told (mgr w)
              (WebRTC.ErrorEvent (Js.Error "Data channel not available")
                 (Some peerId)) |} in
  sendMessage br now peerId content_ w = (Js.Normal false, w')
  /\ sendFile br fuel env transferId now peerId file w
     = (Js.Normal (Returned None), w').
Proof.
  intros Ho w'. unfold sendMessage, sendFile, Js.bind, getM, Js.gets.
  rewrite Ho, peers_emit_run. split; reflexivity.
Qed.

(** X27: [destroy] of the WebRTC manager closes the connection of every peer
    once, in the order of the table, stops the local stream when there is
    one, and emits no event: no listener hears of the peers that went. It
    leaves a manager without peers, listeners and transfers, for which
    [sendMessage] returns false and tells its error to no listener. *)
Theorem destroy_closes_every_connection w :
  JsMap.wf (peers (mgr w)) ->
  exists tr,
    let m' := {| peers := []; localStream := false; eventListeners := [];
                 fileTransfers := [] |} in
    let w' := {| mgr := m'; trace := trace w ++ tr |} in
    destroy w = (Js.Normal tt, w')
    /\ closed tr = JsMap.keys (peers (mgr w))
    /\ emitted tr = [] /\ texts tr = []
    /\ (In EStopLocalStream tr <-> localStream (mgr w) = true)
    /\ forall br now peerId content_,
         sendMessage br now peerId content_ w'
         = (Js.Normal false,
            {| mgr := m';
               trace :=
                 trace w'
                 ++ [EEmit (WebRTC.ErrorEvent
                              (Js.Error "Data channel not available")
                              (Some peerId))] |}).
Proof.
  intros Hwf.
  destruct (closeAll_loop w Hwf eq_refl) as (tr & E & Hc & He & Ht & _ & Hl).
  assert (Hsend : forall t br now peerId content_,
    sendMessage br now peerId content_
      {| mgr := {| peers := []; localStream := false; eventListeners := [];
                   fileTransfers := [] |};
         trace := t |}
    = (Js.Normal false,
       {| mgr := {| peers := []; localStream := false;
                    eventListeners := []; fileTransfers := [] |};
          trace :=
            t ++ [EEmit (WebRTC.ErrorEvent
                           (Js.Error "Data channel not available")
                           (Some peerId))] |})).
  { intros t br now peerId content_.
    exact (proj1 (@send_without_channel br 0%nat (fun _ => 0) "" now peerId
                    content_
                    {| FileTransfer.name := ""; FileTransfer.type := "";
                       FileTransfer.bytes := [] |}
                    {| mgr := {| peers := []; localStream := false;
                                 eventListeners := [];
                                 fileTransfers := [] |};
                       trace := t |} eq_refl)). }
  unfold destroy, closeAllConnections, Js.bind, getM, Js.gets.
  rewrite E. cbn [mgr trace set_peers localStream].
  destruct (localStream (mgr w)) eqn:L.
  - exists (tr ++ [EStopLocalStream]).
    unfold log, modifyM, Js.modify. cbn [mgr trace]. cbv zeta.
    split; [|split; [|split; [|split; [|split]]]].
    + rewrite <- app_assoc. reflexivity.
    + rewrite closed_app, Hc. cbn. apply app_nil_r.
    + rewrite peers_emitted_app, He. reflexivity.
    + rewrite texts_app, Ht. reflexivity.
    + split; [reflexivity|]. intros _. apply in_or_app. right. now left.
    + intros. apply Hsend.
  - exists tr. unfold Js.ret, modifyM, Js.modify. cbn [mgr trace]. cbv zeta.
    unfold set_fileTransfers, set_eventListeners, set_peers.
    cbn [peers localStream eventListeners fileTransfers]. rewrite L.
    split; [reflexivity|]. split; [exact Hc|]. split; [exact He|].
    split; [exact Ht|]. split; [|intros; apply Hsend].
    split; [tauto|discriminate].
Qed.

(** X27 at two peers: both connections are closed, in order, and no event
    is emitted. *)
Lemma destroy_closes_every_connection_witness :
  exists tr,
    fst (destroy PeerExamples.twoPeers) = Js.Normal tt
    /\ trace (snd (destroy PeerExamples.twoPeers))
       = trace PeerExamples.twoPeers ++ tr
    /\ closed tr = ["p1"; "p2"] /\ emitted tr = [].
Proof.
  assert (Hwf : JsMap.wf (peers (mgr PeerExamples.twoPeers))).
  { repeat constructor; cbn; intuition discriminate. }
  destruct (destroy_closes_every_connection PeerExamples.twoPeers Hwf)
    as (tr & E & Hc & He & _).
  exists tr. rewrite E. cbn [fst snd trace].
  split; [reflexivity|]. split; [reflexivity|].
  split; [exact Hc|exact He].
Defined.

(** X28: when a connection reports the state ['failed'] or ['closed'], the
    listeners hear of the change of state and of the disconnection, the
    connection of the peer is closed and the peer leaves the table, while
    the other peers stay. From then on [sendMessage] and [sendFile] for
    that peer send nothing: they return false and null, each with one
    error event for the peer, and leave the manager as it is. *)
Theorem closed_connection_removes_the_peer
    br fuel env transferId now peerId content_ file state w :
  state = "failed" \/ state = "closed" ->
  let w1 := snd (onconnectionstatechange peerId state w) in
  fst (onconnectionstatechange peerId state w) = Js.Normal tt
  /\ (exists tr,
        trace w1 = trace w ++ tr
        /\ emitted tr
           = [WebRTC.ConnectionStateChange state peerId;
              WebRTC.PeerDisconnected peerId]
        /\ closed tr
           = (if JsMap.has peerId (peers (mgr w)) then [peerId] else [])
        /\ texts tr = [])
  /\ getPeer peerId (mgr w1) = None
  /\ (forall other, other <> peerId ->
        getPeer other (mgr w1) = getPeer other (mgr w))
  /\ (let r := sendMessage br now peerId content_ w1 in
      fst r = Js.Normal false
      /\ mgr (snd r) = mgr w1
      /\ exists tr,
           trace (snd r) = trace w1 ++ tr /\ texts tr = []
           /\ emitted tr
              = [WebRTC.ErrorEvent (Js.Error "Data channel not available")
                   (Some peerId)])
  /\ (let r := sendFile br fuel env transferId now peerId file w1 in
      fst r = Js.Normal (Returned None)
      /\ mgr (snd r) = mgr w1
      /\ exists tr,
           trace (snd r) = trace w1 ++ tr /\ texts tr = []
           /\ chunksSent tr = []
           /\ emitted tr
              = [WebRTC.ErrorEvent (Js.Error "Data channel not available")
                   (Some peerId)]).
Proof.
  intros Hs w1.
  assert (Hrun : exists tr,
    onconnectionstatechange peerId state w
    = (Js.Normal tt,
       {| mgr :=
            match JsMap.get peerId (peers (mgr w)) with
            | Some _ =>
                set_peers (JsMap.delete peerId (peers (mgr w))) (mgr w)
            | None => mgr w
            end;
          trace := trace w ++ tr |})
    /\ emitted tr
       = [WebRTC.ConnectionStateChange state peerId;
          WebRTC.PeerDisconnected peerId]
    /\ closed tr
       = (if JsMap.has peerId (peers (mgr w)) then [peerId] else [])
    /\ texts tr = []).
  { unfold onconnectionstatechange, JsMap.has.
    assert (Hm : (mapConnectionState state = FAILED
                  \/ mapConnectionState state = CLOSED)
                 /\ stateValue (mapConnectionState state) = state)
      by (destruct Hs as [-> | ->]; cbn; auto).
    destruct Hm as [Hm Hv]. rewrite Hv.
    unfold Js.bind at 1. rewrite peers_emit_run.
    match goal with |- context [match mapConnectionState state with
                                | DISCONNECTED => ?a | CONNECTING => ?b
                                | CONNECTED => ?c | FAILED => ?d
                                | CLOSED => ?e end] =>
      replace (match mapConnectionState state with
               | DISCONNECTED => a | CONNECTING => b
               | CONNECTED => c | FAILED => d | CLOSED => e end)
        with d by (destruct Hm as [-> | ->]; reflexivity)
    end.
    unfold Js.bind. rewrite peers_emit_run, removePeer_run.
    cbn [mgr trace].
    destruct (JsMap.get peerId (peers (mgr w))) as [p|] eqn:G.
    - destruct (removal_traces peerId p) as (Rc & Re & Rt & _).
      cbv zeta in Rc, Re, Rt.
      match type of Rc with closed ?x = _ => set (rt := x) in * end.
      clearbody rt.
      eexists. split; [|split; [|split]].
      + rewrite <- !app_assoc. reflexivity.
      + rewrite !peers_emitted_app, !peers_emitted_told, Re. reflexivity.
      + rewrite !closed_app, !closed_told, Rc. reflexivity.
      + rewrite !texts_app, !texts_told, Rt. reflexivity.
    - eexists. split; [|split; [|split]].
      + rewrite <- !app_assoc. destruct w; reflexivity.
      + rewrite !peers_emitted_app, !peers_emitted_told. reflexivity.
      + rewrite !closed_app, !closed_told. reflexivity.
      + rewrite !texts_app, !texts_told. reflexivity. }
  destruct Hrun as (tr & E & He & Hc & Ht).
  assert (Hgone : getPeer peerId (mgr w1) = None).
  { subst w1. rewrite E. cbn [snd mgr]. unfold getPeer.
    destruct (JsMap.get peerId (peers (mgr w))) eqn:G; [|exact G].
    cbn [set_peers peers]. rewrite get_delete, keyb_refl. reflexivity. }
  assert (Ho : openChannel br peerId (mgr w1) = None).
  { unfold openChannel. unfold getPeer in Hgone. now rewrite Hgone. }
  destruct (@send_without_channel br fuel env transferId now peerId
              content_ file w1 Ho) as [Sm Sf].
  cbv zeta in Sm, Sf.
  split; [now rewrite E|]. split.
  { exists tr. subst w1. rewrite E. cbn [snd trace]. auto. }
  split; [exact Hgone|]. split.
  { intros other N. subst w1. rewrite E. cbn [snd mgr]. unfold getPeer.
    destruct (JsMap.get peerId (peers (mgr w))); [|reflexivity].
    cbn [set_peers peers]. rewrite get_delete.
    destruct (keyb_reflect other peerId); [contradiction|reflexivity]. }
  split.
  - cbv zeta. rewrite Sm. cbn [fst snd mgr trace].
    split; [reflexivity|]. split; [reflexivity|].
    eexists. split; [reflexivity|].
    rewrite texts_told, peers_emitted_told. auto.
  - cbv zeta. rewrite Sf. cbn [fst snd mgr trace].
    split; [reflexivity|]. split; [reflexivity|].
    eexists. split; [reflexivity|].
    rewrite texts_told, chunksSent_told, peers_emitted_told. auto.
Qed.

(** X28 at the peer [p1] of two: after ['failed'] it is gone and
    [sendMessage] returns false. *)
Lemma closed_connection_removes_the_peer_witness :
  let w1 := snd (onconnectionstatechange "p1" "failed" PeerExamples.twoPeers) in
  getPeer "p1" (mgr w1) = None
  /\ fst (sendMessage PeerExamples.allOpen 5 "p1" "hi" w1) = Js.Normal false.
Proof.
  intros w1.
  destruct (@closed_connection_removes_the_peer PeerExamples.allOpen 1%nat
              PeerExamples.idle "t1" 5 "p1" "hi" PeerExamples.small "failed"
              PeerExamples.twoPeers (or_introl eq_refl))
    as (_ & _ & Hg & _ & (Hm & _) & _).
  split; [exact Hg|exact Hm].
Defined.

(** [sendFile] for a peer with an open channel, up to the file
    information. *)
Lemma sendFile_open br fuel env transferId now peerId file w ch :
  openChannel br peerId (mgr w) = Some ch ->
  let fileTransfer :=
    {| WebRTC.ft_id := transferId;
       WebRTC.fileName := FileTransfer.name file;
       WebRTC.fileSize := FileTransfer.size file;
       WebRTC.progress_num := 0; WebRTC.progress_den := 1;
       WebRTC.status := WebRTC.PENDING;
       WebRTC.sender := "local"; WebRTC.receiver := peerId |} in
  let fileInfo :=
    {| msg_type := "file"; content := transferId; sender := "local";
       timestamp := now; msg_id := ""; from := "";
       fileName := FileTransfer.name file;
       fileSize := FileTransfer.size file |} in
  let m1 :=
    set_fileTransfers
      (JsMap.set transferId fileTransfer (fileTransfers (mgr w))) (mgr w) in
  sendFile br fuel env transferId now peerId file w
  = match sendThrows (br ch) with
    | Some error =>
        (Js.Normal (Returned None),
         {| mgr := m1;
            trace :=
              trace w
              ++ told m1
                   (WebRTC.ErrorEvent
                      (Js.Error ("Failed to send file: " +++ error))
                      (Some peerId)) |})
    | None =>
        let r :=
          WebRTC.sendFileInChunks fuel env (FileTransfer.bytes file)
            (Some fileTransfer) in
        (Js.Normal (if fst (fst r) then Returned (Some transferId)
                    else Waiting),
         {| mgr :=
              match snd (fst r) with
              | Some t =>
                  set_fileTransfers
                    (JsMap.update transferId (fun _ => t)
                       (fileTransfers m1)) m1
              | None => m1
              end;
            trace :=
              (trace w ++ [ESendText peerId fileInfo])
              ++ channelSteps m1 peerId (snd r) |})
    end.
Proof.
  intros Ho fileTransfer fileInfo m1.
  unfold sendFile, Js.bind at 1, getM at 1, Js.gets. rewrite Ho.
  fold fileTransfer. fold fileInfo.
  unfold Js.bind at 1, modifyM at 1, Js.modify. cbn [mgr trace].
  fold m1. destruct (sendThrows (br ch)) as [error|].
  - unfold Js.bind. rewrite peers_emit_run. reflexivity.
  - unfold Js.bind at 1, log, Js.modify. cbn [mgr trace].
    unfold Js.bind at 1, getM, Js.gets. cbn [mgr trace].
    replace (JsMap.get transferId (fileTransfers m1))
      with (Some fileTransfer)
      by (subst m1; cbn [set_fileTransfers fileTransfers];
          now rewrite get_set_same).
    destruct (WebRTC.sendFileInChunks fuel env (FileTransfer.bytes file)
                (Some fileTransfer)) as [[done ft'] tr].
    cbv zeta. cbn [fst snd]. unfold Js.bind, Js.modify, Js.ret.
    cbn [mgr trace]. reflexivity.
Qed.

Lemma channelSteps_traces m peerId tr :
  emitted (channelSteps m peerId tr) = WebRTC.emits tr
  /\ chunksSent (channelSteps m peerId tr) = WebRTC.sends tr
  /\ texts (channelSteps m peerId tr) = [].
Proof.
  induction tr as [|a tr (He & Hs & Ht)]; [repeat split|].
  change (channelSteps m peerId (a :: tr))
    with ((match a with
           | WebRTC.Emit ev => told m ev
           | _ => [EChannel peerId a]
           end) ++ channelSteps m peerId tr).
  rewrite peers_emitted_app, chunksSent_app, texts_app, He, Hs, Ht.
  destruct a; cbn [WebRTC.emits WebRTC.sends flat_map];
    rewrite ?peers_emitted_told, ?chunksSent_told, ?texts_told;
    repeat split; reflexivity.
Qed.

(** X29: a [sendFile] over an open channel that returns the id of the
    transfer has handed to the channel the file information first and
    then every chunk of the file, in order, and nothing else; it has
    emitted one progress event for each chunk and a last one for the
    completion, and the table holds the transfer as [COMPLETED] with the
    progress 100. *)
Theorem sendFile_sends_info_then_chunks
    br fuel env transferId now peerId file w ch :
  openChannel br peerId (mgr w) = Some ch ->
  sendThrows (br ch) = None ->
  fst (sendFile br fuel env transferId now peerId file w)
  = Js.Normal (Returned (Some transferId)) ->
  let w1 := snd (sendFile br fuel env transferId now peerId file w) in
  let record status_ num den :=
    {| WebRTC.ft_id := transferId;
       WebRTC.fileName := FileTransfer.name file;
       WebRTC.fileSize := FileTransfer.size file;
       WebRTC.progress_num := num; WebRTC.progress_den := den;
       WebRTC.status := status_;
       WebRTC.sender := "local"; WebRTC.receiver := peerId |} in
  let total :=
    FileTransfer.Math_ceil_div (FileTransfer.size file) WebRTC.CHUNK_SIZE in
  exists tr,
    trace w1
    = trace w
      ++ ESendText peerId
           {| msg_type := "file"; content := transferId; sender := "local";
              timestamp := now; msg_id := ""; from := "";
              fileName := FileTransfer.name file;
              fileSize := FileTransfer.size file |}
         :: tr
    /\ texts tr = []
    /\ chunksSent tr = WebRTC.fileChunks (FileTransfer.bytes file)
    /\ emitted tr
       = map (fun k =>
                WebRTC.FileTransferProgress
                  (record WebRTC.TRANSFERRING (k * 100) total))
           (indices 1 (Z.to_nat total))
         ++ [WebRTC.FileTransferProgress (record WebRTC.COMPLETED 100 1)]
    /\ JsMap.get transferId (fileTransfers (mgr w1))
       = Some (record WebRTC.COMPLETED 100 1)
    /\ peers (mgr w1) = peers (mgr w).
Proof.
  intros Ho Hn Hr w1 record total. subst w1. revert Hr.
  rewrite (@sendFile_open br fuel env transferId now peerId file w ch Ho).
  cbv zeta. rewrite Hn.
  set (ft0 := {| WebRTC.ft_id := transferId;
                 WebRTC.fileName := FileTransfer.name file;
                 WebRTC.fileSize := FileTransfer.size file;
                 WebRTC.progress_num := 0; WebRTC.progress_den := 1;
                 WebRTC.status := WebRTC.PENDING;
                 WebRTC.sender := "local"; WebRTC.receiver := peerId |}).
  cbn [fst snd]. intros Hr.
  assert (D : fst (fst (WebRTC.sendFileInChunks fuel env
                          (FileTransfer.bytes file) (Some ft0))) = true).
  { destruct (fst (fst (WebRTC.sendFileInChunks fuel env
                          (FileTransfer.bytes file) (Some ft0))));
      [reflexivity|discriminate Hr]. }
  destruct (@sendFileInChunks_events env fuel (FileTransfer.bytes file)
              ft0 D) as [He Hf].
  cbv zeta in He. pose proof (@sendFileInChunks_sends_all env fuel
                                (FileTransfer.bytes file) ft0 D) as Hs.
  rewrite Hf. cbn [mgr trace].
  match goal with |- context [channelSteps ?m peerId ?t] =>
    destruct (channelSteps_traces m peerId t) as (Ce & Cs & Ct);
    exists (channelSteps m peerId t)
  end.
  split; [now rewrite <- app_assoc|]. split; [exact Ct|].
  split; [now rewrite Cs|]. split; [rewrite Ce; exact He|]. split.
  - cbn [set_fileTransfers fileTransfers].
    rewrite get_update, keyb_refl, get_set_same. reflexivity.
  - reflexivity.
Qed.

(** X29 at a file of three bytes: the file information, then one chunk. *)
Lemma sendFile_sends_info_then_chunks_witness :
  let w1 :=
    snd (sendFile PeerExamples.allOpen 1 PeerExamples.idle "t1" 5 "p1"
           PeerExamples.small PeerExamples.twoPeers) in
  exists tr,
    trace w1
    = trace PeerExamples.twoPeers
      ++ ESendText "p1"
           {| msg_type := "file"; content := "t1"; sender := "local";
              timestamp := 5; msg_id := ""; from := "";
              fileName := "a.bin"; fileSize := 3 |}
         :: tr
    /\ chunksSent tr = [[Byte.x01; Byte.x02; Byte.x03]].
Proof.
  intros w1.
  destruct (@sendFile_sends_info_then_chunks PeerExamples.allOpen 1%nat
              PeerExamples.idle "t1" 5 "p1" PeerExamples.small PeerExamples.twoPeers
              1%nat eq_refl eq_refl eq_refl)
    as (tr & Ht & _ & Hs & _).
  exists tr. split; [exact Ht|exact Hs].
Defined.

(** X30: when the channel is open and its [send] throws on the file
    information, [sendFile] returns null and emits one error event for
    the peer, nothing reaches the channel, and the record of the transfer
    that it has just stored stays in the table with the status
    [PENDING]. *)
Theorem sendFile_failure_keeps_the_record
    br fuel env transferId now peerId file w ch error :
  openChannel br peerId (mgr w) = Some ch ->
  sendThrows (br ch) = Some error ->
  let r := sendFile br fuel env transferId now peerId file w in
  fst r = Js.Normal (Returned None)
  /\ JsMap.get transferId (fileTransfers (mgr (snd r)))
     = Some {| WebRTC.ft_id := transferId;
               WebRTC.fileName := FileTransfer.name file;
               WebRTC.fileSize := FileTransfer.size file;
               WebRTC.progress_num := 0; WebRTC.progress_den := 1;
               WebRTC.status := WebRTC.PENDING;
               WebRTC.sender := "local"; WebRTC.receiver := peerId |}
  /\ exists tr,
       trace (snd r) = trace w ++ tr
       /\ emitted tr
          = [WebRTC.ErrorEvent
               (Js.Error ("Failed to send file: " +++ error))
               (Some peerId)]
       /\ texts tr = [] /\ chunksSent tr = [].
Proof.
  intros Ho Hn r. subst r.
  rewrite (@sendFile_open br fuel env transferId now peerId file w ch Ho).
  cbv zeta. rewrite Hn. cbn [fst snd mgr trace].
  split; [reflexivity|]. split.
  - cbn [set_fileTransfers fileTransfers]. apply get_set_same.
  - eexists. split; [reflexivity|].
    rewrite peers_emitted_told, texts_told, chunksSent_told. auto.
Qed.

(** X30 at a channel whose [send] throws: null is returned and the
    record stays. *)
Lemma sendFile_failure_keeps_the_record_witness :
  let r :=
    sendFile PeerExamples.broken 1 PeerExamples.idle "t1" 5 "p1" PeerExamples.small
      PeerExamples.twoPeers in
  fst r = Js.Normal (Returned None)
  /\ JsMap.has "t1" (fileTransfers (mgr (snd r))) = true.
Proof.
  intros r.
  destruct (@sendFile_failure_keeps_the_record PeerExamples.broken 1%nat
              PeerExamples.idle "t1" 5 "p1" PeerExamples.small PeerExamples.twoPeers
              1%nat "InvalidStateError" eq_refl eq_refl)
    as (Hr & Hg & _).
  split; [exact Hr|]. unfold JsMap.has. fold r in Hg. now rewrite Hg.
Defined.
End PeerConnections.
